(** * chmpy: space-group symmetry operations, unit cells and crystals

    A shallow embedding of the symmetry engine of the repository
    ([shmolecule/space_group.py], [shmolecule/unit_cell.py],
    [shmolecule/crystal.py]) and of its table of elements
    ([shmolecule/element.py]), together with the properties its
    specification states about it and further properties of the code.

    Conventions of the embedding.
    - A [numpy.float64] is modelled by an exact rational ([Q]): float
      arithmetic is taken without rounding error, and float equality is
      [Qeq].  Properties of translations that [+], [-] and [% 1] have
      produced are stated for the operands on which the rounded
      [float64] results pack to the same digits: twelfths and the
      centring translations, the thirds of the R lattice only where
      one of them is added to a twelfth (a second third added can
      leave 0.9999999999999999, which packs to the digit 12).
    - A [numpy.int64] is modelled by [Z] with the two's complement
      wrap-around [wrap64] written at every arithmetic operation.
    - Python [int] is [Z]; [%] and [//] on a positive divisor are
      [Z.modulo] and [Z.div].
    - An array of shape (3,) is an [arr3]; a (3,3) array is an [arr3] of
      rows.
    - A raised exception is the [Raise] alternative of [result]. *)

From Stdlib Require Import ZArith QArith Qround Qabs List Lia Lqa String Ascii Bool.
From stdpp Require Import base strings pretty list gmap sets sorting.
Import ListNotations.

Local Open Scope Z_scope.

(** ** Python results *)

Inductive exn : Type :=
| KeyError_int (key : Z)
| KeyError_str (key : string)
| IndexError
| ValueError
| ZeroDivisionError.

Inductive result (A : Type) : Type :=
| Ok (a : A)
| Raise (e : exn).
Arguments Ok {A} a.
Arguments Raise {A} e.

#[global] Instance result_ret : MRet result := fun A a => Ok a.
#[global] Instance result_bind : MBind result := fun A B f m =>
  match m with
  | Ok a => f a
  | Raise e => Raise e
  end.
#[global] Instance result_fmap : FMap result := fun A B f m =>
  match m with
  | Ok a => Ok (f a)
  | Raise e => Raise e
  end.

(** ** numpy on rationals *)

Module np.

(** two's complement reduction of an [int64] result *)
Definition wrap64 (z : Z) : Z := (z + 2 ^ 63) mod 2 ^ 64 - 2 ^ 63.

(** [np.round]: to the nearest integer, halves to the even neighbour *)
Definition round (q : Q) : Z :=
  let f := Qfloor q in
  match (q - inject_Z f ?= 1 # 2)%Q with
  | Lt => f
  | Gt => f + 1
  | Eq => if Z.even f then f else f + 1
  end.

(** [x.astype(int)] of an already rounded value; a value outside the
    range of [int64] is cast to the least [int64] *)
Definition astype_int (z : Z) : Z :=
  if (- 2 ^ 63 <=? z) && (z <? 2 ^ 63) then z else - 2 ^ 63.

(** [x % 1]: the result has the sign of the divisor *)
Definition mod1 (q : Q) : Q := (q - inject_Z (Qfloor q))%Q.

(** [np.fmod(x, 1)]: C's [fmod], the result has the sign of [x] *)
Definition fmod1 (q : Q) : Q :=
  (q - inject_Z (Z.quot (Qnum q) (Zpos (Qden q))))%Q.

(** [np.allclose(a, b)] on scalars, [rtol = 1e-5], [atol = 1e-8] *)
Definition rtol : Q := 1 # 100000.
Definition atol : Q := 1 # 100000000.
Definition close (a b : Q) : bool :=
  Qle_bool (Qabs (a - b)) (atol + rtol * Qabs b).

(** the [float64] nearest to pi, which is the rational
    884279719003555 / 2^48 *)
Definition pi : Q := 884279719003555 # 281474976710656.

End np.

(** ** Arrays of shape (3,) and (3,3) *)

Inductive axis : Type := A0 | A1 | A2.

Record arr3 (A : Type) : Type := Arr3 { at0 : A; at1 : A; at2 : A }.
Arguments Arr3 {A} _ _ _.
Arguments at0 {A} _.
Arguments at1 {A} _.
Arguments at2 {A} _.

Definition aget {A} (v : arr3 A) (i : axis) : A :=
  match i with A0 => at0 v | A1 => at1 v | A2 => at2 v end.

Definition aset {A} (v : arr3 A) (i : axis) (x : A) : arr3 A :=
  match i with
  | A0 => Arr3 x (at1 v) (at2 v)
  | A1 => Arr3 (at0 v) x (at2 v)
  | A2 => Arr3 (at0 v) (at1 v) x
  end.

Definition amap {A B} (f : A → B) (v : arr3 A) : arr3 B :=
  Arr3 (f (at0 v)) (f (at1 v)) (f (at2 v)).

Definition azip {A B C} (f : A → B → C) (v : arr3 A) (w : arr3 B) : arr3 C :=
  Arr3 (f (at0 v) (at0 w)) (f (at1 v) (at1 w)) (f (at2 v) (at2 w)).

Definition get2 {A} (m : arr3 (arr3 A)) (i j : axis) : A := aget (aget m i) j.

Definition set2 {A} (m : arr3 (arr3 A)) (i j : axis) (x : A) : arr3 (arr3 A) :=
  aset m i (aset (aget m i) j x).

Definition vec := arr3 Q.
Definition mat := arr3 (arr3 Q).

(** elementwise float equality *)
Definition vec_eq (v w : vec) : Prop :=
  (at0 v == at0 w)%Q ∧ (at1 v == at1 w)%Q ∧ (at2 v == at2 w)%Q.

Definition mat_eq (m n : mat) : Prop :=
  vec_eq (at0 m) (at0 n) ∧ vec_eq (at1 m) (at1 n) ∧ vec_eq (at2 m) (at2 n).

(** [np.empty]: the contents are unspecified; every cell is written
    before it is read *)
Definition np_empty3 : vec := Arr3 0%Q 0%Q 0%Q.
Definition np_empty33 : mat := Arr3 np_empty3 np_empty3 np_empty3.

(** ** space_group.py *)

Definition LATTICE_TYPE_TRANSLATIONS (k : Z) : option (list vec) :=
  match k with
  | 1 => Some []
  | 2 => Some [Arr3 (1 # 2) (1 # 2) (1 # 2)]%Q
  | 3 => Some [Arr3 (2 # 3) (1 # 3) (1 # 3); Arr3 (1 # 3) (2 # 3) (2 # 3)]%Q
  | 4 => Some [Arr3 0 (1 # 2) (1 # 2); Arr3 (1 # 2) 0 (1 # 2);
               Arr3 (1 # 2) (1 # 2) 0]%Q
  | 5 => Some [Arr3 0 (1 # 2) (1 # 2)]%Q
  | 6 => Some [Arr3 (1 # 2) 0 (1 # 2)]%Q
  | 7 => Some [Arr3 (1 # 2) (1 # 2) 0]%Q
  | _ => None
  end.

Definition decode_symm_int (coded_integer : Z) : mat * vec :=
  let r := coded_integer mod 19683 in
  let shift := 6561 in
  let rotation := np_empty33 in
  let translation := np_empty3 in
  let '(rotation, _) :=
    fold_left (fun st i =>
      fold_left (fun '(rotation, shift) j =>
        (set2 rotation i j (inject_Z ((r mod (shift * 3)) / shift - 1)),
         shift / 3)) [A0; A1; A2] st)
      [A0; A1; A2] (rotation, shift) in
  let t := coded_integer / 19683 in
  let shift := 144 in
  let '(translation, _) :=
    fold_left (fun '(translation, shift) i =>
      (aset translation i (inject_Z ((t mod (shift * 12)) / shift) / 12)%Q,
       shift / 12)) [A0; A1; A2] (translation, shift) in
  (rotation, translation).

Definition encode_symm_int (rotation : mat) (translation : vec) : Z :=
  let r := 0 in
  let shift := 1 in
  let rotation :=
    amap (amap (fun x => np.wrap64 (np.astype_int (np.round x) + 1))) rotation in
  let '(r, _) :=
    fold_left (fun st i =>
      fold_left (fun '(r, shift) j =>
        (np.wrap64 (r + np.wrap64 (get2 rotation i j * shift)), shift * 3))
        [A2; A1; A0] st)
      [A2; A1; A0] (r, shift) in
  let t := 0 in
  let shift := 1 in
  let translation :=
    amap (fun x => np.astype_int (np.round (x * 12)%Q)) translation in
  let '(t, _) :=
    fold_left (fun '(t, shift) i =>
      (np.wrap64 (t + np.wrap64 (aget translation i * shift)), shift * 12))
      [A2; A1; A0] (t, shift) in
  np.wrap64 (r + np.wrap64 (t * 19683)).


Module SymmetryOperation.

(** [_integer_code] is the lazily cached packed integer: absent until
    [integer_code] is first read, except that [from_integer_code]
    stores the code it was given. *)
Record t : Type := Make {
  rotation : mat;
  translation : vec;
  _integer_code : option Z
}.

(** [__init__] *)
Definition new (rotation : mat) (translation : vec) : t :=
  Make rotation (amap np.mod1 translation) None.

(** the property [integer_code]; setting the cache does not change the
    value read *)
Definition integer_code (self : t) : Z :=
  match _integer_code self with
  | Some code => code
  | None => encode_symm_int (rotation self) (translation self)
  end.

Definition inverted (self : t) : t :=
  new (amap (amap Qopp) (rotation self)) (amap Qopp (translation self)).

(** [__add__] and [__sub__] *)
Definition add (self : t) (value : vec) : t :=
  new (rotation self) (azip Qplus (translation self) value).

Definition sub (self : t) (value : vec) : t :=
  new (rotation self) (azip Qminus (translation self) value).

(** [__lt__], [__eq__], [__hash__] *)
Definition lt (self other : t) : bool :=
  integer_code self <? integer_code other.

Definition eq (self other : t) : bool :=
  integer_code self =? integer_code other.

Definition hash (self : t) : Z := integer_code self.

Definition from_integer_code (code : Z) : t :=
  let '(rot, trans) := decode_symm_int code in
  let s := new rot trans in
  Make (rotation s) (translation s) (Some code).

Definition is_identity (self : t) : bool := integer_code self =? 16484.

Definition identity : t := from_integer_code 16484.

(** Python's [x in l] for a list of operations: some element is equal
    to [x] under [__eq__] *)
Definition contains (x : t) (l : list t) : bool := existsb (eq x) l.

End SymmetryOperation.

(** [expanded_symmetry_list] appends to the list object it is given, so
    the model returns the final contents of the caller's list together
    with the outcome of the call. *)
Definition expanded_symmetry_list
    (reduced_symops : list SymmetryOperation.t) (lattice_type : Z)
    : list SymmetryOperation.t * result (list SymmetryOperation.t) :=
  let lattice_type_value := Z.abs lattice_type in
  match LATTICE_TYPE_TRANSLATIONS lattice_type_value with
  | None => (reduced_symops, Raise (KeyError_int lattice_type_value))
  | Some translations =>
      let identity := SymmetryOperation.identity in
      let reduced_symops :=
        if negb (SymmetryOperation.contains identity reduced_symops)
        then reduced_symops ++ [identity]
        else reduced_symops in
      let full_symops :=
        flat_map (fun symop =>
                    symop :: List.map (SymmetryOperation.add symop) translations)
                 reduced_symops in
      let full_symops :=
        if 0 <? lattice_type
        then full_symops ++ List.map SymmetryOperation.inverted full_symops
        else full_symops in
      (reduced_symops, Ok full_symops)
  end.

(** the [for t in translations: ... break ... else:] of
    [reduced_symmetry_list]; [true] when the loop leaves through
    [break] *)
Fixpoint centering_break (inversion : bool)
    (reduced_symops : list SymmetryOperation.t)
    (next_symop : SymmetryOperation.t) (translations : list vec) : bool :=
  match translations with
  | [] => false
  | t :: translations =>
      let x := SymmetryOperation.add next_symop t in
      if inversion
         && SymmetryOperation.contains (SymmetryOperation.inverted x)
              reduced_symops
      then true
      else if SymmetryOperation.contains x reduced_symops then true
      else centering_break inversion reduced_symops next_symop translations
  end.

(** the [while symops_to_process:] loop; each turn pops the head *)
Fixpoint reduce_loop (translations : list vec) (inversion : bool)
    (symops_to_process reduced_symops : list SymmetryOperation.t)
    : list SymmetryOperation.t :=
  match symops_to_process with
  | [] => reduced_symops
  | next_symop :: symops_to_process =>
      if SymmetryOperation.contains next_symop reduced_symops
      then reduce_loop translations inversion symops_to_process reduced_symops
      else if inversion
              && SymmetryOperation.contains
                   (SymmetryOperation.inverted next_symop) reduced_symops
      then reduce_loop translations inversion symops_to_process reduced_symops
      else if centering_break inversion reduced_symops next_symop translations
      then reduce_loop translations inversion symops_to_process reduced_symops
      else reduce_loop translations inversion symops_to_process
             (reduced_symops ++ [next_symop])
  end.

(** [sorted] on integers *)
Definition sorted_codes (l : list Z) : list Z := merge_sort Z.le l.

Definition reduced_symmetry_list
    (full_symops : list SymmetryOperation.t) (lattice_type : Z)
    : result (list SymmetryOperation.t) :=
  (* both of these are computed and never read again *)
  let output_symmetry_operations : gset Z :=
    list_to_set (List.map SymmetryOperation.hash full_symops) in
  let symop_codes :=
    sorted_codes (List.map SymmetryOperation.integer_code full_symops) in
  let lattice_type_value := Z.abs lattice_type in
  match LATTICE_TYPE_TRANSLATIONS lattice_type_value with
  | None => Raise (KeyError_int lattice_type_value)
  | Some translations =>
      let reduced_symops := [SymmetryOperation.identity] in
      let symops_to_process := full_symops in
      let inversion := 0 <? lattice_type in
      Ok (reduce_loop translations inversion symops_to_process reduced_symops)
  end.

(** an entry of the space-group table, the namedtuple [_sgdata] *)
Module _sgdata.

Record t : Type := Make {
  number : Z;
  short : string;
  schoenflies : string;
  full : string;
  international : string;
  pointgroup : string;
  choice : string;
  centering : string;
  symops : list Z;
  centrosymmetric : bool
}.

End _sgdata.

Module SpaceGroup.

(** the attributes [__init__] copies from the table entry of the group
    that the methods below read *)
Record t : Type := Make {
  international_tables_number : Z;
  choice : string;
  centering : string;
  centrosymmetric : bool;
  symmetry_operations : list SymmetryOperation.t
}.

Definition centering_to_latt : gmap string Z :=
  {[ "primitive" := 1; "body" := 2; "rcenter" := 3; "face" := 4;
     "aface" := 5; "bface" := 6; "cface" := 7 ]}%string.

(** the property [latt] *)
Definition latt (self : t) : result Z :=
  match centering_to_latt !! centering self with
  | None => Raise (KeyError_str (centering self))
  | Some l => if negb (centrosymmetric self) then Ok (- l) else Ok l
  end.

Definition reduced_symmetry_operations (self : t)
    : result (list SymmetryOperation.t) :=
  l ← latt self; reduced_symmetry_list (symmetry_operations self) l.

(** [SymmetryOperation.apply] on one row of an (N, 3) array:
    [np.dot(coordinates, rotation.T) + translation] *)
Definition apply (s : SymmetryOperation.t) (p : vec) : vec :=
  let row (i : axis) : Q :=
    (at0 p * get2 (SymmetryOperation.rotation s) i A0
     + at1 p * get2 (SymmetryOperation.rotation s) i A1
     + at2 p * get2 (SymmetryOperation.rotation s) i A2
     + aget (SymmetryOperation.translation s) i)%Q in
  Arr3 (row A0) (row A1) (row A2).

(** the [for i, s in enumerate(...): if ...: unity = i; break] scan *)
Fixpoint find_unity (ops : list SymmetryOperation.t) (i : nat) : nat :=
  match ops with
  | [] => 0%nat
  | s :: ops =>
      if SymmetryOperation.integer_code s =? 16484 then i
      else find_unity ops (S i)
  end.

(** a store into an [int32] array *)
Definition wrap32 (z : Z) : Z := (z + 2 ^ 31) mod 2 ^ 32 - 2 ^ 31.

(** returns [(generator_symop, transformed)]; the two arrays have
    [nsites * len(self)] rows.  In a group without operations they
    have no rows: the block of the coordinates is assigned to an empty
    slice, which one row is broadcast into and which two or more rows
    are a [ValueError] for. *)
Definition apply_all_symops (self : t) (coordinates : list vec)
    : result (list Z * list vec) :=
  let nsites := length coordinates in
  let ops := symmetry_operations self in
  let unity := find_unity ops 0 in
  if (length ops =? 0)%nat
  then if (1 <? nsites)%nat then Raise ValueError else Ok ([], [])
  else
    let other_symops := take unity ops ++ drop (S unity) ops in
    let transformed :=
      coordinates
        ++ concat (List.map (fun s => List.map (apply s) coordinates)
                     other_symops) in
    let generator_symop :=
      replicate nsites 16484
        ++ concat (List.map (fun s =>
                     replicate nsites
                       (wrap32 (SymmetryOperation.integer_code s)))
                     other_symops) in
    Ok (generator_symop, transformed).

(** [__len__] *)
Definition len (self : t) : nat := length (symmetry_operations self).

(** the property [crystal_system] *)
Definition crystal_system (self : t) : result string :=
  let sg := international_tables_number self in
  if (sg <=? 0) || (231 <=? sg) then Raise ValueError
  else if sg <=? 2 then Ok "triclinic"%string
  else if sg <=? 16 then Ok "monoclinic"%string
  else if sg <=? 74 then Ok "orthorhombic"%string
  else if sg <=? 142 then Ok "tetragonal"%string
  else if sg <=? 167 then Ok "trigonal"%string
  else if sg <=? 194 then Ok "hexagonal"%string
  else Ok "cubic"%string.

(** the property [lattice_type]; the value is [None] where the
    function runs off its end.  [abs(self.latt)] is evaluated first and
    not read again. *)
Definition lattice_type (self : t) : result (option string) :=
  latt ← Z.abs <$> latt self;
  let inum := international_tables_number self in
  if (inum <? 143) || (194 <? inum) then Some <$> crystal_system self
  else if bool_decide (inum ∈ [146; 148; 155; 160; 161; 166; 167])
  then
    if String.eqb (choice self) "H" then Ok (Some "hexagonal"%string)
    else if String.eqb (choice self) "R" then Ok (Some "rhombohedral"%string)
    else Ok None
  else Ok (Some "hexagonal"%string).

(** the [for i, s in enumerate(...): if s.is_identity(): ... break]
    scan of [ordered_symmetry_operations]; [None] when the loop runs
    into its [else] *)
Fixpoint find_identity (ops : list SymmetryOperation.t) (i : nat)
    : option nat :=
  match ops with
  | [] => None
  | s :: ops =>
      if SymmetryOperation.is_identity s then Some i
      else find_identity ops (S i)
  end.

Definition ordered_symmetry_operations (self : t)
    : result (list SymmetryOperation.t) :=
  let ops := symmetry_operations self in
  match find_identity ops 0 with
  | None => Ok ops
  | Some unity =>
      let other_symops := take unity ops ++ drop (S unity) ops in
      match ops !! unity with
      | Some s => Ok (s :: other_symops)
      | None => Raise IndexError
      end
  end.

Section Tables.

(** [SG_FROM_NUMBER] and [SG_FROM_SYMOPS], the two dictionaries built
    from [sgdata.json] when the module is loaded: the entries of a
    group under the decimal string of its number, and the entry of a
    group under the tuple of its operation codes *)
Variable SG_FROM_NUMBER : gmap string (list _sgdata.t).
Variable SG_FROM_SYMOPS : gmap (list Z) _sgdata.t.

(** [__init__]; [choice] defaults to the empty string *)
Definition new (international_tables_number : Z) (choice : string)
    : result t :=
  if (international_tables_number <? 1) || (230 <? international_tables_number)
  then Raise ValueError
  else
    let key : string := pretty international_tables_number in
    sgdata ←
      match SG_FROM_NUMBER !! key with
      | None => Raise (KeyError_str key)
      | Some candidates =>
          if String.eqb choice ""
          then match candidates with
               | [] => Raise IndexError
               | sgdata :: _ => Ok sgdata
               end
          else match List.find (fun candidate =>
                                  String.eqb choice (_sgdata.choice candidate))
                               candidates with
               | Some sgdata => Ok sgdata
               | None => Raise ValueError
               end
      end;
    Ok (Make international_tables_number (_sgdata.choice sgdata)
          (_sgdata.centering sgdata) (_sgdata.centrosymmetric sgdata)
          (List.map SymmetryOperation.from_integer_code
             (_sgdata.symops sgdata))).

(** the lookup that ends [from_symmetry_operations] *)
Definition matching_spacegroup (symops : list SymmetryOperation.t)
    : result t :=
  let encoded :=
    sorted_codes (List.map SymmetryOperation.integer_code symops) in
  match SG_FROM_SYMOPS !! encoded with
  | None => Raise ValueError
  | Some sgdata => new (_sgdata.number sgdata) (_sgdata.choice sgdata)
  end.

(** [expanded_symmetry_list] appends to the caller's list, so the
    model returns the final contents of that list with the outcome *)
Definition from_symmetry_operations (symops : list SymmetryOperation.t)
    (expand_latt : option Z) : list SymmetryOperation.t * result t :=
  match expand_latt with
  | None => (symops, matching_spacegroup symops)
  | Some expand_latt =>
      if negb ((-8 <? expand_latt) && (expand_latt <? 8))
      then (symops, Raise ValueError)
      else
        let '(reduced_symops, expanded) :=
          expanded_symmetry_list symops expand_latt in
        (reduced_symops, expanded ≫= matching_spacegroup)
  end.

End Tables.

End SpaceGroup.

(** ** unit_cell.py *)

Module UnitCell.

Record t : Type := Make {
  direct : mat;
  lengths : vec;
  angles : vec
}.

Definition a (self : t) : Q := at0 (lengths self).
Definition b (self : t) : Q := at1 (lengths self).
Definition c (self : t) : Q := at2 (lengths self).
Definition alpha (self : t) : Q := at0 (angles self).
Definition beta (self : t) : Q := at1 (angles self).
Definition gamma (self : t) : Q := at2 (angles self).

(** [np.allclose] of a length-3 array against [zeros(3)] *)
Definition close_zeros (v : vec) : bool :=
  np.close (at0 v) 0 && np.close (at1 v) 0 && np.close (at2 v) 0.

Definition abc_equal (self : t) : bool :=
  close_zeros (amap (fun l => l - at0 (lengths self))%Q (lengths self)).

Definition abc_different (self : t) : bool :=
  negb (np.close (a self) (b self) || np.close (a self) (c self)
        || np.close (b self) (c self)).

Definition orthogonal (self : t) : bool :=
  close_zeros (amap (fun x => Qabs x - np.pi / 2)%Q (angles self)).

Definition angles_different (self : t) : bool :=
  negb (np.close (alpha self) (beta self)
        || np.close (alpha self) (gamma self)
        || np.close (beta self) (gamma self)).

Definition is_triclinic (self : t) : bool :=
  abc_different self && angles_different self.

Definition is_monoclinic (self : t) : bool :=
  np.close (alpha self) (gamma self) && abc_different self.

Definition is_cubic (self : t) : bool :=
  abc_equal self && orthogonal self.

Definition is_orthorhombic (self : t) : bool :=
  orthogonal self && abc_different self.

Definition is_tetragonal (self : t) : bool :=
  np.close (a self) (b self) && negb (np.close (a self) (c self))
  && orthogonal self.

Definition is_rhombohedral (self : t) : bool :=
  abc_equal self
  && close_zeros (amap (fun x => x - at0 (angles self))%Q (angles self))
  && negb (np.close (alpha self) (np.pi / 2)).

Definition is_hexagonal (self : t) : bool :=
  np.close (a self) (b self) && negb (np.close (a self) (c self))
  && (np.close (alpha self) (np.pi / 2) && np.close (beta self) (np.pi / 2))
  && np.close (gamma self) (2 * np.pi / 3).

(** the three attributes [set_cell_type] assigns *)
Record classification : Type := Classification {
  cell_type_index : Z;
  cell_type : string;
  unique_parameters : list Q
}.

Definition set_cell_type (self : t) : classification :=
  if is_cubic self then Classification 6 "cubic" [a self]
  else if is_rhombohedral self
  then Classification 4 "rhombohedral" [a self; alpha self]
  else if is_hexagonal self
  then Classification 5 "hexagonal" [a self; c self]
  else if is_tetragonal self
  then Classification 3 "tetragonal" [a self; c self]
  else if is_orthorhombic self
  then Classification 2 "orthorhombic" [a self; b self; c self]
  else if is_monoclinic self
  then Classification 1 "monoclinic" [a self; b self; c self; beta self]
  else Classification 0 "triclinic"
         [a self; b self; c self; alpha self; beta self; gamma self].

(** [np.dot(coords, self.direct)] on one row *)
Definition to_cartesian (self : t) (p : vec) : vec :=
  let col (j : axis) : Q :=
    (at0 p * get2 (direct self) A0 j + at1 p * get2 (direct self) A1 j
     + at2 p * get2 (direct self) A2 j)%Q in
  Arr3 (col A0) (col A1) (col A2).

(** The cell-type rule as the specification words it: the class
    predicates in priority order, the first that holds names the
    cell, and a cell none of them accepts is triclinic. *)
Definition priority_order : list ((t → bool) * string) :=
  [ (is_cubic, "cubic"); (is_rhombohedral, "rhombohedral");
    (is_hexagonal, "hexagonal"); (is_tetragonal, "tetragonal");
    (is_orthorhombic, "orthorhombic"); (is_monoclinic, "monoclinic") ]%string.

Definition first_match (self : t) : string :=
  match List.find (fun pn => fst pn self) priority_order with
  | Some pn => snd pn
  | None => "triclinic"
  end.

End UnitCell.

(** ** os.path (posixpath) and str *)

Module os_path.

(** [p.rfind(c)] with the index of the first character of [p] being
    [i]; -1 when [c] does not occur *)
Fixpoint rfind_from (c : ascii) (p : string) (i : Z) : Z :=
  match p with
  | EmptyString => -1
  | String x p' =>
      let r := rfind_from c p' (i + 1) in
      if 0 <=? r then r else if Ascii.eqb x c then i else -1
  end.

Definition rfind (c : ascii) (p : string) : Z := rfind_from c p 0.

(** the [while filenameIndex < dotIndex] scan of [_splitext], run for
    the [n] positions that remain; [true] when a character other than
    the dot is met *)
Fixpoint skip_leading_dots (n : nat) (p : string) (filenameIndex : nat)
    : bool :=
  match n with
  | O => false
  | S n =>
      match String.get filenameIndex p with
      | Some x =>
          if negb (Ascii.eqb x ".") then true
          else skip_leading_dots n p (S filenameIndex)
      | None => skip_leading_dots n p (S filenameIndex)
      end
  end.

Definition splitext (p : string) : string * string :=
  let sepIndex := rfind "/" p in
  let dotIndex := rfind "." p in
  if sepIndex <? dotIndex then
    let filenameIndex := sepIndex + 1 in
    if skip_leading_dots (Z.to_nat (dotIndex - filenameIndex)) p
         (Z.to_nat filenameIndex)
    then (String.substring 0 (Z.to_nat dotIndex) p,
          String.substring (Z.to_nat dotIndex)
            (String.length p - Z.to_nat dotIndex) p)
    else (p, EmptyString)
  else (p, EmptyString).

(** [str.lower] on ASCII text *)
Definition lower_ascii (x : ascii) : ascii :=
  let n := nat_of_ascii x in
  if ((65 <=? n) && (n <=? 90))%nat then ascii_of_nat (n + 32) else x.

Fixpoint lower (s : string) : string :=
  match s with
  | EmptyString => EmptyString
  | String x s => String (lower_ascii x) (lower s)
  end.

End os_path.

(** ** crystal.py *)

(** Modelled from the spec: the class [Molecule] ([molecule.py]) is not
    among the sources.  The specification describes it as a structure
    carrying elements, positions and provenance (originating
    asymmetric-unit atom index, label, generating symmetry operation);
    the model keeps what [symmetry_unique_molecules] reads: the atoms,
    the property [asymmetric_unit_atoms], and the generating operation
    codes behind [asym_symops]. *)
Module Molecule.

Record t : Type := Make {
  elements : list Z;
  asymmetric_unit_atoms : list nat;
  generator_symop : list Z
}.

Definition len (self : t) : nat := length (elements self).

Definition asym_symops (self : t) : list Z := generator_symop self.

End Molecule.

Module AsymmetricUnit.

(** [occupation] is [properties.get("occupation")] *)
Record t : Type := Make {
  atomic_numbers : list Z;
  positions : list vec;
  labels : list string;
  occupation : option (list Q)
}.

Definition len (self : t) : nat := length (atomic_numbers self).

(** the invariant of the class: one position, one label and, where
    occupancies are stored, one occupancy per site *)
Definition well_formed (self : t) : Prop :=
  length (positions self) = len self
  ∧ length (labels self) = len self
  ∧ ∀ occ, occupation self = Some occ → length occ = len self.

(** the occupancies [unit_cell_atoms] tiles: the stored ones, or all
    ones *)
Definition site_occupation (self : t) : list Q :=
  default (replicate (len self) 1%Q) (occupation self).

End AsymmetricUnit.

(** boolean-mask indexing [a[mask]]; the two lengths have to agree *)
Definition mask_index {A} (l : list A) (mask : list bool) : result (list A) :=
  if (length l =? length mask)%nat
  then Ok (List.map fst (List.filter snd (combine l mask)))
  else Raise IndexError.

Definition np_tile {A} (l : list A) (reps : nat) : list A :=
  concat (replicate reps l).

(** [np.unique]: the sorted distinct values *)
Definition np_unique (l : list nat) : list nat :=
  merge_sort Nat.le (remove_dups l).

(** [a[idx]] for an integer index array *)
Fixpoint fancy_get {A} (l : list A) (idx : list nat) : result (list A) :=
  match idx with
  | [] => Ok []
  | i :: idx =>
      match l !! i with
      | Some x => xs ← fancy_get l idx; Ok (x :: xs)
      | None => Raise IndexError
      end
  end.

(** [a[idx] = x]; the indices have been read through [fancy_get]
    before, so all are in range *)
Definition fancy_set {A} (l : list A) (idx : list nat) (x : A) : list A :=
  fold_left (fun l i => <[i := x]> l) idx l.

Module Crystal.

Record t : Type := Make {
  unit_cell : UnitCell.t;
  space_group : SpaceGroup.t;
  asymmetric_unit : AsymmetricUnit.t
}.

Definition site_positions (self : t) : list vec :=
  AsymmetricUnit.positions (asymmetric_unit self).

Definition site_atoms (self : t) : list Z :=
  AsymmetricUnit.atomic_numbers (asymmetric_unit self).

Definition nsites (self : t) : nat := length (site_atoms self).

Definition to_cartesian (self : t) (coords : list vec) : list vec :=
  List.map (UnitCell.to_cartesian (unit_cell self)) coords.

Record unit_cell_atom_dict : Type := AtomDict {
  asym_atom : list nat;
  frac_pos : list vec;
  element : list Z;
  symop : list Z;
  label : list string;
  occupation : list Q;
  cart_pos : list vec
}.

(** the merge loop [for (i, j), d in dist.items()] *)
Fixpoint merge_sites (items : list (nat * nat * Q))
    (occupation : list Q) (mask : list bool)
    : result (list Q * list bool) :=
  match items with
  | [] => Ok (occupation, mask)
  | (i, j, d) :: items =>
      if negb (i <? j)%nat then merge_sites items occupation mask
      else
        match occupation !! i, occupation !! j with
        | Some oi, Some oj =>
            if (j <? length mask)%nat
            then merge_sites items (<[i := (oi + oj)%Q]> occupation)
                   (<[j := false]> mask)
            else Raise IndexError
        | _, _ => Raise IndexError
        end
  end.

(** [order = lambda x: len(np.where(x.asym_symops == 16484)[0]) / len(x)]:
    a quotient of two Python integers, which raises for a molecule
    without atoms *)
Definition order (x : Molecule.t) : result Q :=
  if (Molecule.len x =? 0)%nat then Raise ZeroDivisionError
  else
    Ok (inject_Z (Z.of_nat (length (List.filter (Z.eqb 16484)
                                      (Molecule.asym_symops x))))
        / inject_Z (Z.of_nat (Molecule.len x)))%Q.

(** [sorted] calls the key function once on every element, in order,
    before it compares any two *)
Fixpoint keyed (l : list Molecule.t) : result (list (Q * Molecule.t)) :=
  match l with
  | [] => Ok []
  | x :: l => k ← order x; ks ← keyed l; Ok ((k, x) :: ks)
  end.

(** [sorted(l, key=order, reverse=True)]: descending keys, equal keys
    in their original order *)
Fixpoint insert_desc (x : Q * Molecule.t) (l : list (Q * Molecule.t))
    : list (Q * Molecule.t) :=
  match l with
  | [] => [x]
  | y :: l' =>
      if Qle_bool (fst x) (fst y) then y :: insert_desc x l'
      else x :: l
  end.

Definition sorted_reverse (l : list Molecule.t) : result (list Molecule.t) :=
  ks ← keyed l;
  Ok (List.map snd (fold_left (fun acc x => insert_desc x acc) ks [])).

(** the loop of [symmetry_unique_molecules] *)
Fixpoint select_molecules (mols : list Molecule.t) (asym_atoms : list bool)
    (molecules : list Molecule.t) : result (list Molecule.t) :=
  match mols with
  | [] => Ok molecules
  | mol :: mols =>
      let asym_atoms_in_g := np_unique (Molecule.asymmetric_unit_atoms mol) in
      covered ← fancy_get asym_atoms asym_atoms_in_g;
      if forallb id covered then select_molecules mols asym_atoms molecules
      else
        let asym_atoms := fancy_set asym_atoms asym_atoms_in_g true in
        let molecules := molecules ++ [mol] in
        if forallb id asym_atoms then Ok molecules
        else select_molecules mols asym_atoms molecules
  end.

Section Collaborators.

(** [KDTree(points).sparse_distance_matrix(tree, max_distance)
    .items()]: the index pairs of points no further apart than
    [max_distance], each with its distance *)
Variable sparse_distance_matrix : list vec → Q → list (nat * nat * Q).

(** [self.unit_cell_molecules()], which goes through scipy's graph
    routines *)
Variable unit_cell_molecules : t → list Molecule.t.

(** the first (uncached) call *)
Definition unit_cell_atoms (self : t) (tolerance : Q)
    : result unit_cell_atom_dict :=
  let pos := site_positions self in
  let atoms := site_atoms self in
  let natom := nsites self in
  let nsymops :=
    length (SpaceGroup.symmetry_operations (space_group self)) in
  let occupation :=
    np_tile (default (replicate natom 1%Q)
               (AsymmetricUnit.occupation (asymmetric_unit self)))
            nsymops in
  let labels :=
    np_tile (AsymmetricUnit.labels (asymmetric_unit self)) nsymops in
  let uc_nums := np_tile atoms nsymops in
  let asym := List.map (fun i => i mod natom)%nat (seq 0 (length uc_nums)) in
  '(sym, uc_pos) ← SpaceGroup.apply_all_symops (space_group self) pos;
  let translated := List.map (amap (fun x => np.fmod1 (x + 7))%Q) uc_pos in
  let dist := sparse_distance_matrix translated tolerance in
  let mask := replicate (length uc_pos) true in
  '(occupation, mask) ← merge_sites dist occupation mask;
  occupation ← mask_index occupation mask;
  asym_atom ← mask_index asym mask;
  frac_pos ← mask_index translated mask;
  element ← mask_index uc_nums mask;
  symop ← mask_index sym mask;
  label ← mask_index labels mask;
  Ok (AtomDict asym_atom frac_pos element symop label occupation
        (to_cartesian self frac_pos)).

(** the first (uncached) call *)
Definition symmetry_unique_molecules (self : t)
    : result (list Molecule.t) :=
  let uc_molecules := unit_cell_molecules self in
  let asym_atoms :=
    replicate (AsymmetricUnit.len (asymmetric_unit self)) false in
  mols ← sorted_reverse uc_molecules;
  select_molecules mols asym_atoms [].

End Collaborators.

(** the bound methods the extension maps of [load] and [save] hold *)
Inductive handler : Type :=
| from_cif_file | from_shelx_file | to_cif_file | to_shelx_file.

(** [load] and [save] end in [extension_map[extension](filename)]:
    the model returns the handler that is called together with its
    argument, or the [KeyError] of the failed dictionary lookup *)
Definition load (filename : string) : result (handler * string) :=
  let extension_map : gmap string handler :=
    {[ ".cif" := from_cif_file; ".res" := from_shelx_file ]}%string in
  let extension := os_path.lower (snd (os_path.splitext filename)) in
  match extension_map !! extension with
  | Some h => Ok (h, filename)
  | None => Raise (KeyError_str extension)
  end.

Definition save (filename : string) : result (handler * string) :=
  let extension_map : gmap string handler :=
    {[ ".cif" := to_cif_file; ".res" := to_shelx_file ]}%string in
  let extension := os_path.lower (snd (os_path.splitext filename)) in
  match extension_map !! extension with
  | Some h => Ok (h, filename)
  | None => Raise (KeyError_str extension)
  end.

End Crystal.

(** ** scipy.spatial *)

Module scipy.

Definition sqdist (p q : vec) : Q :=
  ((at0 p - at0 q) * (at0 p - at0 q) + (at1 p - at1 q) * (at1 p - at1 q)
   + (at2 p - at2 q) * (at2 p - at2 q))%Q.

(** An exact reading of [sparse_distance_matrix] used to run the
    model: every index pair, a point with itself included, whose
    points are at most [max_distance] apart, in row-major order.  The
    stored value is the squared distance; no caller reads it. *)
Definition sparse_distance_matrix (points : list vec) (max_distance : Q)
    : list (nat * nat * Q) :=
  let indexed := imap (fun i p => (i, p)) points in
  flat_map (fun ip =>
    omap (fun jq =>
            let d2 := sqdist (snd ip) (snd jq) in
            if Qle_bool d2 (max_distance * max_distance)
            then Some (fst ip, fst jq, d2) else None)
         indexed)
    indexed.

End scipy.

(** ** element.py

    Strings are ASCII text. *)

(** [t[i]] on a tuple: a negative index counts from the end *)
Definition py_index {A} (l : list A) (i : Z) : result A :=
  let i := if i <? 0 then i + Z.of_nat (length l) else i in
  if i <? 0 then Raise IndexError
  else match l !! Z.to_nat i with
       | Some x => Ok x
       | None => Raise IndexError
       end.

Module str.

(** the ASCII characters [str.isspace] accepts *)
Definition isspace (x : ascii) : bool :=
  let n := nat_of_ascii x in
  ((9 <=? n) && (n <=? 13) || (28 <=? n) && (n <=? 32))%nat.

Fixpoint lstrip (s : string) : string :=
  match s with
  | EmptyString => EmptyString
  | String x s' => if isspace x then lstrip s' else s
  end.

Fixpoint rstrip (s : string) : string :=
  match s with
  | EmptyString => EmptyString
  | String x s' =>
      match rstrip s' with
      | EmptyString => if isspace x then EmptyString else String x EmptyString
      | r => String x r
      end
  end.

Definition strip (s : string) : string := rstrip (lstrip s).

Definition upper_ascii (x : ascii) : ascii :=
  let n := nat_of_ascii x in
  if ((97 <=? n) && (n <=? 122))%nat then ascii_of_nat (n - 32) else x.

Definition capitalize (s : string) : string :=
  match s with
  | EmptyString => EmptyString
  | String x s' => String (upper_ascii x) (os_path.lower s')
  end.

Definition is_digit (x : ascii) : bool :=
  let n := nat_of_ascii x in ((48 <=? n) && (n <=? 57))%nat.

Fixpoint all_digits (s : string) : bool :=
  match s with
  | EmptyString => true
  | String x s' => is_digit x && all_digits s'
  end.

(** [str.isdigit]: at least one character, and digits only *)
Definition isdigit (s : string) : bool :=
  match s with
  | EmptyString => false
  | _ => all_digits s
  end.

(** [int(s)] of a string of digits *)
Fixpoint int_from (acc : Z) (s : string) : Z :=
  match s with
  | EmptyString => acc
  | String x s' => int_from (10 * acc + Z.of_nat (nat_of_ascii x - 48)) s'
  end.

Definition int (s : string) : Z := int_from 0 s.

End str.

(** name, symbol, covalent radius, van der Waals radius, mass *)
Definition _ELEMENT_DATA : list (string * string * Q * Q * Q) :=
  [
    ("hydrogen", "H", (23 # 100), (109 # 100), (100794 # 100000));
    ("helium", "He", (150 # 100), (140 # 100), (4002602 # 1000000));
    ("lithium", "Li", (128 # 100), (182 # 100), (6941 # 1000));
    ("beryllium", "Be", (96 # 100), (200 # 100), (9012182 # 1000000));
    ("boron", "B", (83 # 100), (200 # 100), (10811 # 1000));
    ("carbon", "C", (68 # 100), (170 # 100), (120107 # 10000));
    ("nitrogen", "N", (68 # 100), (155 # 100), (140067 # 10000));
    ("oxygen", "O", (68 # 100), (152 # 100), (159994 # 10000));
    ("fluorine", "F", (64 # 100), (147 # 100), (18998403 # 1000000));
    ("neon", "Ne", (150 # 100), (154 # 100), (201797 # 10000));
    ("sodium", "Na", (166 # 100), (227 # 100), (2298977 # 100000));
    ("magnesium", "Mg", (141 # 100), (173 # 100), (24305 # 1000));
    ("aluminium", "Al", (121 # 100), (200 # 100), (26981538 # 1000000));
    ("silicon", "Si", (120 # 100), (210 # 100), (280855 # 10000));
    ("phosphorus", "P", (105 # 100), (180 # 100), (30973761 # 1000000));
    ("sulfur", "S", (102 # 100), (180 # 100), (32065 # 1000));
    ("chlorine", "Cl", (99 # 100), (175 # 100), (35453 # 1000));
    ("argon", "Ar", (151 # 100), (188 # 100), (39948 # 1000));
    ("potassium", "K", (203 # 100), (275 # 100), (390983 # 10000));
    ("calcium", "Ca", (176 # 100), (200 # 100), (40078 # 1000));
    ("scandium", "Sc", (170 # 100), (200 # 100), (4495591 # 100000));
    ("titanium", "Ti", (160 # 100), (200 # 100), (47867 # 1000));
    ("vanadium", "V", (153 # 100), (200 # 100), (509415 # 10000));
    ("chromium", "Cr", (139 # 100), (200 # 100), (519961 # 10000));
    ("manganese", "Mn", (161 # 100), (200 # 100), (54938049 # 1000000));
    ("iron", "Fe", (152 # 100), (200 # 100), (55845 # 1000));
    ("cobalt", "Co", (126 # 100), (200 # 100), (589332 # 10000));
    ("nickel", "Ni", (124 # 100), (163 # 100), (586934 # 10000));
    ("copper", "Cu", (132 # 100), (140 # 100), (63546 # 1000));
    ("zinc", "Zn", (122 # 100), (139 # 100), (65409 # 1000));
    ("gallium", "Ga", (122 # 100), (187 # 100), (69723 # 1000));
    ("germanium", "Ge", (117 # 100), (200 # 100), (7264 # 100));
    ("arsenic", "As", (121 # 100), (185 # 100), (749216 # 10000));
    ("selenium", "Se", (122 # 100), (190 # 100), (7896 # 100));
    ("bromine", "Br", (121 # 100), (185 # 100), (79904 # 1000));
    ("krypton", "Kr", (150 # 100), (202 # 100), (83798 # 1000));
    ("rubidium", "Rb", (220 # 100), (200 # 100), (854678 # 10000));
    ("strontium", "Sr", (195 # 100), (200 # 100), (8762 # 100));
    ("yttrium", "Y", (190 # 100), (200 # 100), (8890585 # 100000));
    ("zirconium", "Zr", (175 # 100), (200 # 100), (91224 # 1000));
    ("niobium", "Nb", (164 # 100), (200 # 100), (9290638 # 100000));
    ("molybdenum", "Mo", (154 # 100), (200 # 100), (9594 # 100));
    ("technetium", "Tc", (147 # 100), (200 # 100), (980 # 10));
    ("ruthenium", "Ru", (146 # 100), (200 # 100), (10107 # 100));
    ("rhodium", "Rh", (145 # 100), (200 # 100), (1029055 # 10000));
    ("palladium", "Pd", (139 # 100), (163 # 100), (10642 # 100));
    ("silver", "Ag", (145 # 100), (172 # 100), (1078682 # 10000));
    ("cadmium", "Cd", (144 # 100), (158 # 100), (112411 # 1000));
    ("indium", "In", (142 # 100), (193 # 100), (114818 # 1000));
    ("tin", "Sn", (139 # 100), (217 # 100), (11871 # 100));
    ("antimony", "Sb", (139 # 100), (200 # 100), (12176 # 100));
    ("tellurium", "Te", (147 # 100), (206 # 100), (1276 # 10));
    ("iodine", "I", (140 # 100), (198 # 100), (12690447 # 100000));
    ("xenon", "Xe", (150 # 100), (216 # 100), (131293 # 1000));
    ("caesium", "Cs", (244 # 100), (200 # 100), (13290545 # 100000));
    ("barium", "Ba", (215 # 100), (200 # 100), (137327 # 1000));
    ("lanthanum", "La", (207 # 100), (200 # 100), (1389055 # 10000));
    ("cerium", "Ce", (204 # 100), (200 # 100), (140116 # 1000));
    ("praseodymium", "Pr", (203 # 100), (200 # 100), (14090765 # 100000));
    ("neodymium", "Nd", (201 # 100), (200 # 100), (14424 # 100));
    ("promethium", "Pm", (199 # 100), (200 # 100), (1450 # 10));
    ("samarium", "Sm", (198 # 100), (200 # 100), (15036 # 100));
    ("europium", "Eu", (198 # 100), (200 # 100), (151964 # 1000));
    ("gadolinium", "Gd", (196 # 100), (200 # 100), (15725 # 100));
    ("terbium", "Tb", (194 # 100), (200 # 100), (15892534 # 100000));
    ("dysprosium", "Dy", (192 # 100), (200 # 100), (1625 # 10));
    ("holmium", "Ho", (192 # 100), (200 # 100), (16493032 # 100000));
    ("erbium", "Er", (189 # 100), (200 # 100), (167259 # 1000));
    ("thulium", "Tm", (190 # 100), (200 # 100), (16893421 # 100000));
    ("Ytterbium", "Yb", (187 # 100), (200 # 100), (17304 # 100));
    ("lutetium", "Lu", (187 # 100), (200 # 100), (174967 # 1000));
    ("hafnium", "Hf", (175 # 100), (200 # 100), (17849 # 100));
    ("tantalum", "Ta", (170 # 100), (200 # 100), (1809479 # 10000));
    ("tungsten", "W", (162 # 100), (200 # 100), (18384 # 100));
    ("rhenium", "Re", (151 # 100), (200 # 100), (186207 # 1000));
    ("osmium", "Os", (144 # 100), (200 # 100), (19023 # 100));
    ("iridium", "Ir", (141 # 100), (200 # 100), (192217 # 1000));
    ("platinum", "Pt", (136 # 100), (172 # 100), (195078 # 1000));
    ("gold", "Au", (150 # 100), (166 # 100), (19696655 # 100000));
    ("mercury", "Hg", (132 # 100), (155 # 100), (20059 # 100));
    ("thallium", "Tl", (145 # 100), (196 # 100), (2043833 # 10000));
    ("lead", "Pb", (146 # 100), (202 # 100), (2072 # 10));
    ("bismuth", "Bi", (148 # 100), (200 # 100), (20898038 # 100000));
    ("polonium", "Po", (140 # 100), (200 # 100), (2900 # 10));
    ("astatine", "At", (121 # 100), (200 # 100), (2100 # 10));
    ("radon", "Rn", (150 # 100), (200 # 100), (2220 # 10));
    ("francium", "Fr", (260 # 100), (200 # 100), (2230 # 10));
    ("radium", "Ra", (221 # 100), (200 # 100), (2260 # 10));
    ("actinium", "Ac", (215 # 100), (200 # 100), (2270 # 10));
    ("thorium", "Th", (206 # 100), (200 # 100), (2320381 # 10000));
    ("protactinium", "Pa", (200 # 100), (200 # 100), (23103588 # 100000));
    ("uranium", "U", (196 # 100), (186 # 100), (23802891 # 100000));
    ("neptunium", "Np", (190 # 100), (200 # 100), (2370 # 10));
    ("plutonium", "Pu", (187 # 100), (200 # 100), (2440 # 10));
    ("americium", "Am", (180 # 100), (200 # 100), (2430 # 10));
    ("curium", "Cm", (169 # 100), (200 # 100), (2470 # 10));
    ("berkelium", "Bk", (154 # 100), (200 # 100), (2470 # 10));
    ("californium", "Cf", (183 # 100), (200 # 100), (2510 # 10));
    ("einsteinium", "Es", (150 # 100), (200 # 100), (2520 # 10));
    ("fermium", "Fm", (150 # 100), (200 # 100), (2570 # 10));
    ("mendelevium", "Md", (150 # 100), (200 # 100), (2580 # 10));
    ("nobelium", "No", (150 # 100), (200 # 100), (2590 # 10));
    ("lawrencium", "Lr", (150 # 100), (200 # 100), (2620 # 10))
  ]%Q.

(** [enumerate(l, start=1)] *)
Definition enumerate1 {A} (l : list A) : list (Z * A) :=
  imap (fun i x => (Z.of_nat i + 1, x)) l.

(** a dictionary comprehension: a later item replaces an earlier one
    with the same key *)
Definition dict_of {V} (items : list (string * V)) : gmap string V :=
  fold_left (fun d kv => <[fst kv := snd kv]> d) items ∅.

Definition _EL_FROM_SYM : gmap string (Z * string * string * Q * Q * Q) :=
  dict_of (List.map (fun '(i, (n, s, rcov, rvdw, m)) =>
                       (s, (i, n, s, rcov, rvdw, m)))
             (enumerate1 _ELEMENT_DATA)).

Definition _EL_FROM_NAME : gmap string (Z * string * string * Q * Q * Q) :=
  dict_of (List.map (fun '(i, (n, s, rcov, rvdw, m)) =>
                       (n, (i, n, s, rcov, rvdw, m)))
             (enumerate1 _ELEMENT_DATA)).

Module Element.

Record t : Type := Make {
  atomic_number : Z;
  name : string;
  symbol : string;
  cov : Q;
  vdw : Q;
  mass : Q
}.

(** the constructor applied to the fields of a dictionary value *)
Definition of_tuple (x : Z * string * string * Q * Q * Q) : t :=
  let '(atomic_number, name, symbol, cov, vdw, mass) := x in
  Make atomic_number name symbol cov vdw mass.

Definition from_atomic_number (n : Z) : result t :=
  '(name, symbol, cov, vdw, mass) ← py_index _ELEMENT_DATA (n - 1);
  Ok (Make n name symbol cov vdw mass).

Definition is_letter (x : ascii) : bool :=
  let n := nat_of_ascii x in
  ((65 <=? n) && (n <=? 90) || (97 <=? n) && (n <=? 122))%nat.

(** group 1 of [re.match("([A-Z]+).*", l, re.IGNORECASE)]: the letters
    the string begins with *)
Fixpoint leading_letters (l : string) : string :=
  match l with
  | EmptyString => EmptyString
  | String x l' =>
      if is_letter x then String x (leading_letters l') else EmptyString
  end.

Definition from_label (l : string) : result t :=
  match leading_letters l with
  | EmptyString => Raise ValueError
  | group1 =>
      let sym := str.capitalize (str.strip group1) in
      match _EL_FROM_SYM !! sym with
      | None => Raise ValueError
      | Some x => Ok (of_tuple x)
      end
  end.

Definition from_string (s : string) : result t :=
  let symbol := str.capitalize (str.strip s) in
  let symbol := if String.eqb symbol "D" then "H"%string else symbol in
  if str.isdigit symbol then from_atomic_number (str.int symbol)
  else
    match _EL_FROM_SYM !! symbol with
    | None =>
        let name := os_path.lower symbol in
        match _EL_FROM_NAME !! name with
        | None => from_label s
        | Some x => Ok (of_tuple x)
        end
    | Some x => Ok (of_tuple x)
    end.

Definition hash (self : t) : Z := atomic_number self.

Definition eq (self other : t) : bool :=
  atomic_number self =? atomic_number other.

Definition lt (self other : t) : bool :=
  let '(n1, n2) := (atomic_number self, atomic_number other) in
  if n1 =? n2 then false
  else if n1 =? 6 then true
  else if n2 =? 6 then false
  else n1 <? n2.

(** the comparisons [functools.total_ordering] derives from [__lt__]
    and [__eq__] *)
Definition le (self other : t) : bool := lt self other || eq self other.

Definition gt (self other : t) : bool :=
  negb (lt self other) && negb (eq self other).

Definition ge (self other : t) : bool := negb (lt self other).

End Element.

(** decidable equality of the values the element functions return *)
#[global] Instance exn_eq_dec : EqDecision exn.
Proof. solve_decision. Defined.

#[global] Instance result_eq_dec {A} `{EqDecision A} : EqDecision (result A).
Proof. solve_decision. Defined.

#[global] Instance Q_eq_dec : EqDecision Q.
Proof. solve_decision. Defined.

#[global] Instance Element_eq_dec : EqDecision Element.t.
Proof. solve_decision. Defined.

(** the element that the row of index [i] of the table describes *)
Definition element_of_row (i : nat) (row : string * string * Q * Q * Q)
    : Element.t :=
  let '(name, symbol, cov, vdw, mass) := row in
  Element.Make (Z.of_nat i + 1) name symbol cov vdw mass.

(** what [from_string] is to find for the row of index [i] *)
Definition found_by_string (i : nat) (row : string * string * Q * Q * Q)
    : Prop :=
  let element := element_of_row i row in
  Element.from_atomic_number (Z.of_nat i + 1) = Ok element
  ∧ Element.from_string (Element.symbol element) = Ok element
  ∧ Element.from_string (os_path.lower (Element.symbol element)) = Ok element
  ∧ Element.from_string (pretty (Z.of_nat i + 1)) = Ok element
  ∧ Element.from_string (os_path.lower (Element.name element))
    = (if bool_decide (i = 69%nat) then Raise ValueError else Ok element)
  ∧ Element.from_string (Element.name element)
    = (if bool_decide (i = 69%nat) then Raise ValueError else Ok element).

#[global] Instance found_by_string_dec i row : Decision (found_by_string i row).
Proof. unfold found_by_string. apply _. Defined.

(** ** The inputs the properties range over *)

Definition identity_rotation : mat :=
  (Arr3 (Arr3 1 0 0) (Arr3 0 1 0) (Arr3 0 0 1))%Q.

Definition zero_translation : vec := Arr3 0%Q 0%Q 0%Q.

(** a rotation entry is one of -1, 0, 1 *)
Definition is_rotation_entry (q : Q) : bool :=
  Qeq_bool q (-1) || Qeq_bool q 0 || Qeq_bool q 1.

Definition valid_rotation (m : mat) : bool :=
  let row v :=
    is_rotation_entry (at0 v) && is_rotation_entry (at1 v)
    && is_rotation_entry (at2 v) in
  row (at0 m) && row (at1 m) && row (at2 m).

(** the numerators of the crystallographic translations, and all
    twelfths of the unit interval *)
Definition crystallographic_numerators : list Z := [0; 2; 3; 4; 6; 8; 9; 10].
Definition duodecimal_numerators : list Z :=
  [0; 1; 2; 3; 4; 5; 6; 7; 8; 9; 10; 11].

Definition is_twelfth (numerators : list Z) (q : Q) : bool :=
  existsb (fun k => Qeq_bool q (inject_Z k / 12)) numerators.

Definition valid_translation (numerators : list Z) (v : vec) : bool :=
  is_twelfth numerators (at0 v) && is_twelfth numerators (at1 v)
  && is_twelfth numerators (at2 v).

(** how an operation can have been made: by the constructor (no cached
    code yet) or by [from_integer_code] *)
Definition constructed (s : SymmetryOperation.t) : Prop :=
  SymmetryOperation._integer_code s = None
  ∨ ∃ code, s = SymmetryOperation.from_integer_code code.

(** the set of canonical encodings of a list of operations *)
Definition encodings (l : list SymmetryOperation.t) : gset Z :=
  list_to_set (List.map SymmetryOperation.integer_code l).


(** an operation the encoding is meant for: rotation entries -1, 0, 1,
    translation components twelfths of the unit interval, and a cached
    code, where there is one, that is the encoding *)
Definition valid_operation (s : SymmetryOperation.t) : bool :=
  valid_rotation (SymmetryOperation.rotation s)
  && valid_translation duodecimal_numerators (SymmetryOperation.translation s)
  && match SymmetryOperation._integer_code s with
     | None => true
     | Some code =>
         code =? encode_symm_int (SymmetryOperation.rotation s)
                   (SymmetryOperation.translation s)
     end.

(** the same rotation and translation as floats *)
Definition same_operation (x y : SymmetryOperation.t) : Prop :=
  mat_eq (SymmetryOperation.rotation x) (SymmetryOperation.rotation y)
  ∧ vec_eq (SymmetryOperation.translation x) (SymmetryOperation.translation y).

(** two rationals that differ by an integer *)
Definition congruent_mod1 (a b : Q) : Prop :=
  ∃ n : Z, (a == b + inject_Z n)%Q.

(** a list of operations that, by integer code, holds with every
    operation the operation moved by each centring translation of the
    lattice type and, when [latt] is positive, its [inverted]: the
    condition under which expansion gives nothing the list does not
    hold.  A centrosymmetric setting whose inversion centre is not at
    the origin does not meet it. *)
Definition closed_under_lattice (full_symops : list SymmetryOperation.t)
    (latt : Z) : bool :=
  match LATTICE_TYPE_TRANSLATIONS (Z.abs latt) with
  | None => false
  | Some translations =>
      forallb (fun x =>
        forallb (fun t =>
                   SymmetryOperation.contains (SymmetryOperation.add x t)
                     full_symops) translations
        && (if 0 <? latt
            then SymmetryOperation.contains (SymmetryOperation.inverted x)
                   full_symops
            else true))
        full_symops
  end.

(** what makes the loop of [reduced_symmetry_list] pass over a
    candidate [x]: [x], or with inversion its inverse, is in the reduced
    list already, or one of its centring copies or, with inversion, the
    inverse of one is *)
Definition reachable (translations : list vec) (inversion : bool)
    (reduced_symops : list SymmetryOperation.t) (x : SymmetryOperation.t)
    : Prop :=
  SymmetryOperation.contains x reduced_symops = true
  ∨ (inversion = true
     ∧ SymmetryOperation.contains (SymmetryOperation.inverted x) reduced_symops
       = true)
  ∨ ∃ t, t ∈ translations
         ∧ ((inversion = true
             ∧ SymmetryOperation.contains
                 (SymmetryOperation.inverted (SymmetryOperation.add x t))
                 reduced_symops = true)
            ∨ SymmetryOperation.contains (SymmetryOperation.add x t)
                reduced_symops = true).

(** the list [expanded_symmetry_list] builds from a reduced list that
    holds the identity *)
Definition expansion (translations : list vec) (inversion : bool)
    (reduced_symops : list SymmetryOperation.t) : list SymmetryOperation.t :=
  let full_symops :=
    flat_map (fun symop =>
                symop :: List.map (SymmetryOperation.add symop) translations)
             reduced_symops in
  if inversion
  then full_symops ++ List.map SymmetryOperation.inverted full_symops
  else full_symops.

(** a valid operation that is, as floats, one of the list *)
Definition represented (full_symops : list SymmetryOperation.t)
    (y : SymmetryOperation.t) : Prop :=
  valid_operation y = true ∧ ∃ x, x ∈ full_symops ∧ same_operation y x.

(** ** Worked inputs *)

Definition cubic_cell : UnitCell.t :=
  UnitCell.Make (Arr3 (Arr3 5 0 0) (Arr3 0 5 0) (Arr3 0 0 5))%Q
    (Arr3 5 5 5)%Q (Arr3 (np.pi / 2) (np.pi / 2) (np.pi / 2))%Q.

(** space group P-1: the identity and the inversion *)
Definition P1bar : SpaceGroup.t :=
  SpaceGroup.Make 2 "" "primitive" true
    (List.map SymmetryOperation.from_integer_code [3198; 16484]).

(** space group P1: the identity alone *)
Definition P1 : SpaceGroup.t :=
  SpaceGroup.Make 1 "" "primitive" false
    [SymmetryOperation.from_integer_code 16484].

(** one carbon site at (1/4, 1/4, 1/4) in P-1 *)
Definition crystal_general_position : Crystal.t :=
  Crystal.Make cubic_cell P1bar
    (AsymmetricUnit.Make [6] [Arr3 (1 # 4) (1 # 4) (1 # 4)]%Q ["C1"%string]
       None).

(** one carbon site at (-15/2, 0, 0) in P1 *)
Definition crystal_far_site : Crystal.t :=
  Crystal.Make cubic_cell P1
    (AsymmetricUnit.Make [6] [Arr3 (- (15 # 2)) 0 0]%Q ["C1"%string] None).

(** one carbon site at (1/10, 0, 0) in P-1: the site and its inverse
    image, one angstrom apart across the cell face, are bonded into the
    one molecule of the unit cell *)
Definition crystal_on_inversion_centre : Crystal.t :=
  Crystal.Make cubic_cell P1bar
    (AsymmetricUnit.Make [6] [Arr3 (1 # 10) 0 0]%Q ["C1"%string] None).

Definition dimer_on_inversion_centre : Molecule.t :=
  Molecule.Make [6; 6] [0; 0]%nat [16484; 3198].

(** space group I-1 in a body-centred setting: the identity, the
    inversion, and both moved by (1/2, 1/2, 1/2) *)
Definition I1bar : SpaceGroup.t :=
  SpaceGroup.Make 2 "" "body" true
    (List.map SymmetryOperation.from_integer_code
       [3198; 16484; 18544584; 18557870]).

(** space group P4/n (number 85) in origin choice 1, the origin on the
    fourfold rotoinversion axis: x,y,z; -x,-y,z; -y+1/2,x+1/2,z;
    y+1/2,-x+1/2,z; -x+1/2,-y+1/2,-z; x+1/2,y+1/2,-z; y,-x,-z;
    -y,x,-z, in ascending order of their codes.  The inversion centre
    is at (1/4, 1/4, 0). *)
Definition P4n_origin_choice_1 : SpaceGroup.t :=
  SpaceGroup.Make 85 "1" "primitive" true
    (List.map SymmetryOperation.from_integer_code
       [3200; 7896; 11784; 16484; 18426486; 18431186; 18435074; 18439770]).

(** ** Vocabulary of the further properties *)

(** every component reduced modulo 1 *)
Definition in_unit_interval (v : vec) : Prop :=
  ((0 <= at0 v)%Q ∧ (at0 v < 1)%Q) ∧ ((0 <= at1 v)%Q ∧ (at1 v < 1)%Q)
  ∧ ((0 <= at2 v)%Q ∧ (at2 v < 1)%Q).

(** * Properties *)

(** ** Integer and rational arithmetic of the numpy operations *)

(** replace a rational by one equal to it as a fraction *)
Tactic Notation "qreplace" constr(a) "with" constr(b) "by" tactic3(tac) :=
  let E := fresh "E" in
  assert (E : (a == b)%Q) by tac; rewrite E; clear E.

Lemma wrap64_small (z : Z) :
  - 2 ^ 63 <= z < 2 ^ 63 → np.wrap64 z = z.
Proof.
  intros Hz. unfold np.wrap64.
  rewrite Z.mod_small by lia. lia.
Qed.

Lemma round_inject_Z (k : Z) : np.round (inject_Z k) = k.
Proof.
  unfold np.round. rewrite Qfloor_Z.
  assert (H : (inject_Z k - inject_Z k ?= 1 # 2)%Q = Lt).
  { rewrite <- Qlt_alt. qreplace (inject_Z k - inject_Z k)%Q with 0%Q by ring.
    reflexivity. }
  now rewrite H.
Qed.

#[global] Instance round_proper : Proper (Qeq ==> Logic.eq) np.round.
Proof.
  intros q q' Hq. unfold np.round.
  rewrite (Qfloor_comp _ _ Hq).
  assert (H : (q - inject_Z (Qfloor q') ?= 1 # 2)%Q
              = (q' - inject_Z (Qfloor q') ?= 1 # 2)%Q).
  { apply Qcompare_comp; [now rewrite Hq | reflexivity]. }
  now rewrite H.
Qed.

Lemma Qfloor_add_int (q : Q) (n : Z) :
  Qfloor (q + inject_Z n) = Qfloor q + n.
Proof.
  apply Z.le_antisymm.
  - assert (H : Qfloor (q + inject_Z n) - n <= Qfloor q).
    { rewrite <- (Qfloor_Z (Qfloor (q + inject_Z n) - n)).
      apply Qfloor_resp_le. unfold Z.sub.
      rewrite inject_Z_plus, inject_Z_opp.
      pose proof (Qfloor_le (q + inject_Z n)) as H.
      apply Qplus_le_l with (z := inject_Z n).
      qreplace (inject_Z (Qfloor (q + inject_Z n)) + - inject_Z n + inject_Z n)%Q
        with (inject_Z (Qfloor (q + inject_Z n))) by ring.
      exact H. }
    lia.
  - rewrite <- (Qfloor_Z (Qfloor q + n)).
    apply Qfloor_resp_le. rewrite inject_Z_plus.
    apply Qplus_le_l. apply Qfloor_le.
Qed.

#[global] Instance mod1_proper : Proper (Qeq ==> Qeq) np.mod1.
Proof.
  intros q q' Hq. unfold np.mod1. now rewrite (Qfloor_comp _ _ Hq), Hq.
Qed.

Lemma mod1_add_int (q : Q) (n : Z) : (np.mod1 (q + inject_Z n) == np.mod1 q)%Q.
Proof.
  unfold np.mod1. rewrite Qfloor_add_int, inject_Z_plus. ring.
Qed.

Lemma mod1_small (q : Q) : (0 <= q)%Q → (q < 1)%Q → (np.mod1 q == q)%Q.
Proof.
  intros H0 H1. unfold np.mod1.
  assert (Hf : Qfloor q = 0).
  { apply Z.le_antisymm.
    - assert (Qfloor q < 1); [|lia].
      rewrite Zlt_Qlt. eapply Qle_lt_trans; [apply Qfloor_le | exact H1].
    - change 0 with (Qfloor 0). now apply Qfloor_resp_le. }
  rewrite Hf. ring.
Qed.

Lemma mod1_mod1_add (a b : Q) : (np.mod1 (np.mod1 a + b) == np.mod1 (a + b))%Q.
Proof.
  unfold np.mod1 at 2.
  qreplace (a - inject_Z (Qfloor a) + b)%Q
    with (a + b + inject_Z (- Qfloor a))%Q by (rewrite inject_Z_opp; ring).
  apply mod1_add_int.
Qed.

Lemma mod1_range (q : Q) : (0 <= np.mod1 q)%Q ∧ (np.mod1 q < 1)%Q.
Proof.
  unfold np.mod1. split.
  - unfold Qminus. apply -> Qle_minus_iff. apply Qfloor_le.
  - pose proof (Qlt_floor q) as H. rewrite inject_Z_plus in H.
    apply Qplus_lt_l with (z := inject_Z (Qfloor q)).
    qreplace (q - inject_Z (Qfloor q) + inject_Z (Qfloor q))%Q with q by ring.
    now rewrite Qplus_comm.
Qed.

(** ** The packed integer of a valid operation *)

Lemma rotation_entry_round (q : Q) :
  is_rotation_entry q = true →
  -1 <= np.round q <= 1 ∧ (q == inject_Z (np.round q))%Q.
Proof.
  unfold is_rotation_entry. rewrite !orb_true_iff, !Qeq_bool_iff.
  intros [[H | H] | H]; rewrite H; vm_compute; intuition discriminate.
Qed.

Lemma twelfth_round (ns : list Z) (q : Q) :
  is_twelfth ns q = true →
  np.round (q * 12) ∈ ns ∧ (q == inject_Z (np.round (q * 12)) / 12)%Q.
Proof.
  unfold is_twelfth. rewrite existsb_exists.
  intros (k & Hk & Hq). apply Qeq_bool_iff in Hq.
  assert (Hr : np.round (q * 12) = k).
  { transitivity (np.round (inject_Z k)); [|apply round_inject_Z].
    apply round_proper. rewrite Hq. field. }
  rewrite Hr. split; [now apply list_elem_of_In | exact Hq].
Qed.

Lemma is_twelfth_mono (ns ns' : list Z) (q : Q) :
  ns ⊆ ns' → is_twelfth ns q = true → is_twelfth ns' q = true.
Proof.
  unfold is_twelfth. rewrite !existsb_exists.
  intros Hsub (k & Hk & Hq). exists k. split; [|exact Hq].
  apply list_elem_of_In, Hsub, list_elem_of_In, Hk.
Qed.

Lemma duodecimal_bounds (k : Z) : k ∈ duodecimal_numerators → 0 <= k < 12.
Proof.
  unfold duodecimal_numerators. rewrite !elem_of_cons, elem_of_nil. lia.
Qed.

Lemma crystallographic_duodecimal :
  crystallographic_numerators ⊆ duodecimal_numerators.
Proof.
  intros k. unfold crystallographic_numerators, duodecimal_numerators.
  rewrite !elem_of_cons, !elem_of_nil. lia.
Qed.

Lemma astype_int_small (z : Z) :
  - 2 ^ 63 <= z < 2 ^ 63 → np.astype_int z = z.
Proof.
  intros Hz. unfold np.astype_int.
  destruct (Z.leb_spec (- 2 ^ 63) z); [|lia].
  destruct (Z.ltb_spec z (2 ^ 63)); [reflexivity | lia].
Qed.

(** rewrite every cast and every [wrap64] whose argument is seen to be
    in range, innermost first *)
Ltac unwrap64 :=
  repeat match goal with
         | |- context [np.astype_int ?z] => rewrite (astype_int_small z) by lia
         | |- context [np.wrap64 ?z] => rewrite (wrap64_small z) by lia
         end.

Lemma encode_valid (m : mat) (v : vec) :
  valid_rotation m = true →
  valid_translation duodecimal_numerators v = true →
  encode_symm_int m v
  = (np.round (get2 m A0 A0) + 1) * 6561 + (np.round (get2 m A0 A1) + 1) * 2187
    + (np.round (get2 m A0 A2) + 1) * 729 + (np.round (get2 m A1 A0) + 1) * 243
    + (np.round (get2 m A1 A1) + 1) * 81 + (np.round (get2 m A1 A2) + 1) * 27
    + (np.round (get2 m A2 A0) + 1) * 9 + (np.round (get2 m A2 A1) + 1) * 3
    + (np.round (get2 m A2 A2) + 1)
    + (np.round (at0 v * 12) * 144 + np.round (at1 v * 12) * 12
       + np.round (at2 v * 12)) * 19683.
Proof.
  destruct m as [[m00 m01 m02] [m10 m11 m12] [m20 m21 m22]].
  destruct v as [v0 v1 v2].
  unfold valid_rotation, valid_translation. cbn [at0 at1 at2].
  rewrite !andb_true_iff.
  intros [[[[R00 R01] R02] [[R10 R11] R12]] [[R20 R21] R22]] [[T0 T1] T2].
  apply rotation_entry_round in R00, R01, R02, R10, R11, R12, R20, R21, R22.
  apply twelfth_round in T0, T1, T2.
  destruct T0 as [T0 _], T1 as [T1 _], T2 as [T2 _].
  apply duodecimal_bounds in T0, T1, T2.
  unfold encode_symm_int, get2.
  cbn [fold_left amap aget at0 at1 at2].
  unwrap64. lia.
Qed.

Lemma decode_unfold (n : Z) :
  decode_symm_int n
  = let r := n mod 19683 in
    let t := n / 19683 in
    (Arr3 (Arr3 (inject_Z (r mod 19683 / 6561 - 1))
                (inject_Z (r mod 6561 / 2187 - 1))
                (inject_Z (r mod 2187 / 729 - 1)))
          (Arr3 (inject_Z (r mod 729 / 243 - 1))
                (inject_Z (r mod 243 / 81 - 1))
                (inject_Z (r mod 81 / 27 - 1)))
          (Arr3 (inject_Z (r mod 27 / 9 - 1))
                (inject_Z (r mod 9 / 3 - 1))
                (inject_Z (r mod 3 / 1 - 1))),
     Arr3 (inject_Z (t mod 1728 / 144) / 12)%Q
          (inject_Z (t mod 144 / 12) / 12)%Q
          (inject_Z (t mod 12 / 1) / 12)%Q).
Proof. reflexivity. Qed.

Lemma mod_div_digit (base shift hi d lo : Z) :
  0 < shift → 0 <= lo < shift → 0 <= d < base →
  (hi * (shift * base) + d * shift + lo) mod (shift * base) / shift = d.
Proof.
  intros Hs Hlo Hd.
  replace (hi * (shift * base) + d * shift + lo)
    with (d * shift + lo + hi * (shift * base)) by ring.
  rewrite Z_mod_plus_full, Z.mod_small by nia.
  rewrite Z.div_add_l, Z.div_small by lia. lia.
Qed.

(** read the digit [d] that stands at [shift] in base [base], with
    [hi] above it and [lo] below *)
Ltac read_digit base shift hi d lo :=
  match goal with
  | |- ?r mod _ / _ = _ =>
      replace r with (hi * (shift * base) + d * shift + lo) by ring;
      apply (mod_div_digit base shift hi d lo); lia
  end.

Lemma decode_packed (d00 d01 d02 d10 d11 d12 d20 d21 d22 k0 k1 k2 : Z) :
  0 <= d00 <= 2 → 0 <= d01 <= 2 → 0 <= d02 <= 2 →
  0 <= d10 <= 2 → 0 <= d11 <= 2 → 0 <= d12 <= 2 →
  0 <= d20 <= 2 → 0 <= d21 <= 2 → 0 <= d22 <= 2 →
  0 <= k0 < 12 → 0 <= k1 < 12 → 0 <= k2 < 12 →
  decode_symm_int
    (d00 * 6561 + d01 * 2187 + d02 * 729 + d10 * 243 + d11 * 81 + d12 * 27
     + d20 * 9 + d21 * 3 + d22 + (k0 * 144 + k1 * 12 + k2) * 19683)
  = (Arr3 (Arr3 (inject_Z (d00 - 1)) (inject_Z (d01 - 1)) (inject_Z (d02 - 1)))
          (Arr3 (inject_Z (d10 - 1)) (inject_Z (d11 - 1)) (inject_Z (d12 - 1)))
          (Arr3 (inject_Z (d20 - 1)) (inject_Z (d21 - 1)) (inject_Z (d22 - 1))),
     Arr3 (inject_Z k0 / 12)%Q (inject_Z k1 / 12)%Q (inject_Z k2 / 12)%Q).
Proof.
  intros. rewrite decode_unfold. cbv zeta.
  rewrite Z_mod_plus_full, Z.div_add by lia.
  set (r := d00 * 6561 + d01 * 2187 + d02 * 729 + d10 * 243 + d11 * 81
            + d12 * 27 + d20 * 9 + d21 * 3 + d22).
  rewrite (Z.mod_small r), (Z.div_small r) by (unfold r; lia).
  rewrite Z.add_0_l. subst r.
  do 3 f_equal; f_equal; f_equal; try f_equal.
  - read_digit 3 6561 0 d00
      (d01 * 2187 + d02 * 729 + d10 * 243 + d11 * 81 + d12 * 27 + d20 * 9
       + d21 * 3 + d22).
  - read_digit 3 2187 d00 d01
      (d02 * 729 + d10 * 243 + d11 * 81 + d12 * 27 + d20 * 9 + d21 * 3 + d22).
  - read_digit 3 729 (d00 * 3 + d01) d02
      (d10 * 243 + d11 * 81 + d12 * 27 + d20 * 9 + d21 * 3 + d22).
  - read_digit 3 243 (d00 * 9 + d01 * 3 + d02) d10
      (d11 * 81 + d12 * 27 + d20 * 9 + d21 * 3 + d22).
  - read_digit 3 81 (d00 * 27 + d01 * 9 + d02 * 3 + d10) d11
      (d12 * 27 + d20 * 9 + d21 * 3 + d22).
  - read_digit 3 27 (d00 * 81 + d01 * 27 + d02 * 9 + d10 * 3 + d11) d12
      (d20 * 9 + d21 * 3 + d22).
  - read_digit 3 9 (d00 * 243 + d01 * 81 + d02 * 27 + d10 * 9 + d11 * 3 + d12)
      d20 (d21 * 3 + d22).
  - read_digit 3 3
      (d00 * 729 + d01 * 243 + d02 * 81 + d10 * 27 + d11 * 9 + d12 * 3 + d20)
      d21 d22.
  - read_digit 3 1
      (d00 * 2187 + d01 * 729 + d02 * 243 + d10 * 81 + d11 * 27 + d12 * 9
       + d20 * 3 + d21) d22 0.
  - read_digit 12 144 0 k0 (k1 * 12 + k2).
  - read_digit 12 12 k0 k1 k2.
  - read_digit 12 1 (k0 * 12 + k1) k2 0.
Qed.

Lemma roundtrip_duodecimal (m : mat) (v : vec) :
  valid_rotation m = true →
  valid_translation duodecimal_numerators v = true →
  mat_eq (fst (decode_symm_int (encode_symm_int m v))) m
  ∧ vec_eq (snd (decode_symm_int (encode_symm_int m v))) v.
Proof.
  intros Hm Hv. rewrite (encode_valid m v Hm Hv).
  destruct m as [[m00 m01 m02] [m10 m11 m12] [m20 m21 m22]].
  destruct v as [v0 v1 v2].
  unfold valid_rotation, valid_translation in Hm, Hv.
  cbn [at0 at1 at2] in Hm, Hv.
  repeat rewrite andb_true_iff in Hm. repeat rewrite andb_true_iff in Hv.
  destruct Hm as [[[[R00 R01] R02] [[R10 R11] R12]] [[R20 R21] R22]].
  destruct Hv as [[T0 T1] T2].
  apply rotation_entry_round in R00, R01, R02, R10, R11, R12, R20, R21, R22.
  apply twelfth_round in T0, T1, T2.
  destruct T0 as [B0 T0], T1 as [B1 T1], T2 as [B2 T2].
  apply duodecimal_bounds in B0, B1, B2.
  unfold get2. cbn [aget at0 at1 at2].
  rewrite decode_packed by lia.
  unfold mat_eq, vec_eq. cbn [fst snd at0 at1 at2].
  rewrite !Z.add_simpl_r.
  intuition (symmetry; assumption).
Qed.

(** C1. For every operation whose rotation has entries in -1, 0, 1 and
    whose translation components are twelfths with numerator in
    0, 2, 3, 4, 6, 8, 9, 10, decoding the packed integer that encoding
    produces gives back the rotation matrix and the translation
    vector. *)
Theorem decode_encode_roundtrip (s : SymmetryOperation.t) :
  valid_rotation (SymmetryOperation.rotation s) = true →
  valid_translation crystallographic_numerators
    (SymmetryOperation.translation s) = true →
  let decoded :=
    decode_symm_int
      (encode_symm_int (SymmetryOperation.rotation s)
         (SymmetryOperation.translation s)) in
  mat_eq (fst decoded) (SymmetryOperation.rotation s)
  ∧ vec_eq (snd decoded) (SymmetryOperation.translation s).
Proof.
  intros Hm Hv. apply roundtrip_duodecimal; [exact Hm|].
  unfold valid_translation in *. rewrite !andb_true_iff in *.
  pose proof crystallographic_duodecimal as Hsub.
  intuition eauto using is_twelfth_mono.
Qed.

Lemma decode_encode_roundtrip_witness :
  let s := SymmetryOperation.new
             (Arr3 (Arr3 0 (-1) 0) (Arr3 1 (-1) 0) (Arr3 0 0 1))%Q
             (Arr3 (2 # 3) (1 # 3) (5 # 6))%Q in
  valid_rotation (SymmetryOperation.rotation s) = true
  ∧ valid_translation crystallographic_numerators
      (SymmetryOperation.translation s) = true
  ∧ mat_eq (fst (decode_symm_int (SymmetryOperation.integer_code s)))
      (SymmetryOperation.rotation s)
  ∧ vec_eq (snd (decode_symm_int (SymmetryOperation.integer_code s)))
      (SymmetryOperation.translation s).
Proof.
  intros s. split; [reflexivity|]. split; [reflexivity|].
  apply (decode_encode_roundtrip s); reflexivity.
Defined.

(** ** The identity sentinel *)

Lemma decode_identity :
  decode_symm_int 16484
  = (identity_rotation, Arr3 (0 # 12) (0 # 12) (0 # 12))%Q.
Proof. vm_compute. reflexivity. Qed.

Lemma vec_eq_sym (v w : vec) : vec_eq v w → vec_eq w v.
Proof. unfold vec_eq. intuition (symmetry; assumption). Qed.

Lemma mat_eq_sym (m n : mat) : mat_eq m n → mat_eq n m.
Proof. unfold mat_eq. intuition auto using vec_eq_sym. Qed.

Lemma vec_eq_trans (u v w : vec) : vec_eq u v → vec_eq v w → vec_eq u w.
Proof.
  unfold vec_eq. intros (? & ? & ?) (? & ? & ?).
  repeat split; etransitivity; eassumption.
Qed.

Lemma mat_eq_trans (m n p : mat) : mat_eq m n → mat_eq n p → mat_eq m p.
Proof.
  unfold mat_eq. intros (? & ? & ?) (? & ? & ?).
  repeat split; eapply vec_eq_trans; eassumption.
Qed.

(** C7. The packed integer of the identity rotation with zero
    translation is 16484; [identity().is_identity()] is true; and an
    operation with rotation entries in -1, 0, 1 and a translation in
    twelfths that is not the identity is not [is_identity()]. *)
Theorem identity_sentinel :
  encode_symm_int identity_rotation zero_translation = 16484
  ∧ SymmetryOperation.is_identity SymmetryOperation.identity = true
  ∧ ∀ s : SymmetryOperation.t,
      constructed s →
      valid_rotation (SymmetryOperation.rotation s) = true →
      valid_translation duodecimal_numerators
        (SymmetryOperation.translation s) = true →
      ¬ (mat_eq (SymmetryOperation.rotation s) identity_rotation
         ∧ vec_eq (SymmetryOperation.translation s) zero_translation) →
      SymmetryOperation.is_identity s = false.
Proof.
  split; [vm_compute; reflexivity|]. split; [vm_compute; reflexivity|].
  intros s Hs Hm Hv Hne. unfold SymmetryOperation.is_identity.
  apply Z.eqb_neq. intros Hcode. apply Hne. clear Hne.
  destruct Hs as [Hnone | [code ->]].
  - unfold SymmetryOperation.integer_code in Hcode. rewrite Hnone in Hcode.
    destruct (roundtrip_duodecimal _ _ Hm Hv) as [Hr Ht].
    rewrite Hcode, decode_identity in Hr, Ht. cbn [fst snd] in Hr, Ht.
    split; [now apply mat_eq_sym|].
    apply vec_eq_sym.
    eapply vec_eq_trans; [|exact Ht]. repeat split; reflexivity.
  - cbn in Hcode. subst code. vm_compute. intuition congruence.
Qed.

Lemma identity_sentinel_witness :
  let s := SymmetryOperation.inverted SymmetryOperation.identity in
  constructed s ∧ SymmetryOperation.is_identity s = false.
Proof.
  intros s. split; [left; reflexivity|].
  apply (proj2 (proj2 identity_sentinel) s);
    [left; reflexivity | reflexivity | reflexivity |].
  intros [[[H _] _] _]. vm_compute in H. discriminate H.
Defined.

(** ** Expansion appends the identity to the caller's list *)

Lemma lattice_translations_defined (k : Z) :
  1 <= k <= 7 → ∃ ts, LATTICE_TYPE_TRANSLATIONS k = Some ts.
Proof.
  intros Hk.
  assert (k = 1 ∨ k = 2 ∨ k = 3 ∨ k = 4 ∨ k = 5 ∨ k = 6 ∨ k = 7) as Hc by lia.
  destruct Hc as [-> | [-> | [-> | [-> | [-> | [-> | ->]]]]]];
    eexists; reflexivity.
Qed.

Lemma lattice_translations_undefined (k : Z) :
  ¬ 1 <= k <= 7 → LATTICE_TYPE_TRANSLATIONS k = None.
Proof.
  intros Hk. destruct k as [|p|p]; try reflexivity.
  do 3 (destruct p as [p|p|]; try reflexivity; try lia).
Qed.

Lemma contains_identity_iff (l : list SymmetryOperation.t) :
  SymmetryOperation.contains SymmetryOperation.identity l = true
  ↔ Exists (fun x => SymmetryOperation.is_identity x = true) l.
Proof.
  unfold SymmetryOperation.contains. rewrite existsb_exists, Exists_exists.
  unfold SymmetryOperation.eq, SymmetryOperation.is_identity.
  change (SymmetryOperation.integer_code SymmetryOperation.identity) with 16484.
  split; intros (x & Hin & Hx); exists x; (split; [|lia]).
  - now apply list_elem_of_In.
  - now apply list_elem_of_In.
Qed.

(** a call with a lattice type outside 1..7 raises before the list is
    touched *)
Lemma expanded_symmetry_list_key_error
    (reduced_symops : list SymmetryOperation.t) (lattice_type : Z) :
  ¬ 1 <= Z.abs lattice_type <= 7 →
  expanded_symmetry_list reduced_symops lattice_type
  = (reduced_symops, Raise (KeyError_int (Z.abs lattice_type))).
Proof.
  intros Hk. unfold expanded_symmetry_list.
  now rewrite (lattice_translations_undefined _ Hk).
Qed.

(** C10. A call of [expanded_symmetry_list] that returns leaves the
    caller's list with the identity appended when no element of it was
    the identity, and unchanged when one was. *)
Theorem expanded_symmetry_list_appends_identity
    (reduced_symops : list SymmetryOperation.t) (lattice_type : Z) :
  1 <= Z.abs lattice_type <= 7 →
  (∃ full_symops,
     snd (expanded_symmetry_list reduced_symops lattice_type) = Ok full_symops)
  ∧ (Forall (fun x => SymmetryOperation.is_identity x = false) reduced_symops →
     fst (expanded_symmetry_list reduced_symops lattice_type)
     = reduced_symops ++ [SymmetryOperation.identity])
  ∧ (Exists (fun x => SymmetryOperation.is_identity x = true) reduced_symops →
     fst (expanded_symmetry_list reduced_symops lattice_type) = reduced_symops).
Proof.
  intros Hk. destruct (lattice_translations_defined _ Hk) as [ts Hts].
  unfold expanded_symmetry_list. rewrite Hts. cbn [fst snd].
  split; [eexists; reflexivity|].
  destruct (SymmetryOperation.contains SymmetryOperation.identity reduced_symops)
    eqn:Hc; cbn [negb].
  - split; [|reflexivity].
    intros Hall. apply contains_identity_iff, Exists_exists in Hc.
    destruct Hc as (x & Hin & Hx). rewrite Forall_forall in Hall.
    specialize (Hall x Hin). congruence.
  - split; [reflexivity|].
    intros Hex. apply contains_identity_iff in Hex. congruence.
Qed.

Lemma expanded_symmetry_list_appends_identity_witness :
  let reduced_symops := [SymmetryOperation.from_integer_code 3198] in
  1 <= Z.abs 1 <= 7
  ∧ fst (expanded_symmetry_list reduced_symops 1)
    = reduced_symops ++ [SymmetryOperation.identity].
Proof.
  intros reduced_symops. split; [lia|].
  apply (expanded_symmetry_list_appends_identity reduced_symops 1); [lia|].
  repeat constructor.
Defined.

(** ** Cell-type classification *)

(** C8. [set_cell_type] names the cell after the first class predicate
    that holds in the order cubic, rhombohedral, hexagonal, tetragonal,
    orthorhombic, monoclinic, and triclinic when none does; a cell the
    cubic predicate accepts is "cubic" whatever else holds. *)
Theorem set_cell_type_first_match (u : UnitCell.t) :
  UnitCell.cell_type (UnitCell.set_cell_type u) = UnitCell.first_match u
  ∧ (UnitCell.is_cubic u = true →
     UnitCell.cell_type (UnitCell.set_cell_type u) = "cubic"%string).
Proof.
  unfold UnitCell.set_cell_type, UnitCell.first_match, UnitCell.priority_order.
  cbn [List.find fst snd].
  destruct (UnitCell.is_cubic u); [split; reflexivity|].
  split; [|discriminate].
  destruct (UnitCell.is_rhombohedral u); [reflexivity|].
  destruct (UnitCell.is_hexagonal u); [reflexivity|].
  destruct (UnitCell.is_tetragonal u); [reflexivity|].
  destruct (UnitCell.is_orthorhombic u); [reflexivity|].
  destruct (UnitCell.is_monoclinic u); reflexivity.
Qed.

(** equal edges and three angles of minus a right angle: the cubic and
    the rhombohedral predicate both hold, and the cell is cubic *)
Lemma set_cell_type_first_match_witness :
  let u := UnitCell.Make identity_rotation (Arr3 5 5 5)%Q
             (Arr3 (- (np.pi / 2)) (- (np.pi / 2)) (- (np.pi / 2)))%Q in
  UnitCell.is_cubic u = true ∧ UnitCell.is_rhombohedral u = true
  ∧ UnitCell.cell_type (UnitCell.set_cell_type u) = "cubic"%string.
Proof.
  intros u. split; [reflexivity|]. split; [reflexivity|].
  apply (proj2 (set_cell_type_first_match u)). reflexivity.
Defined.

(** ** Dispatch on the file extension *)

(** the extension is lower-cased before it is looked up, so the
    supported formats are recognised in any case of the letters *)
Lemma uppercase_extension_is_dispatched :
  snd (os_path.splitext "a.CIF") = ".CIF"%string
  ∧ ".CIF"%string ≠ ".cif"%string ∧ ".CIF"%string ≠ ".res"%string
  ∧ Crystal.load "a.CIF" = Ok (Crystal.from_cif_file, "a.CIF"%string)
  ∧ Crystal.save "a.CIF" = Ok (Crystal.to_cif_file, "a.CIF"%string).
Proof.
  split; [reflexivity|]. split; [discriminate|]. split; [discriminate|].
  split; vm_compute; reflexivity.
Qed.



(** ** Reduction takes its candidates in the order of supply *)

Lemma reduce_loop_sublist (ts : list vec) (inversion : bool)
    (todo reduced : list SymmetryOperation.t) :
  ∃ l, reduce_loop ts inversion todo reduced = reduced ++ l
       ∧ l `sublist_of` todo.
Proof.
  revert reduced. induction todo as [|x todo IH]; intros reduced.
  - exists []. split; [now rewrite app_nil_r | constructor].
  - cbn [reduce_loop].
    destruct (SymmetryOperation.contains x reduced);
      [destruct (IH reduced) as (l & -> & Hl); exists l;
       split; [reflexivity | now constructor]|].
    destruct (inversion && _);
      [destruct (IH reduced) as (l & -> & Hl); exists l;
       split; [reflexivity | now constructor]|].
    destruct (centering_break _ _ _ _);
      [destruct (IH reduced) as (l & -> & Hl); exists l;
       split; [reflexivity | now constructor]|].
    destruct (IH (reduced ++ [x])) as (l & -> & Hl). exists (x :: l).
    split; [now rewrite <- app_assoc | now constructor].
Qed.

(** the loop is a left-to-right pass: the candidates of a prefix are
    all decided before the first candidate after it is looked at *)
Lemma reduce_loop_app (ts : list vec) (inversion : bool)
    (todo1 todo2 reduced : list SymmetryOperation.t) :
  reduce_loop ts inversion (todo1 ++ todo2) reduced
  = reduce_loop ts inversion todo2 (reduce_loop ts inversion todo1 reduced).
Proof.
  revert reduced. induction todo1 as [|x todo1 IH]; intros reduced;
    [reflexivity|].
  cbn [app reduce_loop].
  repeat match goal with |- context [if ?c then _ else _] => destruct c end;
    apply IH.
Qed.

Lemma StronglySorted_sublist {A} (R : relation A) (l k : list A) :
  l `sublist_of` k → StronglySorted R k → StronglySorted R l.
Proof.
  induction 1 as [|x l k Hlk IH|x l k Hlk IH]; intros Hk.
  - constructor.
  - apply StronglySorted_inv in Hk as [Hk Hx].
    constructor; [now apply IH|].
    rewrite Forall_forall in Hx |- *. intros y Hy.
    apply Hx. eapply sublist_subseteq; eassumption.
  - apply StronglySorted_inv in Hk as [Hk _]. now apply IH.
Qed.

(** C3. [reduced_symmetry_list] sorts the codes of its input and never
    reads the sorted list: the candidates are taken in the order of
    supply, and the result depends on that order.  The four operations
    of the body-centred monoclinic group I2 (x,y,z; -x,y,-z; and both
    moved by 1/2,1/2,1/2) reduce to the identity and -x,y,-z when they
    are supplied in ascending order of their codes, which is what
    processing in ascending order gives for every order of supply, and
    to the identity and -x+1/2,y+1/2,-z+1/2 in another order. *)
Lemma reduced_symmetry_list_depends_on_order :
  let ascending :=
    List.map SymmetryOperation.from_integer_code
      [3360; 16484; 18544746; 18557870] in
  let shuffled :=
    List.map SymmetryOperation.from_integer_code
      [18544746; 16484; 3360; 18557870] in
  ascending ≡ₚ shuffled
  ∧ reduced_symmetry_list ascending (-2)
    = Ok (List.map SymmetryOperation.from_integer_code [16484; 3360])
  ∧ reduced_symmetry_list shuffled (-2)
    = Ok (List.map SymmetryOperation.from_integer_code [16484; 18544746]).
Proof.
  cbn zeta. split.
  - cbn [List.map]. etransitivity; [apply perm_swap|].
    etransitivity; [apply perm_skip, perm_swap|]. apply perm_swap.
  - split; vm_compute; reflexivity.
Qed.

(** what the order of supply leaves in place: the result is the
    identity followed by a subsequence of the input, so the candidates
    kept stand in ascending order of encoding when the input does *)
Theorem reduced_symmetry_list_in_supplied_order
    (full_symops : list SymmetryOperation.t) (lattice_type : Z) :
  1 <= Z.abs lattice_type <= 7 →
  ∃ kept,
    reduced_symmetry_list full_symops lattice_type
    = Ok (SymmetryOperation.identity :: kept)
    ∧ kept `sublist_of` full_symops
    ∧ (StronglySorted
         (fun x y => SymmetryOperation.integer_code x
                     <= SymmetryOperation.integer_code y) full_symops →
       StronglySorted
         (fun x y => SymmetryOperation.integer_code x
                     <= SymmetryOperation.integer_code y) kept).
Proof.
  intros Hk. destruct (lattice_translations_defined _ Hk) as [ts Hts].
  unfold reduced_symmetry_list. rewrite Hts.
  destruct (reduce_loop_sublist ts (0 <? lattice_type) full_symops
              [SymmetryOperation.identity]) as (kept & -> & Hsub).
  exists kept. split; [reflexivity|]. split; [exact Hsub|].
  now apply StronglySorted_sublist.
Qed.

Lemma reduced_symmetry_list_in_supplied_order_witness :
  let full_symops :=
    List.map SymmetryOperation.from_integer_code
      [3360; 16484; 18544746; 18557870] in
  1 <= Z.abs (-2) <= 7
  ∧ ∃ kept,
      reduced_symmetry_list full_symops (-2)
      = Ok (SymmetryOperation.identity :: kept)
      ∧ kept `sublist_of` full_symops
      ∧ (StronglySorted
           (fun x y => SymmetryOperation.integer_code x
                       <= SymmetryOperation.integer_code y) full_symops →
         StronglySorted
           (fun x y => SymmetryOperation.integer_code x
                       <= SymmetryOperation.integer_code y) kept).
Proof.
  intros full_symops. split; [cbn; lia|].
  apply (reduced_symmetry_list_in_supplied_order full_symops (-2)). cbn. lia.
Defined.

(** ** Unit-cell atoms when no two images coincide *)

Lemma length_np_tile {A} (l : list A) (reps : nat) :
  length (np_tile l reps) = (reps * length l)%nat.
Proof.
  unfold np_tile. induction reps as [|reps IH]; [reflexivity|].
  cbn [replicate concat]. rewrite length_app, IH. lia.
Qed.

Lemma lookup_np_tile {A} (l : list A) (reps r : nat) :
  (r < reps * length l)%nat →
  np_tile l reps !! r = l !! (r mod length l)%nat.
Proof.
  unfold np_tile. revert r. induction reps as [|reps IH]; intros r Hr; [lia|].
  cbn [replicate concat].
  destruct (decide (r < length l)%nat) as [Hlt | Hge].
  - rewrite lookup_app_l by exact Hlt. now rewrite Nat.mod_small.
  - rewrite lookup_app_r by lia. rewrite IH by lia. f_equal.
    assert (Hlen : length l ≠ 0%nat) by lia.
    replace r with ((r - length l) + 1 * length l)%nat at 2 by lia.
    now rewrite Nat.Div0.mod_add.
Qed.

Lemma length_concat_map_const {A B} (f : A → list B) (l : list A) (n : nat) :
  (∀ x, length (f x) = n) →
  length (concat (List.map f l)) = (length l * n)%nat.
Proof.
  intros Hf. induction l as [|x l IH]; [reflexivity|].
  cbn [List.map concat length]. rewrite length_app, Hf, IH. lia.
Qed.

Lemma find_unity_bound (ops : list SymmetryOperation.t) (i : nat) :
  ops ≠ [] → (SpaceGroup.find_unity ops i < i + length ops)%nat.
Proof.
  revert i. induction ops as [|s ops IH]; intros i Hne; [congruence|].
  cbn [SpaceGroup.find_unity length].
  destruct (_ =? _); [lia|].
  destruct ops as [|s' ops]; [cbn; lia|].
  specialize (IH (S i) ltac:(discriminate)). cbn [length] in IH |- *. lia.
Qed.

Lemma apply_all_symops_rows (sg : SpaceGroup.t) (coordinates : list vec) :
  SpaceGroup.symmetry_operations sg ≠ [] →
  ∃ sym uc_pos,
    SpaceGroup.apply_all_symops sg coordinates = Ok (sym, uc_pos)
    ∧ length sym
      = (length (SpaceGroup.symmetry_operations sg) * length coordinates)%nat
    ∧ length uc_pos
      = (length (SpaceGroup.symmetry_operations sg) * length coordinates)%nat.
Proof.
  intros Hne. unfold SpaceGroup.apply_all_symops.
  set (ops := SpaceGroup.symmetry_operations sg) in *.
  destruct (length ops =? 0)%nat eqn:Hlen.
  { apply Nat.eqb_eq in Hlen. destruct ops; [congruence | discriminate]. }
  cbn [andb]. eexists _, _. split; [reflexivity|].
  pose proof (find_unity_bound ops 0 Hne) as Hu.
  assert (Hother : length (take (SpaceGroup.find_unity ops 0) ops
                           ++ drop (S (SpaceGroup.find_unity ops 0)) ops)
                   = (length ops - 1)%nat).
  { rewrite length_app, length_take, length_drop. lia. }
  rewrite !length_app, length_replicate.
  rewrite !(length_concat_map_const _ _ (length coordinates)), Hother.
  - apply Nat.eqb_neq in Hlen. split; nia.
  - intros s. apply List.length_map.
  - intros s. apply length_replicate.
Qed.

Lemma merge_sites_no_pairs (items : list (nat * nat * Q))
    (occupation : list Q) (mask : list bool) :
  Forall (fun item => fst (fst item) = snd (fst item)) items →
  Crystal.merge_sites items occupation mask = Ok (occupation, mask).
Proof.
  induction 1 as [|[[i j] d] items Hij _ IH]; [reflexivity|].
  cbn [fst snd] in Hij. subst j. cbn [Crystal.merge_sites].
  now rewrite Nat.ltb_irrefl.
Qed.

Lemma mask_index_all_true {A} (l : list A) (n : nat) :
  length l = n → mask_index l (replicate n true) = Ok l.
Proof.
  intros <-. unfold mask_index. rewrite length_replicate, Nat.eqb_refl.
  f_equal. induction l as [|x l IH]; [reflexivity|].
  cbn [length replicate combine List.filter snd List.map fst]. now rewrite IH.
Qed.

Lemma length_site_occupation (au : AsymmetricUnit.t) :
  AsymmetricUnit.well_formed au →
  length (AsymmetricUnit.site_occupation au) = AsymmetricUnit.len au.
Proof.
  intros (_ & _ & Hocc). unfold AsymmetricUnit.site_occupation.
  destruct (AsymmetricUnit.occupation au) as [occ|]; cbn [default].
  - now apply Hocc.
  - apply length_replicate.
Qed.

(** C5. When the neighbour query reports no pair of distinct images
    within the tolerance, [unit_cell_atoms] returns arrays of exactly
    [nsites * len(symmetry_operations)] rows, and the occupation of
    every row is the occupation of the asymmetric-unit site it comes
    from. *)
Theorem unit_cell_atoms_without_merges
    (sparse_distance_matrix : list vec → Q → list (nat * nat * Q))
    (self : Crystal.t) (tolerance : Q) :
  AsymmetricUnit.well_formed (Crystal.asymmetric_unit self) →
  SpaceGroup.symmetry_operations (Crystal.space_group self) ≠ [] →
  (∀ sym uc_pos,
     SpaceGroup.apply_all_symops (Crystal.space_group self)
       (Crystal.site_positions self) = Ok (sym, uc_pos) →
     Forall (fun item => fst (fst item) = snd (fst item))
       (sparse_distance_matrix
          (List.map (amap (fun x => np.fmod1 (x + 7))%Q) uc_pos) tolerance)) →
  ∃ atoms,
    Crystal.unit_cell_atoms sparse_distance_matrix self tolerance = Ok atoms
    ∧ (let rows :=
         (Crystal.nsites self
          * length (SpaceGroup.symmetry_operations (Crystal.space_group self)))%nat in
       length (Crystal.asym_atom atoms) = rows
       ∧ length (Crystal.frac_pos atoms) = rows
       ∧ length (Crystal.cart_pos atoms) = rows
       ∧ length (Crystal.element atoms) = rows
       ∧ length (Crystal.symop atoms) = rows
       ∧ length (Crystal.label atoms) = rows
       ∧ length (Crystal.occupation atoms) = rows)
    ∧ ∀ r site,
        Crystal.asym_atom atoms !! r = Some site →
        (site < Crystal.nsites self)%nat
        ∧ Crystal.occupation atoms !! r
          = AsymmetricUnit.site_occupation (Crystal.asymmetric_unit self) !! site.
Proof.
  intros Hwf Hops Hfar.
  pose proof (length_site_occupation _ Hwf) as Hocc.
  destruct Hwf as (Hpos & Hlab & _).
  destruct (apply_all_symops_rows (Crystal.space_group self)
              (Crystal.site_positions self) Hops)
    as (sym & uc_pos & Happly & Hsym & Hucpos).
  specialize (Hfar sym uc_pos Happly).
  unfold Crystal.unit_cell_atoms. rewrite Happly.
  unfold Crystal.site_positions, Crystal.nsites, Crystal.site_atoms,
    AsymmetricUnit.len, AsymmetricUnit.site_occupation in *.
  set (au := Crystal.asymmetric_unit self) in *.
  set (ops := SpaceGroup.symmetry_operations (Crystal.space_group self)) in *.
  set (n := length (AsymmetricUnit.atomic_numbers au)) in *.
  change (AsymmetricUnit.len au) with n in Hocc.
  rewrite Hpos in Hsym, Hucpos.
  cbn [mbind result_bind].
  rewrite (merge_sites_no_pairs _ _ _ Hfar). cbn [mbind result_bind].
  rewrite !mask_index_all_true
    by (repeat rewrite ?length_np_tile, ?List.length_map, ?length_seq;
        rewrite ?Hocc, ?Hlab; unfold vec in *; subst n; lia).
  cbn [mbind result_bind]. eexists. split; [reflexivity|].
  cbn [Crystal.asym_atom Crystal.frac_pos Crystal.cart_pos Crystal.element
       Crystal.symop Crystal.label Crystal.occupation].
  split.
  { unfold Crystal.to_cartesian.
    repeat rewrite ?List.length_map, ?length_np_tile, ?length_seq.
    rewrite Hlab, Hocc. unfold vec in *. subst n. lia. }
  intros r site Hr.
  assert (Hlt : (r < length ops * n)%nat).
  { apply lookup_lt_Some in Hr.
    rewrite List.length_map, length_seq, length_np_tile in Hr. exact Hr. }
  assert (Hsite : site = (r mod n)%nat).
  { change (List.map ?f ?l) with (f <$> l) in Hr.
    rewrite list_lookup_fmap, lookup_seq_lt in Hr
      by (rewrite length_np_tile; exact Hlt).
    cbn in Hr. congruence. }
  subst site. split; [apply Nat.mod_upper_bound; lia|].
  rewrite lookup_np_tile by (rewrite Hocc; exact Hlt).
  now rewrite Hocc.
Qed.

Lemma unit_cell_atoms_without_merges_witness :
  AsymmetricUnit.well_formed (Crystal.asymmetric_unit crystal_general_position)
  ∧ ∃ atoms,
      Crystal.unit_cell_atoms scipy.sparse_distance_matrix
        crystal_general_position (1 # 1000) = Ok atoms
      ∧ length (Crystal.occupation atoms) = 2%nat.
Proof.
  assert (Hwf : AsymmetricUnit.well_formed
                  (Crystal.asymmetric_unit crystal_general_position)).
  { split; [reflexivity|]. split; [reflexivity|]. intros occ H. discriminate H. }
  split; [exact Hwf|].
  destruct (unit_cell_atoms_without_merges scipy.sparse_distance_matrix
              crystal_general_position (1 # 1000) Hwf)
    as (atoms & Hatoms & Hrows & _).
  - discriminate.
  - intros sym uc_pos H. vm_compute in H. injection H as <- <-.
    vm_compute. repeat constructor.
  - exists atoms. split; [exact Hatoms|]. apply Hrows.
Defined.

(** ** Wrapping of fractional coordinates *)

(** within the reach of the offset the coordinate lands in [0, 1) *)
Lemma fmod1_offset_wraps (x : Q) :
  (-7 <= x)%Q → (0 <= np.fmod1 (x + 7))%Q ∧ (np.fmod1 (x + 7) < 1)%Q.
Proof.
  intros Hx.
  assert (Hq : (0 <= x + 7)%Q).
  { apply Qplus_le_l with (z := (-7)%Q). ring_simplify. exact Hx. }
  assert (Hfm : np.fmod1 (x + 7) = np.mod1 (x + 7)).
  { unfold np.fmod1, np.mod1, Qfloor. destruct (x + 7)%Q as [n d].
    cbn [Qnum Qden]. rewrite Z.quot_div_nonneg; [reflexivity | | lia].
    unfold Qle in Hq. cbn in Hq. lia. }
  rewrite Hfm. apply mod1_range.
Qed.

(** C6, at an input beyond the reach of the offset: a site at
    x = -15/2 in P1 comes out of [unit_cell_atoms] with the fractional
    coordinate -1/2. *)
Theorem unit_cell_atoms_far_site_not_wrapped :
  ∃ atoms,
    Crystal.unit_cell_atoms scipy.sparse_distance_matrix crystal_far_site
      (1 # 1000) = Ok atoms
    ∧ Crystal.frac_pos atoms = [Arr3 (- 1 # 2) 0 0]%Q
    ∧ ¬ (0 <= - 1 # 2)%Q.
Proof.
  eexists. split; [vm_compute; reflexivity|].
  split; [reflexivity|]. unfold Qle. cbn. lia.
Qed.

(** ** Symmetry-unique molecules *)

Lemma elem_of_np_unique (l : list nat) (i : nat) : i ∈ np_unique l ↔ i ∈ l.
Proof.
  unfold np_unique. rewrite merge_sort_Permutation. apply elem_of_remove_dups.
Qed.

Lemma fancy_get_in_range {A} (l : list A) (idx : list nat) :
  (∀ i, i ∈ idx → (i < length l)%nat) →
  ∃ xs, fancy_get l idx = Ok xs
        ∧ ∀ x, x ∈ xs ↔ ∃ i, i ∈ idx ∧ l !! i = Some x.
Proof.
  induction idx as [|i idx IH]; intros Hidx.
  - exists []. split; [reflexivity|]. intros x. split.
    + intros H. inversion H.
    + intros (i & H & _). inversion H.
  - destruct IH as (xs & Hxs & Hmem).
    { intros j Hj. apply Hidx. now right. }
    destruct (lookup_lt_is_Some_2 l i) as [x Hx]; [apply Hidx; now left|].
    exists (x :: xs). cbn [fancy_get]. rewrite Hx, Hxs. split; [reflexivity|].
    intros y. rewrite elem_of_cons, Hmem. split.
    + intros [-> | (j & Hj & Hy)]; [exists i | exists j];
        (split; [|assumption]); [now left | now right].
    + intros (j & Hj & Hy). apply elem_of_cons in Hj as [-> | Hj].
      * left. congruence.
      * right. eauto.
Qed.

Lemma forallb_id_true (l : list bool) :
  forallb id l = true ↔ ∀ x, x ∈ l → x = true.
Proof.
  rewrite forallb_forall. unfold id. split; intros H x Hx; apply H.
  - now apply list_elem_of_In.
  - now apply list_elem_of_In.
Qed.

Lemma forallb_id_lookup (l : list bool) :
  forallb id l = true ↔ ∀ i, (i < length l)%nat → l !! i = Some true.
Proof.
  rewrite forallb_id_true. split.
  - intros H i Hi. destruct (lookup_lt_is_Some_2 l i Hi) as [x Hx].
    rewrite Hx. f_equal. apply H. eapply list_elem_of_lookup_2, Hx.
  - intros H x Hx. apply list_elem_of_lookup in Hx as [i Hi].
    specialize (H i (lookup_lt_Some _ _ _ Hi)). congruence.
Qed.

Lemma length_fancy_set {A} (l : list A) (idx : list nat) (x : A) :
  length (fancy_set l idx x) = length l.
Proof.
  unfold fancy_set. revert l. induction idx as [|i idx IH]; intros l;
    [reflexivity|].
  cbn [fold_left]. now rewrite IH, length_insert.
Qed.

Lemma lookup_fancy_set_true (l : list bool) (idx : list nat) (i : nat) :
  fancy_set l idx true !! i = Some true
  ↔ l !! i = Some true ∨ (i ∈ idx ∧ (i < length l)%nat).
Proof.
  unfold fancy_set. revert l. induction idx as [|j idx IH]; intros l.
  - cbn [fold_left]. split; [now left|]. intros [H | [H _]]; [exact H|].
    inversion H.
  - cbn [fold_left]. rewrite IH, length_insert, elem_of_cons.
    destruct (decide (i = j)) as [-> | Hne].
    + split.
      * intros [H | [_ H]]; right; (split; [now left|]);
          [now apply lookup_lt_Some in H; rewrite length_insert in H | exact H].
      * intros [H | [_ H]]; left.
        -- rewrite list_lookup_insert_eq; [reflexivity|].
           now apply lookup_lt_Some in H.
        -- now rewrite list_lookup_insert_eq.
    + rewrite list_lookup_insert_ne by congruence. intuition congruence.
Qed.

Lemma bind_Ok {A B} (m : result A) (f : A → result B) (b : B) :
  m ≫= f = Ok b → ∃ a, m = Ok a ∧ f a = Ok b.
Proof. destruct m as [a|e]; [eauto | discriminate]. Qed.

Lemma insert_desc_Permutation (x : Q * Molecule.t)
    (l : list (Q * Molecule.t)) :
  Crystal.insert_desc x l ≡ₚ x :: l.
Proof.
  induction l as [|y l IH]; [reflexivity|]. cbn [Crystal.insert_desc].
  destruct (Qle_bool _ _); [|reflexivity].
  rewrite IH. apply perm_swap.
Qed.

(** the keys are those of the molecules, in their order *)
Lemma keyed_snd (l : list Molecule.t) (ks : list (Q * Molecule.t)) :
  Crystal.keyed l = Ok ks → List.map snd ks = l.
Proof.
  revert ks. induction l as [|x l IH]; intros ks H.
  - injection H as <-. reflexivity.
  - cbn [Crystal.keyed] in H.
    apply bind_Ok in H as (k & _ & H). apply bind_Ok in H as (ks' & Hks' & H).
    injection H as <-. cbn [List.map snd]. f_equal. now apply IH.
Qed.

(** the key function fails on the first molecule without atoms, and on
    nothing else *)
Lemma keyed_returns (l : list Molecule.t) :
  (∀ m, m ∈ l → Molecule.len m ≠ 0%nat) → ∃ ks, Crystal.keyed l = Ok ks.
Proof.
  induction l as [|x l IH]; intros Hlen; [now exists []|].
  destruct IH as [ks Hks]; [intros m Hm; apply Hlen; now right|].
  cbn [Crystal.keyed]. unfold Crystal.order.
  assert (Hx : (Molecule.len x =? 0)%nat = false)
    by (apply Nat.eqb_neq, Hlen; left).
  rewrite Hx, Hks. cbn [mbind result_bind]. eauto.
Qed.

Lemma keyed_raises (l : list Molecule.t) (m : Molecule.t) :
  m ∈ l → Molecule.len m = 0%nat →
  Crystal.keyed l = Raise ZeroDivisionError.
Proof.
  intros Hm Hlen. induction l as [|x l IH]; [inversion Hm|].
  cbn [Crystal.keyed]. unfold Crystal.order.
  destruct (Molecule.len x =? 0)%nat eqn:Hx; [reflexivity|].
  cbn [mbind result_bind].
  apply elem_of_cons in Hm as [-> | Hm];
    [apply Nat.eqb_neq in Hx; contradiction|].
  now rewrite (IH Hm).
Qed.

Lemma sorted_reverse_Permutation (l sorted : list Molecule.t) :
  Crystal.sorted_reverse l = Ok sorted → sorted ≡ₚ l.
Proof.
  unfold Crystal.sorted_reverse. intros H.
  apply bind_Ok in H as (ks & Hks & H). injection H as <-.
  rewrite <- (keyed_snd l ks Hks).
  apply Permutation_map.
  assert (Hfold : ∀ acc,
            fold_left (fun acc x => Crystal.insert_desc x acc) ks acc
            ≡ₚ acc ++ ks).
  { clear Hks. induction ks as [|x ks IH]; intros acc; cbn [fold_left].
    - now rewrite app_nil_r.
    - rewrite IH, insert_desc_Permutation.
      now rewrite (Permutation_middle acc ks x). }
  apply (Hfold []).
Qed.

Lemma sorted_reverse_returns (l : list Molecule.t) :
  (∀ m, m ∈ l → Molecule.len m ≠ 0%nat) →
  ∃ sorted, Crystal.sorted_reverse l = Ok sorted.
Proof.
  intros Hlen. destruct (keyed_returns l Hlen) as [ks Hks].
  unfold Crystal.sorted_reverse. rewrite Hks. cbn [mbind result_bind]. eauto.
Qed.

(** The loop returns, keeps a subsequence of the molecules it is given,
    and ends with an array [covered] that marks what was marked before
    or lies in a molecule kept; it stops with everything marked, or
    after every atom of every molecule offered has been marked. *)
Lemma select_molecules_spec (mols : list Molecule.t) (asym_atoms : list bool)
    (molecules : list Molecule.t) :
  (∀ mol i, mol ∈ mols → i ∈ Molecule.asymmetric_unit_atoms mol →
            (i < length asym_atoms)%nat) →
  ∃ kept covered,
    Crystal.select_molecules mols asym_atoms molecules = Ok (molecules ++ kept)
    ∧ kept `sublist_of` mols
    ∧ length covered = length asym_atoms
    ∧ (∀ i, covered !! i = Some true
            ↔ asym_atoms !! i = Some true
              ∨ ∃ mol, mol ∈ kept ∧ i ∈ Molecule.asymmetric_unit_atoms mol)
    ∧ ((∀ i, (i < length asym_atoms)%nat → covered !! i = Some true)
       ∨ ∀ mol i, mol ∈ mols → i ∈ Molecule.asymmetric_unit_atoms mol →
                  covered !! i = Some true).
Proof.
  revert asym_atoms molecules.
  induction mols as [|mol mols IH]; intros asym_atoms molecules Hrange.
  { exists [], asym_atoms. rewrite app_nil_r.
    split; [reflexivity|]. split; [constructor|]. split; [reflexivity|].
    split.
    - intros i. split; [now left|]. intros [H | (m & H & _)]; [exact H|].
      inversion H.
    - right. intros m i H. inversion H. }
  cbn [Crystal.select_molecules].
  destruct (fancy_get_in_range asym_atoms
              (np_unique (Molecule.asymmetric_unit_atoms mol)))
    as (flags & Hflags & Hmem).
  { intros i Hi. rewrite elem_of_np_unique in Hi.
    eapply Hrange; [left | exact Hi]. }
  rewrite Hflags. cbn [mbind result_bind].
  assert (Hrange' : ∀ A' : list bool, length A' = length asym_atoms →
            ∀ m i, m ∈ mols → i ∈ Molecule.asymmetric_unit_atoms m →
                   (i < length A')%nat).
  { intros A' HA' m i Hm Hi. rewrite HA'. eapply Hrange; [right|]; eassumption. }
  destruct (forallb id flags) eqn:Hall.
  - (* every atom of the molecule is marked already *)
    destruct (IH asym_atoms molecules (Hrange' _ eq_refl))
      as (kept & covered & Hsel & Hsub & Hlen & Hcov & Hend).
    exists kept, covered. split; [exact Hsel|]. split; [now constructor|].
    split; [exact Hlen|]. split; [exact Hcov|].
    destruct Hend as [Hend | Hend]; [now left | right].
    intros m i Hm Hi. apply elem_of_cons in Hm as [-> | Hm]; [|eauto].
    apply Hcov. left.
    destruct (lookup_lt_is_Some_2 asym_atoms i) as [x Hx];
      [eapply Hrange; [left | exact Hi]|].
    rewrite Hx. f_equal. rewrite forallb_id_true in Hall. apply Hall, Hmem.
    exists i. split; [now rewrite elem_of_np_unique | exact Hx].
  - set (marked := fancy_set asym_atoms
                     (np_unique (Molecule.asymmetric_unit_atoms mol)) true).
    assert (Hlenm : length marked = length asym_atoms)
      by apply length_fancy_set.
    assert (Hmarked : ∀ i, marked !! i = Some true
              ↔ asym_atoms !! i = Some true
                ∨ i ∈ Molecule.asymmetric_unit_atoms mol).
    { intros i. unfold marked. rewrite lookup_fancy_set_true, elem_of_np_unique.
      split; [tauto|]. intros [H | H]; [now left|]. right. split; [exact H|].
      eapply Hrange; [left | exact H]. }
    destruct (forallb id marked) eqn:Hdone.
    + exists [mol], marked. split; [reflexivity|].
      split; [apply sublist_skip, sublist_nil_l|]. split; [exact Hlenm|]. split.
      * intros i. rewrite Hmarked. split.
        -- intros [H | H]; [now left|]. right. exists mol. split; [left|exact H].
        -- intros [H | (m & Hm & H)]; [now left|]. right.
           apply list_elem_of_singleton in Hm. now subst m.
      * left. intros i Hi. rewrite forallb_id_lookup in Hdone.
        apply Hdone. now rewrite Hlenm.
    + destruct (IH marked (molecules ++ [mol]) (Hrange' _ Hlenm))
        as (kept & covered & Hsel & Hsub & Hlen & Hcov & Hend).
      exists (mol :: kept), covered.
      split; [rewrite Hsel, <- app_assoc; reflexivity|].
      split; [now constructor|]. split; [now rewrite Hlen|]. split.
      * intros i. rewrite Hcov, Hmarked. split.
        -- intros [[H | H] | (m & Hm & H)]; [now left | right..].
           ++ exists mol. split; [left | exact H].
           ++ exists m. split; [now right | exact H].
        -- intros [H | (m & Hm & H)]; [now left; left|].
           apply elem_of_cons in Hm as [-> | Hm]; [left; now right|].
           right. eauto.
      * rewrite Hlenm in Hend. destruct Hend as [Hend | Hend]; [now left|].
        right. intros m i Hm Hi. apply elem_of_cons in Hm as [-> | Hm]; [|eauto].
        apply Hcov. left. apply Hmarked. now right.
Qed.

Lemma elem_of_concat_map {A B} (f : A → list B) (l : list A) (x : B) :
  x ∈ concat (List.map f l) ↔ ∃ a, a ∈ l ∧ x ∈ f a.
Proof.
  induction l as [|a l IH]; cbn [List.map concat].
  - split; [intros H; inversion H | intros (a & H & _); inversion H].
  - rewrite elem_of_app, IH. split.
    + intros [H | (a' & Ha' & H)]; [exists a | exists a'];
        (split; [|exact H]); [now left | now right].
    + intros (a' & Ha' & H). apply elem_of_cons in Ha' as [-> | Ha'];
        [now left | right; eauto].
Qed.

Lemma fancy_get_lookup {A} (l : list A) (idx : list nat) (xs : list A) :
  fancy_get l idx = Ok xs → Forall2 (fun i x => l !! i = Some x) idx xs.
Proof.
  revert xs. induction idx as [|i idx IH]; intros xs H.
  - injection H as <-. constructor.
  - cbn [fancy_get] in H. destruct (l !! i) as [x|] eqn:Hx; [|discriminate].
    apply bind_Ok in H as (xs' & Hxs' & H). injection H as <-.
    constructor; [exact Hx | now apply IH].
Qed.

(** a site that is still unmarked after a molecule has been marked was
    unmarked before and is not a site of the molecule *)
Lemma lookup_fancy_set_false (l : list bool) (idx : list nat) (i : nat) :
  fancy_set l idx true !! i = Some false → l !! i = Some false ∧ i ∉ idx.
Proof.
  intros H.
  assert (Hlen : (i < length l)%nat).
  { rewrite <- (length_fancy_set l idx true). eapply lookup_lt_Some, H. }
  assert (Hnot : fancy_set l idx true !! i ≠ Some true) by congruence.
  rewrite lookup_fancy_set_true in Hnot.
  destruct (lookup_lt_is_Some_2 l i Hlen) as [[|] Hb]; [tauto|].
  split; [exact Hb | tauto].
Qed.

Lemma unmarked_site (l : list bool) (idx : list nat) (flags : list bool) :
  Forall2 (fun i x => l !! i = Some x) idx flags →
  forallb id flags = false →
  ∃ i, i ∈ idx ∧ l !! i = Some false.
Proof.
  induction 1 as [|i x idx flags Hx _ IH]; [discriminate|].
  cbn [forallb]. destruct x; cbn [id andb].
  - intros Hall. destruct (IH Hall) as (j & Hj & Hf).
    exists j. split; [now right | exact Hf].
  - intros _. exists i. split; [left | exact Hx].
Qed.

(** every molecule the loop keeps holds a site that was unmarked at the
    start and that no molecule kept before it holds *)
Lemma select_molecules_fresh (mols : list Molecule.t) (asym_atoms : list bool)
    (molecules result : list Molecule.t) :
  Crystal.select_molecules mols asym_atoms molecules = Ok result →
  ∃ kept,
    result = molecules ++ kept
    ∧ ∀ pre mol post,
        kept = pre ++ mol :: post →
        ∃ i, i ∈ Molecule.asymmetric_unit_atoms mol
             ∧ asym_atoms !! i = Some false
             ∧ ∀ m, m ∈ pre → i ∉ Molecule.asymmetric_unit_atoms m.
Proof.
  revert asym_atoms molecules.
  induction mols as [|mol mols IH]; intros asym_atoms molecules H.
  { injection H as <-. exists []. rewrite app_nil_r. split; [reflexivity|].
    intros pre m post Hk. now destruct pre. }
  cbn [Crystal.select_molecules] in H.
  apply bind_Ok in H as (flags & Hflags & H).
  apply fancy_get_lookup in Hflags.
  destruct (forallb id flags) eqn:Hall; [now apply IH|].
  destruct (unmarked_site _ _ _ Hflags Hall) as (i0 & Hi0 & Hf0).
  rewrite elem_of_np_unique in Hi0.
  set (asym_atoms' :=
         fancy_set asym_atoms
           (np_unique (Molecule.asymmetric_unit_atoms mol)) true) in *.
  assert (Hrest : ∃ kept',
            result = (molecules ++ [mol]) ++ kept'
            ∧ ∀ pre m0 post,
                kept' = pre ++ m0 :: post →
                ∃ i, i ∈ Molecule.asymmetric_unit_atoms m0
                     ∧ asym_atoms' !! i = Some false
                     ∧ ∀ m, m ∈ pre → i ∉ Molecule.asymmetric_unit_atoms m).
  { destruct (forallb id asym_atoms').
    - injection H as <-. exists []. rewrite app_nil_r. split; [reflexivity|].
      intros pre m post Hk. now destruct pre.
    - now apply IH. }
  destruct Hrest as (kept' & -> & Hkept').
  exists (mol :: kept'). split; [now rewrite <- app_assoc|].
  intros pre m0 post Hk. destruct pre as [|m pre].
  - injection Hk as <- _. exists i0. split; [exact Hi0|]. split; [exact Hf0|].
    intros m Hm. inversion Hm.
  - injection Hk as <- Hk.
    destruct (Hkept' pre m0 post Hk) as (i & Hi & Hf & Hpre).
    apply lookup_fancy_set_false in Hf as [Hf Hnot].
    rewrite elem_of_np_unique in Hnot.
    exists i. split; [exact Hi|]. split; [exact Hf|].
    intros m' Hm'. apply elem_of_cons in Hm' as [-> | Hm']; auto.
Qed.

(** molecules kept one after the other, each with a site that is new,
    share no site when any two of them hold the same sites or none in
    common *)
Lemma kept_molecules_disjoint (kept : list Molecule.t) :
  (∀ m m', m ∈ kept → m' ∈ kept →
           (∀ i, i ∈ Molecule.asymmetric_unit_atoms m
                 ↔ i ∈ Molecule.asymmetric_unit_atoms m')
           ∨ (∀ i, i ∈ Molecule.asymmetric_unit_atoms m →
                   i ∉ Molecule.asymmetric_unit_atoms m')) →
  (∀ pre mol post,
     kept = pre ++ mol :: post →
     ∃ i, i ∈ Molecule.asymmetric_unit_atoms mol
          ∧ ∀ m, m ∈ pre → i ∉ Molecule.asymmetric_unit_atoms m) →
  ∀ k k' m m' i,
    kept !! k = Some m → kept !! k' = Some m' →
    i ∈ Molecule.asymmetric_unit_atoms m →
    i ∈ Molecule.asymmetric_unit_atoms m' → k = k'.
Proof.
  intros Hsym Hfresh.
  assert (Hlt : ∀ k k' m m' i,
            (k < k')%nat → kept !! k = Some m → kept !! k' = Some m' →
            i ∈ Molecule.asymmetric_unit_atoms m →
            i ∈ Molecule.asymmetric_unit_atoms m' → False).
  { intros k k' m m' i Hk Hm Hm' Hi Hi'.
    destruct (Hfresh (take k' kept) m' (drop (S k') kept))
      as (j & Hj & Hnew); [symmetry; now apply take_drop_middle|].
    assert (Hin : m ∈ take k' kept).
    { apply (list_elem_of_lookup_2 _ k). rewrite lookup_take_lt by exact Hk.
      exact Hm. }
    destruct (Hsym m m') as [Hsame | Hdisj];
      [eapply list_elem_of_lookup_2; eassumption
      |eapply list_elem_of_lookup_2; eassumption | |].
    - apply (Hnew m Hin). now apply Hsame.
    - now apply (Hdisj i). }
  intros k k' m m' i Hm Hm' Hi Hi'.
  destruct (lt_eq_lt_dec k k') as [[Hk | Hk] | Hk]; [|exact Hk|].
  - exfalso. eapply (Hlt k k'); eassumption.
  - exfalso. eapply (Hlt k' k); eassumption.
Qed.

(** The statement that every site index occurs exactly once over the
    molecules returned does not hold.  The one molecule of
    [crystal_on_inversion_centre] holds the site and its inverse image;
    it is returned, the site is covered, and its index occurs twice. *)
Lemma symmetry_unique_molecules_repeats_a_site :
  let unit_cell_molecules := fun _ : Crystal.t => [dimer_on_inversion_centre] in
  Crystal.nsites crystal_on_inversion_centre = 1%nat
  ∧ Crystal.symmetry_unique_molecules unit_cell_molecules
      crystal_on_inversion_centre = Ok [dimer_on_inversion_centre]
  ∧ concat (List.map Molecule.asymmetric_unit_atoms [dimer_on_inversion_centre])
    = [0; 0]%nat
  ∧ ¬ [0; 0]%nat ≡ₚ seq 0 1.
Proof.
  cbn zeta. split; [reflexivity|]. split; [vm_compute; reflexivity|].
  split; [reflexivity|].
  intros H. apply Permutation_length in H. discriminate H.
Qed.

(** C4, amended. When the unit-cell molecules, none without atoms,
    between them hold every asymmetric-unit site,
    [symmetry_unique_molecules] returns unit-cell molecules, in the
    order of preference, whose originating asymmetric-unit indices
    form exactly the set of all site indices; and when any two
    unit-cell molecules hold the same sites or no site in common, as
    the connected components of a bonding graph that the space group
    maps to itself do, every site is held by exactly one of the
    molecules returned.  Within that molecule its index may occur more
    than once. *)
Theorem symmetry_unique_molecules_cover_every_site
    (unit_cell_molecules : Crystal.t → list Molecule.t) (self : Crystal.t) :
  let nsites := AsymmetricUnit.len (Crystal.asymmetric_unit self) in
  (∀ mol, mol ∈ unit_cell_molecules self → Molecule.len mol ≠ 0%nat) →
  (∀ mol i, mol ∈ unit_cell_molecules self →
            i ∈ Molecule.asymmetric_unit_atoms mol → (i < nsites)%nat) →
  (∀ i, (i < nsites)%nat →
        ∃ mol, mol ∈ unit_cell_molecules self
               ∧ i ∈ Molecule.asymmetric_unit_atoms mol) →
  ∃ sorted molecules,
    Crystal.sorted_reverse (unit_cell_molecules self) = Ok sorted
    ∧ Crystal.symmetry_unique_molecules unit_cell_molecules self = Ok molecules
    ∧ molecules `sublist_of` sorted
    ∧ (list_to_set
         (concat (List.map Molecule.asymmetric_unit_atoms molecules)) : gset nat)
      = list_to_set (seq 0 nsites)
    ∧ ((∀ m m', m ∈ unit_cell_molecules self →
                m' ∈ unit_cell_molecules self →
                (∀ i, i ∈ Molecule.asymmetric_unit_atoms m
                      ↔ i ∈ Molecule.asymmetric_unit_atoms m')
                ∨ (∀ i, i ∈ Molecule.asymmetric_unit_atoms m →
                        i ∉ Molecule.asymmetric_unit_atoms m')) →
       ∀ i, (i < nsites)%nat →
            ∃ k mol,
              molecules !! k = Some mol
              ∧ i ∈ Molecule.asymmetric_unit_atoms mol
              ∧ ∀ k' mol',
                  molecules !! k' = Some mol' →
                  i ∈ Molecule.asymmetric_unit_atoms mol' → k' = k).
Proof.
  intros nsites Hatoms Hrange Hfull.
  destruct (sorted_reverse_returns _ Hatoms) as [sorted Hsorted].
  pose proof (sorted_reverse_Permutation _ _ Hsorted) as Hperm.
  unfold Crystal.symmetry_unique_molecules. fold nsites.
  rewrite Hsorted. cbn [mbind result_bind].
  destruct (select_molecules_spec sorted (replicate nsites false) [])
    as (kept & covered & Hsel & Hsub & Hlen & Hcov & Hend).
  { intros mol i Hmol Hi. rewrite length_replicate.
    rewrite Hperm in Hmol. eauto. }
  rewrite length_replicate in Hlen, Hend.
  destruct (select_molecules_fresh _ _ _ _ Hsel) as (kept' & Hkept' & Hfresh).
  cbn [app] in Hsel, Hkept'. subst kept'.
  exists sorted, kept. split; [reflexivity|]. split; [exact Hsel|].
  split; [exact Hsub|].
  assert (Hall : ∀ i, (i < nsites)%nat → covered !! i = Some true).
  { destruct Hend as [Hend | Hend]; [exact Hend|].
    intros i Hi. destruct (Hfull i Hi) as (mol & Hmol & Hin).
    apply (Hend mol i); [|exact Hin]. now rewrite Hperm. }
  assert (Hheld : ∀ i, (i < nsites)%nat →
            ∃ mol, mol ∈ kept ∧ i ∈ Molecule.asymmetric_unit_atoms mol).
  { intros i Hi. apply Hall, Hcov in Hi. destruct Hi as [Hi | Hi]; [|exact Hi].
    rewrite lookup_replicate in Hi. destruct Hi as [Hi _]. discriminate Hi. }
  assert (Hkept : ∀ mol, mol ∈ kept → mol ∈ unit_cell_molecules self).
  { intros mol Hmol. rewrite <- Hperm.
    eapply sublist_subseteq; eassumption. }
  split.
  - apply set_eq. intros i.
    rewrite !elem_of_list_to_set, elem_of_seq, elem_of_concat_map. split.
    + intros (mol & Hmol & Hi). split; [lia|]. cbn. eauto.
    + intros [_ Hi]. cbn in Hi. auto.
  - intros Hsym i Hi. destruct (Hheld i Hi) as (mol & Hmol & Hin).
    apply list_elem_of_lookup_1 in Hmol as [k Hk].
    exists k, mol. split; [exact Hk|]. split; [exact Hin|].
    intros k' mol' Hk' Hin'.
    apply (kept_molecules_disjoint kept) with (m := mol') (m' := mol) (i := i);
      auto.
    intros pre m post Hsplit.
    destruct (Hfresh pre m post Hsplit) as (j & Hj & _ & Hnew). eauto.
Qed.

Lemma symmetry_unique_molecules_cover_every_site_witness :
  let unit_cell_molecules := fun _ : Crystal.t => [dimer_on_inversion_centre] in
  ∃ molecules,
    Crystal.symmetry_unique_molecules unit_cell_molecules
      crystal_on_inversion_centre = Ok molecules
    ∧ (list_to_set
         (concat (List.map Molecule.asymmetric_unit_atoms molecules)) : gset nat)
      = list_to_set (seq 0 1)
    ∧ ∃ k mol,
        molecules !! k = Some mol
        ∧ 0%nat ∈ Molecule.asymmetric_unit_atoms mol
        ∧ ∀ k' mol',
            molecules !! k' = Some mol' →
            0%nat ∈ Molecule.asymmetric_unit_atoms mol' → k' = k.
Proof.
  intros unit_cell_molecules.
  destruct (symmetry_unique_molecules_cover_every_site unit_cell_molecules
              crystal_on_inversion_centre)
    as (sorted & molecules & _ & Hm & _ & Hset & Hone).
  - intros mol Hmol. apply list_elem_of_singleton in Hmol. subst mol.
    discriminate.
  - intros mol i Hmol Hi. apply list_elem_of_singleton in Hmol. subst mol.
    cbn in Hi. apply elem_of_cons in Hi as [-> | Hi]; [cbn; lia|].
    apply list_elem_of_singleton in Hi. subst i. cbn. lia.
  - intros i Hi. exists dimer_on_inversion_centre.
    split; [apply list_elem_of_singleton; reflexivity|].
    cbn in Hi. assert (i = 0%nat) as -> by lia. cbn. left.
  - exists molecules. split; [exact Hm|]. split; [exact Hset|].
    apply (Hone ltac:(intros m m' Hmol Hmol';
                      apply list_elem_of_singleton in Hmol, Hmol';
                      subst m m'; left; tauto) 0%nat).
    cbn. lia.
Defined.

(** ** Translations modulo the lattice *)

Lemma congruent_mod1_refl (a b : Q) : (a == b)%Q → congruent_mod1 a b.
Proof. intros H. exists 0. rewrite H. ring. Qed.

Lemma congruent_mod1_trans (a b c : Q) :
  congruent_mod1 a b → congruent_mod1 b c → congruent_mod1 a c.
Proof.
  intros [n Hn] [m Hm]. exists (m + n). rewrite Hn, Hm, inject_Z_plus. ring.
Qed.

Lemma congruent_mod1_add (a a' b b' : Q) :
  congruent_mod1 a a' → congruent_mod1 b b' → congruent_mod1 (a + b) (a' + b').
Proof.
  intros [n Hn] [m Hm]. exists (n + m). rewrite Hn, Hm, inject_Z_plus. ring.
Qed.

Lemma congruent_mod1_opp (a a' : Q) :
  congruent_mod1 a a' → congruent_mod1 (- a) (- a').
Proof.
  intros [n Hn]. exists (- n). rewrite Hn, inject_Z_opp. ring.
Qed.

Lemma congruent_mod1_mod1 (a : Q) : congruent_mod1 (np.mod1 a) a.
Proof.
  exists (- Qfloor a). unfold np.mod1. rewrite inject_Z_opp. ring.
Qed.

Lemma mod1_congruent (a b : Q) :
  congruent_mod1 a b → (np.mod1 a == np.mod1 b)%Q.
Proof. intros [n Hn]. rewrite Hn. apply mod1_add_int. Qed.

(** a reduced value congruent to a twelfth of the unit interval is that
    twelfth *)
Lemma mod1_congruent_small (a b : Q) :
  congruent_mod1 a b → (0 <= b)%Q → (b < 1)%Q → (np.mod1 a == b)%Q.
Proof.
  intros H H0 H1. rewrite (mod1_congruent _ _ H). now apply mod1_small.
Qed.

Lemma elem_of_duodecimal (k : Z) : k ∈ duodecimal_numerators ↔ 0 <= k < 12.
Proof.
  unfold duodecimal_numerators. rewrite !elem_of_cons, elem_of_nil. lia.
Qed.

Lemma is_twelfth_intro (q : Q) (k : Z) :
  0 <= k < 12 → (q == inject_Z k / 12)%Q →
  is_twelfth duodecimal_numerators q = true.
Proof.
  intros Hk Hq. unfold is_twelfth. apply existsb_exists. exists k.
  split; [apply list_elem_of_In, elem_of_duodecimal, Hk|].
  now apply Qeq_bool_iff.
Qed.

Lemma is_twelfth_elim (q : Q) :
  is_twelfth duodecimal_numerators q = true →
  ∃ k, 0 <= k < 12 ∧ (q == inject_Z k / 12)%Q.
Proof.
  intros H. apply twelfth_round in H as [Hk Hq].
  eexists. split; [apply elem_of_duodecimal, Hk | exact Hq].
Qed.

Lemma twelfth_range (k : Z) :
  0 <= k < 12 → (0 <= inject_Z k / 12)%Q ∧ (inject_Z k / 12 < 1)%Q.
Proof.
  intros Hk. unfold Qdiv, Qle, Qlt, Qmult, Qinv, inject_Z. cbn. lia.
Qed.

Lemma is_twelfth_range (q : Q) :
  is_twelfth duodecimal_numerators q = true → (0 <= q)%Q ∧ (q < 1)%Q.
Proof.
  intros H. apply is_twelfth_elim in H as (k & Hk & Hq).
  rewrite Hq. now apply twelfth_range.
Qed.

Lemma twelfth_mod (n : Z) :
  congruent_mod1 (inject_Z (n mod 12) / 12) (inject_Z n / 12).
Proof.
  exists (- (n / 12)).
  rewrite (Z.div_mod n 12) at 2 by lia.
  rewrite inject_Z_plus, inject_Z_mult, inject_Z_opp. field.
Qed.

(** a value congruent to a twelfth reduces to a twelfth of the unit
    interval *)
Lemma is_twelfth_mod1 (a : Q) (n : Z) :
  congruent_mod1 a (inject_Z n / 12) →
  is_twelfth duodecimal_numerators (np.mod1 a) = true.
Proof.
  intros H. apply (is_twelfth_intro _ (n mod 12)).
  - apply Z.mod_pos_bound. lia.
  - apply mod1_congruent_small.
    + eapply congruent_mod1_trans; [exact H|].
      destruct (twelfth_mod n) as [m Hm]. exists (- m).
      rewrite Hm, inject_Z_opp. ring.
    + apply twelfth_range, Z.mod_pos_bound. lia.
    + apply twelfth_range, Z.mod_pos_bound. lia.
Qed.

Lemma is_twelfth_add (a t : Q) :
  is_twelfth duodecimal_numerators a = true →
  is_twelfth duodecimal_numerators t = true →
  is_twelfth duodecimal_numerators (np.mod1 (a + t)) = true.
Proof.
  intros Ha Ht. apply is_twelfth_elim in Ha as (k & _ & Hk).
  apply is_twelfth_elim in Ht as (m & _ & Hm).
  apply (is_twelfth_mod1 _ (k + m)). apply congruent_mod1_refl.
  rewrite Hk, Hm, inject_Z_plus. field.
Qed.

Lemma is_twelfth_opp (a : Q) :
  is_twelfth duodecimal_numerators a = true →
  is_twelfth duodecimal_numerators (np.mod1 (- a)) = true.
Proof.
  intros Ha. apply is_twelfth_elim in Ha as (k & _ & Hk).
  apply (is_twelfth_mod1 _ (- k)). apply congruent_mod1_refl.
  rewrite Hk, inject_Z_opp. field.
Qed.

Lemma is_rotation_entry_opp (q : Q) :
  is_rotation_entry q = true → is_rotation_entry (- q) = true.
Proof.
  unfold is_rotation_entry. rewrite !orb_true_iff, !Qeq_bool_iff.
  intros [[H | H] | H]; rewrite H; intuition reflexivity.
Qed.

(** ** Operations made from a packed integer *)

Lemma mod_split (r n s b : Z) :
  0 < s → 0 < b → n = s * b → r mod n = r mod n / s * s + r mod s.
Proof.
  intros Hs Hb ->.
  rewrite (Z.div_mod (r mod (s * b)) s) at 1 by lia.
  rewrite (Z.mod_mod_divide r (s * b) s) by (exists b; ring).
  ring.
Qed.

Lemma digit_bound (r n s b : Z) :
  0 < s → 0 < b → n = s * b → 0 <= r mod n / s < b.
Proof.
  intros Hs Hb ->. pose proof (Z.mod_pos_bound r (s * b) ltac:(nia)) as Hr.
  split; [apply Z.div_pos; lia|].
  apply Z.div_lt_upper_bound; lia.
Qed.

Lemma is_rotation_entry_digit (d : Z) :
  0 <= d < 3 → is_rotation_entry (inject_Z (d - 1)) = true.
Proof.
  intros Hd. assert (d = 0 ∨ d = 1 ∨ d = 2) as [-> | [-> | ->]] by lia;
    reflexivity.
Qed.

Lemma round_mod1_twelfth (k : Z) :
  0 <= k < 12 → np.round (np.mod1 (inject_Z k / 12) * 12) = k.
Proof.
  intros Hk. transitivity (np.round (inject_Z k)); [|apply round_inject_Z].
  apply round_proper.
  rewrite mod1_small by (now apply twelfth_range). field.
Qed.

(** an operation made from a code below 3^9 * 12^3 is valid, and its
    cached code is its encoding *)
Lemma valid_from_integer_code (code : Z) :
  0 <= code < 34012224 →
  valid_operation (SymmetryOperation.from_integer_code code) = true.
Proof.
  intros Hc. unfold SymmetryOperation.from_integer_code.
  rewrite decode_unfold. cbv zeta.
  set (r := code mod 19683). set (t := code / 19683).
  assert (Hr : 0 <= r < 19683) by (apply Z.mod_pos_bound; lia).
  assert (Ht : 0 <= t < 1728).
  { unfold t. split; [apply Z.div_pos; lia|].
    apply Z.div_lt_upper_bound; lia. }
  pose proof (digit_bound r 19683 6561 3 ltac:(lia) ltac:(lia) eq_refl) as D00.
  pose proof (digit_bound r 6561 2187 3 ltac:(lia) ltac:(lia) eq_refl) as D01.
  pose proof (digit_bound r 2187 729 3 ltac:(lia) ltac:(lia) eq_refl) as D02.
  pose proof (digit_bound r 729 243 3 ltac:(lia) ltac:(lia) eq_refl) as D10.
  pose proof (digit_bound r 243 81 3 ltac:(lia) ltac:(lia) eq_refl) as D11.
  pose proof (digit_bound r 81 27 3 ltac:(lia) ltac:(lia) eq_refl) as D12.
  pose proof (digit_bound r 27 9 3 ltac:(lia) ltac:(lia) eq_refl) as D20.
  pose proof (digit_bound r 9 3 3 ltac:(lia) ltac:(lia) eq_refl) as D21.
  pose proof (digit_bound r 3 1 3 ltac:(lia) ltac:(lia) eq_refl) as D22.
  pose proof (digit_bound t 1728 144 12 ltac:(lia) ltac:(lia) eq_refl) as K0.
  pose proof (digit_bound t 144 12 12 ltac:(lia) ltac:(lia) eq_refl) as K1.
  pose proof (digit_bound t 12 1 12 ltac:(lia) ltac:(lia) eq_refl) as K2.
  assert (Hrot : valid_rotation
            (Arr3 (Arr3 (inject_Z (r mod 19683 / 6561 - 1))
                        (inject_Z (r mod 6561 / 2187 - 1))
                        (inject_Z (r mod 2187 / 729 - 1)))
                  (Arr3 (inject_Z (r mod 729 / 243 - 1))
                        (inject_Z (r mod 243 / 81 - 1))
                        (inject_Z (r mod 81 / 27 - 1)))
                  (Arr3 (inject_Z (r mod 27 / 9 - 1))
                        (inject_Z (r mod 9 / 3 - 1))
                        (inject_Z (r mod 3 / 1 - 1)))) = true).
  { unfold valid_rotation. cbn [at0 at1 at2].
    now rewrite !is_rotation_entry_digit. }
  assert (Htr : valid_translation duodecimal_numerators
            (amap np.mod1
               (Arr3 (inject_Z (t mod 1728 / 144) / 12)%Q
                     (inject_Z (t mod 144 / 12) / 12)%Q
                     (inject_Z (t mod 12 / 1) / 12)%Q)) = true).
  { unfold valid_translation. cbn [at0 at1 at2 amap].
    rewrite !(is_twelfth_mod1 _ _ (congruent_mod1_refl _ _ (Qeq_refl _))).
    reflexivity. }
  unfold valid_operation, SymmetryOperation.new.
  cbn [SymmetryOperation.rotation SymmetryOperation.translation
       SymmetryOperation._integer_code].
  rewrite Hrot, Htr. cbn [andb]. apply Z.eqb_eq.
  rewrite (encode_valid _ _ Hrot Htr). unfold get2.
  cbn [aget at0 at1 at2 amap].
  rewrite !round_inject_Z, !round_mod1_twelfth by assumption.
  rewrite !Z.sub_add.
  pose proof (mod_split r 19683 6561 3 ltac:(lia) ltac:(lia) eq_refl).
  pose proof (mod_split r 6561 2187 3 ltac:(lia) ltac:(lia) eq_refl).
  pose proof (mod_split r 2187 729 3 ltac:(lia) ltac:(lia) eq_refl).
  pose proof (mod_split r 729 243 3 ltac:(lia) ltac:(lia) eq_refl).
  pose proof (mod_split r 243 81 3 ltac:(lia) ltac:(lia) eq_refl).
  pose proof (mod_split r 81 27 3 ltac:(lia) ltac:(lia) eq_refl).
  pose proof (mod_split r 27 9 3 ltac:(lia) ltac:(lia) eq_refl).
  pose proof (mod_split r 9 3 3 ltac:(lia) ltac:(lia) eq_refl).
  pose proof (mod_split r 3 1 3 ltac:(lia) ltac:(lia) eq_refl).
  pose proof (mod_split t 1728 144 12 ltac:(lia) ltac:(lia) eq_refl).
  pose proof (mod_split t 144 12 12 ltac:(lia) ltac:(lia) eq_refl).
  pose proof (mod_split t 12 1 12 ltac:(lia) ltac:(lia) eq_refl).
  rewrite (Z.mod_1_r r) in *. rewrite (Z.mod_1_r t) in *.
  rewrite (Z.mod_small r 19683) in * by lia.
  rewrite (Z.mod_small t 1728) in * by lia.
  pose proof (Z.div_mod code 19683 ltac:(lia)) as Hcode.
  fold r t in Hcode. lia.
Qed.

(** the operation lists [SpaceGroup.__init__] builds, one
    [from_integer_code] per code of the table entry, are lists of valid
    operations *)
Lemma valid_operations_from_codes (symops : list Z) :
  Forall (fun code => 0 <= code < 34012224) symops →
  forallb valid_operation
    (List.map SymmetryOperation.from_integer_code symops) = true.
Proof.
  induction 1 as [|code symops Hcode _ IH]; [reflexivity|].
  cbn [List.map forallb]. now rewrite valid_from_integer_code, IH.
Qed.

(** ** Operations up to equality of their floats *)

Lemma encode_proper (m m' : mat) (v v' : vec) :
  mat_eq m m' → vec_eq v v' → encode_symm_int m v = encode_symm_int m' v'.
Proof.
  destruct m as [[m00 m01 m02] [m10 m11 m12] [m20 m21 m22]].
  destruct m' as [[n00 n01 n02] [n10 n11 n12] [n20 n21 n22]].
  destruct v as [v0 v1 v2], v' as [w0 w1 w2].
  unfold mat_eq, vec_eq. cbn [at0 at1 at2].
  intros ((H00 & H01 & H02) & (H10 & H11 & H12) & (H20 & H21 & H22))
         (H0 & H1 & H2).
  unfold encode_symm_int, get2. cbn [fold_left amap aget at0 at1 at2].
  rewrite (round_proper _ _ H00), (round_proper _ _ H01),
    (round_proper _ _ H02), (round_proper _ _ H10), (round_proper _ _ H11),
    (round_proper _ _ H12), (round_proper _ _ H20), (round_proper _ _ H21),
    (round_proper _ _ H22).
  assert (E0 : np.round (v0 * 12) = np.round (w0 * 12))
    by (apply round_proper; now rewrite H0).
  assert (E1 : np.round (v1 * 12) = np.round (w1 * 12))
    by (apply round_proper; now rewrite H1).
  assert (E2 : np.round (v2 * 12) = np.round (w2 * 12))
    by (apply round_proper; now rewrite H2).
  now rewrite E0, E1, E2.
Qed.

Lemma valid_operation_parts (s : SymmetryOperation.t) :
  valid_operation s = true →
  valid_rotation (SymmetryOperation.rotation s) = true
  ∧ valid_translation duodecimal_numerators (SymmetryOperation.translation s)
    = true
  ∧ SymmetryOperation.integer_code s
    = encode_symm_int (SymmetryOperation.rotation s)
        (SymmetryOperation.translation s).
Proof.
  unfold valid_operation, SymmetryOperation.integer_code.
  rewrite !andb_true_iff. intros [[Hr Ht] Hc].
  split; [exact Hr|]. split; [exact Ht|].
  destruct (SymmetryOperation._integer_code s); [|reflexivity].
  now apply Z.eqb_eq.
Qed.

Lemma same_operation_refl (x : SymmetryOperation.t) : same_operation x x.
Proof. unfold same_operation, mat_eq, vec_eq. repeat split; reflexivity. Qed.

Lemma same_operation_sym (x y : SymmetryOperation.t) :
  same_operation x y → same_operation y x.
Proof. intros [Hr Ht]. split; [now apply mat_eq_sym | now apply vec_eq_sym]. Qed.

Lemma same_operation_trans (x y z : SymmetryOperation.t) :
  same_operation x y → same_operation y z → same_operation x z.
Proof.
  intros [Hr Ht] [Hr' Ht'].
  split; [eapply mat_eq_trans | eapply vec_eq_trans]; eassumption.
Qed.

Lemma same_operation_code (x y : SymmetryOperation.t) :
  valid_operation x = true → valid_operation y = true →
  same_operation x y →
  SymmetryOperation.integer_code x = SymmetryOperation.integer_code y.
Proof.
  intros Hx Hy [Hr Ht].
  apply valid_operation_parts in Hx as (_ & _ & ->).
  apply valid_operation_parts in Hy as (_ & _ & ->).
  now apply encode_proper.
Qed.

Lemma code_same_operation (x y : SymmetryOperation.t) :
  valid_operation x = true → valid_operation y = true →
  SymmetryOperation.integer_code x = SymmetryOperation.integer_code y →
  same_operation x y.
Proof.
  intros Hx Hy Hc.
  apply valid_operation_parts in Hx as (Hxr & Hxt & Hxc).
  apply valid_operation_parts in Hy as (Hyr & Hyt & Hyc).
  rewrite Hxc, Hyc in Hc.
  destruct (roundtrip_duodecimal _ _ Hxr Hxt) as [Rx Tx].
  destruct (roundtrip_duodecimal _ _ Hyr Hyt) as [Ry Ty].
  rewrite Hc in Rx, Tx. split.
  - eapply mat_eq_trans; [apply mat_eq_sym, Rx | exact Ry].
  - eapply vec_eq_trans; [apply vec_eq_sym, Tx | exact Ty].
Qed.

(** open an operation into its nine rotation entries and three
    translation components *)
Ltac open_operation x :=
  let c := fresh "c" in
  destruct x as [[[? ? ?] [? ? ?] [? ? ?]] [? ? ?] c].

Ltac open_valid H :=
  unfold valid_operation, valid_rotation, valid_translation in H;
  cbn [SymmetryOperation.rotation SymmetryOperation.translation
       SymmetryOperation._integer_code at0 at1 at2] in H;
  repeat rewrite andb_true_iff in H.

Lemma valid_add (x : SymmetryOperation.t) (t : vec) :
  valid_operation x = true →
  valid_translation duodecimal_numerators t = true →
  valid_operation (SymmetryOperation.add x t) = true.
Proof.
  open_operation x. destruct t as [t0 t1 t2]. intros Hx Ht.
  open_valid Hx. unfold valid_translation in Ht. cbn [at0 at1 at2] in Ht.
  repeat rewrite andb_true_iff in Ht.
  unfold valid_operation, valid_rotation, valid_translation,
    SymmetryOperation.add, SymmetryOperation.new.
  cbn [SymmetryOperation.rotation SymmetryOperation.translation
       SymmetryOperation._integer_code at0 at1 at2 amap azip].
  repeat rewrite andb_true_iff.
  intuition auto using is_twelfth_add.
Qed.

Lemma valid_inverted (x : SymmetryOperation.t) :
  valid_operation x = true →
  valid_operation (SymmetryOperation.inverted x) = true.
Proof.
  open_operation x. intros Hx. open_valid Hx.
  unfold valid_operation, valid_rotation, valid_translation,
    SymmetryOperation.inverted, SymmetryOperation.new.
  cbn [SymmetryOperation.rotation SymmetryOperation.translation
       SymmetryOperation._integer_code at0 at1 at2 amap azip].
  repeat rewrite andb_true_iff.
  intuition auto using is_twelfth_opp, is_rotation_entry_opp.
Qed.

Lemma same_operation_add (x y : SymmetryOperation.t) (t : vec) :
  same_operation x y →
  same_operation (SymmetryOperation.add x t) (SymmetryOperation.add y t).
Proof.
  open_operation x. open_operation y. destruct t as [t0 t1 t2].
  unfold same_operation, mat_eq, vec_eq, SymmetryOperation.add,
    SymmetryOperation.new.
  cbn [SymmetryOperation.rotation SymmetryOperation.translation
       at0 at1 at2 amap azip].
  intros [Hr (H0 & H1 & H2)]. split; [exact Hr|].
  now rewrite H0, H1, H2.
Qed.

Lemma same_operation_inverted (x y : SymmetryOperation.t) :
  same_operation x y →
  same_operation (SymmetryOperation.inverted x) (SymmetryOperation.inverted y).
Proof.
  open_operation x. open_operation y.
  unfold same_operation, mat_eq, vec_eq, SymmetryOperation.inverted,
    SymmetryOperation.new.
  cbn [SymmetryOperation.rotation SymmetryOperation.translation
       at0 at1 at2 amap azip].
  intros [((H00 & H01 & H02) & (H10 & H11 & H12) & (H20 & H21 & H22))
          (H0 & H1 & H2)].
  now rewrite H00, H01, H02, H10, H11, H12, H20, H21, H22, H0, H1, H2.
Qed.

Lemma mod1_opp_opp (tx : Q) :
  (0 <= tx)%Q → (tx < 1)%Q → (np.mod1 (- np.mod1 (- tx)) == tx)%Q.
Proof.
  intros H0 H1. apply mod1_congruent_small; [|exact H0|exact H1].
  destruct (congruent_mod1_mod1 (- tx)) as [n Hn]. exists (- n).
  rewrite Hn, inject_Z_opp. ring.
Qed.

Lemma mod1_add_complement (tx t t' : Q) :
  (0 <= tx)%Q → (tx < 1)%Q → congruent_mod1 (t + t') 0 →
  (np.mod1 (np.mod1 (tx + t) + t') == tx)%Q.
Proof.
  intros H0 H1 [m Hm]. apply mod1_congruent_small; [|exact H0|exact H1].
  destruct (congruent_mod1_mod1 (tx + t)) as [n Hn]. exists (n + m).
  rewrite Hn.
  qreplace (tx + t + inject_Z n + t')%Q with (tx + (t + t') + inject_Z n)%Q
    by ring.
  rewrite Hm, inject_Z_plus. ring.
Qed.

Lemma mod1_opp_add_opp_add (tx t : Q) :
  (0 <= tx)%Q → (tx < 1)%Q →
  (np.mod1 (- np.mod1 (np.mod1 (- np.mod1 (tx + t)) + t)) == tx)%Q.
Proof.
  intros H0 H1. apply mod1_congruent_small; [|exact H0|exact H1].
  destruct (congruent_mod1_mod1 (tx + t)) as [n1 Hn1].
  destruct (congruent_mod1_mod1 (- np.mod1 (tx + t))) as [n2 Hn2].
  destruct (congruent_mod1_mod1 (np.mod1 (- np.mod1 (tx + t)) + t))
    as [n3 Hn3].
  exists (n1 - n2 - n3). rewrite Hn3, Hn2, Hn1.
  unfold Z.sub. rewrite !inject_Z_plus, !inject_Z_opp. ring.
Qed.

Ltac open_translation_ranges H :=
  open_valid H;
  destruct H as [[_ [[?T0 ?T1] ?T2]] _];
  apply is_twelfth_range in T0, T1, T2.

Lemma inverted_inverted (x : SymmetryOperation.t) :
  valid_operation x = true →
  same_operation (SymmetryOperation.inverted (SymmetryOperation.inverted x)) x.
Proof.
  open_operation x. intros Hx. open_translation_ranges Hx.
  unfold same_operation, mat_eq, vec_eq, SymmetryOperation.inverted,
    SymmetryOperation.new.
  cbn [SymmetryOperation.rotation SymmetryOperation.translation
       at0 at1 at2 amap azip].
  rewrite !Qopp_involutive.
  repeat split; try reflexivity; apply mod1_opp_opp; tauto.
Qed.

Lemma add_add_complement (x : SymmetryOperation.t) (t t' : vec) :
  valid_operation x = true →
  congruent_mod1 (at0 t + at0 t') 0 → congruent_mod1 (at1 t + at1 t') 0 →
  congruent_mod1 (at2 t + at2 t') 0 →
  same_operation (SymmetryOperation.add (SymmetryOperation.add x t) t') x.
Proof.
  open_operation x. destruct t as [t0 t1 t2], t' as [t0' t1' t2'].
  cbn [at0 at1 at2]. intros Hx H0 H1 H2. open_translation_ranges Hx.
  unfold same_operation, mat_eq, vec_eq, SymmetryOperation.add,
    SymmetryOperation.new.
  cbn [SymmetryOperation.rotation SymmetryOperation.translation
       at0 at1 at2 amap azip].
  repeat split; try reflexivity; apply mod1_add_complement; tauto.
Qed.

Lemma inverted_add_inverted_add (x : SymmetryOperation.t) (t : vec) :
  valid_operation x = true →
  same_operation
    (SymmetryOperation.inverted
       (SymmetryOperation.add
          (SymmetryOperation.inverted (SymmetryOperation.add x t)) t)) x.
Proof.
  open_operation x. destruct t as [t0 t1 t2].
  intros Hx. open_translation_ranges Hx.
  unfold same_operation, mat_eq, vec_eq, SymmetryOperation.add,
    SymmetryOperation.inverted, SymmetryOperation.new.
  cbn [SymmetryOperation.rotation SymmetryOperation.translation
       at0 at1 at2 amap azip].
  rewrite !Qopp_involutive.
  repeat split; try reflexivity; apply mod1_opp_add_opp_add; tauto.
Qed.

(** ** The centring translations *)

Ltac lattice_cases k H :=
  let p := fresh "p" in
  destruct k as [|p|p]; try discriminate H;
  do 3 (try (destruct p as [p|p|]; try discriminate H));
  injection H as <-.

Lemma lattice_translation_valid (k : Z) (ts : list vec) (t : vec) :
  LATTICE_TYPE_TRANSLATIONS k = Some ts → t ∈ ts →
  valid_translation duodecimal_numerators t = true.
Proof.
  intros H Ht. lattice_cases k H;
    repeat (apply elem_of_cons in Ht as [-> | Ht]; [reflexivity|]);
    inversion Ht.
Qed.

(** three component sums that are 0 or 1 each *)
Ltac integer_sums :=
  solve [ exists 0, 1, 1; repeat split; reflexivity
        | exists 1, 0, 1; repeat split; reflexivity
        | exists 1, 1, 0; repeat split; reflexivity
        | exists 1, 1, 1; repeat split; reflexivity ].

(** every centring translation has one in the same set that takes it
    back to a lattice vector *)
Lemma lattice_translation_complement (k : Z) (ts : list vec) (t : vec) :
  LATTICE_TYPE_TRANSLATIONS k = Some ts → t ∈ ts →
  ∃ t', t' ∈ ts
        ∧ congruent_mod1 (at0 t + at0 t') 0
        ∧ congruent_mod1 (at1 t + at1 t') 0
        ∧ congruent_mod1 (at2 t + at2 t') 0.
Proof.
  intros H Ht.
  pose (sums_to_lattice_vector := fun u u' : vec =>
          congruent_mod1 (at0 u + at0 u') 0 ∧ congruent_mod1 (at1 u + at1 u') 0
          ∧ congruent_mod1 (at2 u + at2 u') 0).
  assert (Hcheck : ∀ u u' : vec,
            (∃ n0 n1 n2 : Z,
               (at0 u + at0 u' == inject_Z n0)%Q
               ∧ (at1 u + at1 u' == inject_Z n1)%Q
               ∧ (at2 u + at2 u' == inject_Z n2)%Q) →
            sums_to_lattice_vector u u').
  { intros u u' (n0 & n1 & n2 & H0 & H1 & H2).
    repeat split; [exists n0 | exists n1 | exists n2];
      rewrite ?H0, ?H1, ?H2; ring. }
  lattice_cases k H;
    repeat (apply elem_of_cons in Ht as [-> | Ht];
            [first
               [ eexists; split; [left|]; apply Hcheck; integer_sums
               | eexists; split; [right; left|]; apply Hcheck; integer_sums
               | eexists; split; [right; right; left|]; apply Hcheck;
                 integer_sums ]|]);
    inversion Ht.
Qed.

(** ** Reduction followed by expansion *)

Lemma contains_iff (x : SymmetryOperation.t) (l : list SymmetryOperation.t) :
  SymmetryOperation.contains x l = true
  ↔ ∃ y, y ∈ l
         ∧ SymmetryOperation.integer_code x = SymmetryOperation.integer_code y.
Proof.
  unfold SymmetryOperation.contains, SymmetryOperation.eq.
  rewrite existsb_exists. split; intros (y & Hy & Hc); exists y.
  - split; [now apply list_elem_of_In | now apply Z.eqb_eq].
  - split; [now apply list_elem_of_In | now apply Z.eqb_eq].
Qed.

Lemma contains_app_l (x : SymmetryOperation.t)
    (l k : list SymmetryOperation.t) :
  SymmetryOperation.contains x l = true →
  SymmetryOperation.contains x (l ++ k) = true.
Proof.
  rewrite !contains_iff. intros (y & Hy & Hc). exists y.
  split; [apply elem_of_app; now left | exact Hc].
Qed.

Lemma elem_of_encodings (c : Z) (l : list SymmetryOperation.t) :
  c ∈ encodings l ↔ ∃ x, x ∈ l ∧ SymmetryOperation.integer_code x = c.
Proof.
  unfold encodings. rewrite elem_of_list_to_set, list_elem_of_In, in_map_iff.
  split; intros (x & H1 & H2); exists x.
  - split; [now apply list_elem_of_In | exact H1].
  - split; [exact H2 | now apply list_elem_of_In].
Qed.

Lemma centering_break_iff (inversion : bool)
    (reduced : list SymmetryOperation.t) (x : SymmetryOperation.t)
    (ts : list vec) :
  centering_break inversion reduced x ts = true
  ↔ ∃ t, t ∈ ts
         ∧ ((inversion = true
             ∧ SymmetryOperation.contains
                 (SymmetryOperation.inverted (SymmetryOperation.add x t))
                 reduced = true)
            ∨ SymmetryOperation.contains (SymmetryOperation.add x t) reduced
              = true).
Proof.
  induction ts as [|t ts IH]; cbn [centering_break].
  - split; [discriminate | intros (t & H & _); inversion H].
  - destruct (inversion && _) eqn:Hinv.
    { apply andb_true_iff in Hinv. split; [|reflexivity].
      intros _. exists t. split; [left | now left]. }
    destruct (SymmetryOperation.contains (SymmetryOperation.add x t) reduced)
      eqn:Hc.
    { split; [|reflexivity]. intros _. exists t. split; [left | now right]. }
    rewrite IH. split.
    + intros (t' & Ht' & H). exists t'. split; [now right | exact H].
    + intros (t' & Ht' & H). apply elem_of_cons in Ht' as [-> | Ht'].
      * destruct H as [[Hi H] | H]; [|congruence].
        rewrite Hi, H in Hinv. discriminate Hinv.
      * exists t'. split; [exact Ht' | exact H].
Qed.

Lemma reachable_app (ts : list vec) (inversion : bool)
    (reduced more : list SymmetryOperation.t) (x : SymmetryOperation.t) :
  reachable ts inversion reduced x → reachable ts inversion (reduced ++ more) x.
Proof.
  unfold reachable.
  intros [H | [[Hi H] | (t & Ht & [[Hi H] | H])]].
  - left. now apply contains_app_l.
  - right. left. split; [exact Hi | now apply contains_app_l].
  - right. right. exists t. split; [exact Ht|]. left.
    split; [exact Hi | now apply contains_app_l].
  - right. right. exists t. split; [exact Ht|]. right.
    now apply contains_app_l.
Qed.

(** the loop leaves every candidate reachable from the list it
    returns *)
Lemma reduce_loop_reaches (ts : list vec) (inversion : bool)
    (todo reduced : list SymmetryOperation.t) :
  ∃ kept,
    reduce_loop ts inversion todo reduced = reduced ++ kept
    ∧ kept `sublist_of` todo
    ∧ ∀ x, x ∈ todo → reachable ts inversion (reduced ++ kept) x.
Proof.
  revert reduced. induction todo as [|x todo IH]; intros reduced.
  { exists []. split; [now rewrite app_nil_r|]. split; [constructor|].
    intros x H. inversion H. }
  cbn [reduce_loop].
  assert (Hskip : reachable ts inversion reduced x →
            ∃ kept,
              reduce_loop ts inversion todo reduced = reduced ++ kept
              ∧ kept `sublist_of` x :: todo
              ∧ ∀ y, y ∈ x :: todo → reachable ts inversion (reduced ++ kept) y).
  { intros Hx. destruct (IH reduced) as (kept & Hk & Hsub & Hreach).
    exists kept. split; [exact Hk|]. split; [now constructor|].
    intros y Hy. apply elem_of_cons in Hy as [-> | Hy]; [|now apply Hreach].
    now apply reachable_app. }
  destruct (SymmetryOperation.contains x reduced) eqn:H1;
    [apply Hskip; now left|].
  destruct (inversion && _) eqn:H2;
    [apply andb_true_iff in H2; apply Hskip; right; now left|].
  destruct (centering_break inversion reduced x ts) eqn:H3;
    [apply centering_break_iff in H3; apply Hskip; right; now right|].
  destruct (IH (reduced ++ [x])) as (kept & Hk & Hsub & Hreach).
  exists (x :: kept). rewrite Hk, <- app_assoc.
  split; [reflexivity|]. split; [now constructor|].
  intros y Hy. apply elem_of_cons in Hy as [-> | Hy].
  - left. apply contains_iff. exists x. split; [|reflexivity].
    apply elem_of_app. right. left.
  - specialize (Hreach y Hy). now rewrite <- app_assoc in Hreach.
Qed.

Lemma elem_of_expansion (ts : list vec) (inversion : bool)
    (reduced : list SymmetryOperation.t) (y : SymmetryOperation.t) :
  y ∈ expansion ts inversion reduced
  ↔ ∃ r c, r ∈ reduced
           ∧ (c = r ∨ ∃ t, t ∈ ts ∧ c = SymmetryOperation.add r t)
           ∧ (y = c ∨ (inversion = true ∧ y = SymmetryOperation.inverted c)).
Proof.
  assert (Hcentred : ∀ c,
            c ∈ flat_map (fun symop =>
                            symop :: List.map (SymmetryOperation.add symop) ts)
                  reduced
            ↔ ∃ r, r ∈ reduced
                   ∧ (c = r ∨ ∃ t, t ∈ ts ∧ c = SymmetryOperation.add r t)).
  { intros c. rewrite list_elem_of_In, in_flat_map. split.
    - intros (r & Hr & Hc). exists r. split; [now apply list_elem_of_In|].
      destruct Hc as [<- | Hc]; [now left | right].
      apply in_map_iff in Hc as (t & <- & Ht). exists t.
      split; [now apply list_elem_of_In | reflexivity].
    - intros (r & Hr & Hc). exists r. split; [now apply list_elem_of_In|].
      destruct Hc as [-> | (t & Ht & ->)]; [now left | right].
      apply in_map_iff. exists t. split; [reflexivity|].
      now apply list_elem_of_In. }
  unfold expansion. destruct inversion.
  - rewrite elem_of_app, Hcentred, list_elem_of_In, in_map_iff. split.
    + intros [(r & Hr & Hc) | (c & <- & Hc)].
      * exists r, y. split; [exact Hr|]. split; [exact Hc | now left].
      * apply list_elem_of_In, Hcentred in Hc as (r & Hr & Hc).
        exists r, c. split; [exact Hr|]. split; [exact Hc | now right].
    + intros (r & c & Hr & Hc & [-> | [_ ->]]).
      * left. eauto.
      * right. exists c. split; [reflexivity|].
        apply list_elem_of_In, Hcentred. eauto.
  - rewrite Hcentred. split.
    + intros (r & Hr & Hc). exists r, y. split; [exact Hr|].
      split; [exact Hc | now left].
    + intros (r & c & Hr & Hc & [-> | [Hi _]]); [eauto | discriminate Hi].
Qed.

Lemma valid_identity : valid_operation SymmetryOperation.identity = true.
Proof. vm_compute. reflexivity. Qed.

Section ExpandReduce.

Variable full_symops : list SymmetryOperation.t.
Variable translations : list vec.
Variable inversion : bool.
Variable lattice_type_value : Z.

Hypothesis translations_of_lattice :
  LATTICE_TYPE_TRANSLATIONS lattice_type_value = Some translations.
Hypothesis full_valid : ∀ x, x ∈ full_symops → valid_operation x = true.
Hypothesis full_identity :
  SymmetryOperation.contains SymmetryOperation.identity full_symops = true.
Hypothesis full_centred :
  ∀ x t, x ∈ full_symops → t ∈ translations →
         SymmetryOperation.contains (SymmetryOperation.add x t) full_symops
         = true.
Hypothesis full_inverted :
  inversion = true →
  ∀ x, x ∈ full_symops →
       SymmetryOperation.contains (SymmetryOperation.inverted x) full_symops
       = true.

Lemma represented_code (y : SymmetryOperation.t) :
  represented full_symops y →
  SymmetryOperation.integer_code y ∈ encodings full_symops.
Proof.
  intros (Hy & x & Hx & Hsame). apply elem_of_encodings. exists x.
  split; [exact Hx|]. symmetry.
  apply same_operation_code; [exact Hy | now apply full_valid | exact Hsame].
Qed.

Lemma represented_of_contains (y : SymmetryOperation.t) :
  valid_operation y = true →
  SymmetryOperation.contains y full_symops = true →
  represented full_symops y.
Proof.
  intros Hy Hc. apply contains_iff in Hc as (x & Hx & Hc).
  split; [exact Hy|]. exists x. split; [exact Hx|].
  apply code_same_operation; [exact Hy | now apply full_valid | exact Hc].
Qed.

Lemma represented_elem (x : SymmetryOperation.t) :
  x ∈ full_symops → represented full_symops x.
Proof.
  intros Hx. split; [now apply full_valid|]. exists x. split; [exact Hx|].
  apply same_operation_refl.
Qed.

Lemma represented_identity : represented full_symops SymmetryOperation.identity.
Proof. apply represented_of_contains; [apply valid_identity | exact full_identity]. Qed.

Lemma represented_add (y : SymmetryOperation.t) (t : vec) :
  represented full_symops y → t ∈ translations →
  represented full_symops (SymmetryOperation.add y t).
Proof.
  intros (Hy & x & Hx & Hsame) Ht.
  pose proof (lattice_translation_valid _ _ _ translations_of_lattice Ht) as Hvt.
  destruct (represented_of_contains (SymmetryOperation.add x t))
    as (_ & x' & Hx' & Hsame');
    [apply valid_add; [now apply full_valid | exact Hvt]
    | now apply full_centred|].
  split; [now apply valid_add|]. exists x'. split; [exact Hx'|].
  eapply same_operation_trans; [apply same_operation_add, Hsame | exact Hsame'].
Qed.

Lemma represented_inverted (y : SymmetryOperation.t) :
  inversion = true → represented full_symops y →
  represented full_symops (SymmetryOperation.inverted y).
Proof.
  intros Hi (Hy & x & Hx & Hsame).
  destruct (represented_of_contains (SymmetryOperation.inverted x))
    as (_ & x' & Hx' & Hsame');
    [apply valid_inverted; now apply full_valid | now apply full_inverted|].
  split; [now apply valid_inverted|]. exists x'. split; [exact Hx'|].
  eapply same_operation_trans;
    [apply same_operation_inverted, Hsame | exact Hsame'].
Qed.

(** expansion stays inside the full list *)
Lemma expansion_represented (reduced : list SymmetryOperation.t)
    (y : SymmetryOperation.t) :
  (∀ r, r ∈ reduced → represented full_symops r) →
  y ∈ expansion translations inversion reduced →
  represented full_symops y.
Proof.
  intros Hred Hy. apply elem_of_expansion in Hy as (r & c & Hr & Hc & Hy).
  assert (Hrep : represented full_symops c).
  { destruct Hc as [-> | (t & Ht & ->)]; [auto | apply represented_add; auto]. }
  destruct Hy as [-> | [Hi ->]]; [exact Hrep | now apply represented_inverted].
Qed.

(** expansion reaches every candidate the reduction passed over *)
Lemma reachable_in_expansion (reduced : list SymmetryOperation.t)
    (x : SymmetryOperation.t) :
  (∀ r, r ∈ reduced → valid_operation r = true) →
  valid_operation x = true →
  reachable translations inversion reduced x →
  SymmetryOperation.integer_code x
  ∈ encodings (expansion translations inversion reduced).
Proof.
  intros Hred Hx Hreach. apply elem_of_encodings.
  assert (Hvt : ∀ t, t ∈ translations →
                     valid_translation duodecimal_numerators t = true)
    by (intros t; apply (lattice_translation_valid _ _ _ translations_of_lattice)).
  destruct Hreach as [H | [[Hi H] | (t & Ht & [[Hi H] | H])]];
    apply contains_iff in H as (r & Hr & Hc);
    pose proof (Hred r Hr) as Hvr.
  - exists r. split; [|now symmetry].
    apply elem_of_expansion. exists r, r. auto.
  - exists (SymmetryOperation.inverted r). split.
    + apply elem_of_expansion. exists r, r. auto.
    + apply same_operation_code; [now apply valid_inverted | exact Hx|].
      eapply same_operation_trans; [|apply inverted_inverted, Hx].
      apply same_operation_inverted, same_operation_sym.
      apply code_same_operation;
        [now apply valid_inverted | exact Hvr | exact Hc].
  - exists (SymmetryOperation.inverted (SymmetryOperation.add r t)). split.
    + apply elem_of_expansion. exists r, (SymmetryOperation.add r t).
      split; [exact Hr|]. split; [right; eauto | right; auto].
    + apply same_operation_code;
        [apply valid_inverted, valid_add; auto | exact Hx|].
      eapply same_operation_trans;
        [|apply (inverted_add_inverted_add x t), Hx].
      apply same_operation_inverted, same_operation_add, same_operation_sym.
      apply code_same_operation;
        [apply valid_inverted, valid_add; auto | exact Hvr | exact Hc].
  - destruct (lattice_translation_complement _ _ _ translations_of_lattice Ht)
      as (t' & Ht' & H0 & H1 & H2).
    exists (SymmetryOperation.add r t'). split.
    + apply elem_of_expansion. exists r, (SymmetryOperation.add r t').
      split; [exact Hr|]. split; [right; eauto | now left].
    + apply same_operation_code; [apply valid_add; auto | exact Hx|].
      eapply same_operation_trans;
        [|apply (add_add_complement x t t'); assumption].
      apply same_operation_add, same_operation_sym.
      apply code_same_operation; [apply valid_add; auto | exact Hvr | exact Hc].
Qed.

End ExpandReduce.

Lemma closed_under_lattice_elim (full_symops : list SymmetryOperation.t)
    (latt : Z) :
  closed_under_lattice full_symops latt = true →
  ∃ ts,
    LATTICE_TYPE_TRANSLATIONS (Z.abs latt) = Some ts
    ∧ (∀ x t, x ∈ full_symops → t ∈ ts →
              SymmetryOperation.contains (SymmetryOperation.add x t) full_symops
              = true)
    ∧ ((0 <? latt) = true →
       ∀ x, x ∈ full_symops →
            SymmetryOperation.contains (SymmetryOperation.inverted x)
              full_symops = true).
Proof.
  unfold closed_under_lattice.
  destruct (LATTICE_TYPE_TRANSLATIONS (Z.abs latt)) as [ts|]; [|discriminate].
  rewrite forallb_forall. intros H. exists ts. split; [reflexivity|].
  split.
  - intros x t Hx Ht. apply list_elem_of_In in Hx.
    specialize (H x Hx). apply andb_true_iff in H as [H _].
    rewrite forallb_forall in H. apply H. now apply list_elem_of_In.
  - intros Hi x Hx. apply list_elem_of_In in Hx.
    specialize (H x Hx). apply andb_true_iff in H as [_ H].
    now rewrite Hi in H.
Qed.

Lemma expanded_symmetry_list_with_identity
    (reduced : list SymmetryOperation.t) (latt : Z) (ts : list vec) :
  LATTICE_TYPE_TRANSLATIONS (Z.abs latt) = Some ts →
  SymmetryOperation.contains SymmetryOperation.identity reduced = true →
  expanded_symmetry_list reduced latt
  = (reduced, Ok (expansion ts (0 <? latt) reduced)).
Proof.
  intros Hts Hid. unfold expanded_symmetry_list, expansion.
  now rewrite Hts, Hid.
Qed.

(** The closure of the input matters: the identity with the inversion
    through (1/4, 1/4, 1/4), passed with a positive lattice type, is
    not closed under [inverted], and the expansion of its reduction
    holds two operations the input does not. *)
Lemma expand_reduce_needs_closure :
  let full_symops :=
    List.map SymmetryOperation.from_integer_code [16484; 18544584] in
  closed_under_lattice full_symops 1 = false
  ∧ reduced_symmetry_list full_symops 1 = Ok full_symops
  ∧ List.map SymmetryOperation.integer_code
      <$> snd (expanded_symmetry_list full_symops 1)
    = Ok [16484; 18544584; 3198; 18557870].
Proof.
  cbn zeta. split; [vm_compute; reflexivity|].
  split; vm_compute; reflexivity.
Qed.

(** * Further properties of the symmetry engine *)

(** ** Packed integers beyond the round trip *)

Lemma decode_periodic (code : Z) :
  decode_symm_int code = decode_symm_int (code mod 34012224).
Proof.
  rewrite !decode_unfold. cbv zeta.
  assert (Hr : (code mod 34012224) mod 19683 = code mod 19683)
    by (apply Z.mod_mod_divide; exists 1728; reflexivity).
  assert (Ht : code mod 34012224 / 19683 = (code / 19683) mod 1728).
  { change 34012224 with (19683 * 1728).
    rewrite Z.rem_mul_r by lia.
    rewrite Z.mul_comm, Z.div_add by lia.
    rewrite Z.div_small by (apply Z.mod_pos_bound; lia). reflexivity. }
  rewrite Hr, Ht.
  rewrite (Z.mod_mod (code / 19683) 1728) by lia.
  rewrite (Z.mod_mod_divide (code / 19683) 1728 144)
    by (exists 12; reflexivity).
  rewrite (Z.mod_mod_divide (code / 19683) 1728 12)
    by (exists 144; reflexivity).
  reflexivity.
Qed.

Lemma mod1_twelfth_small (k : Z) :
  0 <= k < 12 → (np.mod1 (inject_Z k / 12) == inject_Z k / 12)%Q.
Proof. intros Hk. apply mod1_small; now apply twelfth_range. Qed.

(** X1. Encoding what a packed integer decodes to gives the integer
    back modulo 3^9 * 12^3: exactly for the codes below that bound,
    and reduced into it for every other integer, negative ones
    included. *)
Theorem encode_decode_mod (code : Z) :
  encode_symm_int (fst (decode_symm_int code)) (snd (decode_symm_int code))
  = code mod 34012224
  ∧ SymmetryOperation.integer_code
      (SymmetryOperation.new (fst (decode_symm_int code))
         (snd (decode_symm_int code)))
    = code mod 34012224.
Proof.
  assert (Hrange : 0 <= code mod 34012224 < 34012224)
    by (apply Z.mod_pos_bound; lia).
  pose proof (valid_from_integer_code _ Hrange) as Hvalid.
  apply valid_operation_parts in Hvalid as (_ & _ & Hcode).
  unfold SymmetryOperation.from_integer_code in Hcode.
  rewrite <- decode_periodic in Hcode.
  destruct (decode_symm_int code) as [rot trans] eqn:Hdec.
  cbn [SymmetryOperation.integer_code SymmetryOperation._integer_code
       SymmetryOperation.rotation SymmetryOperation.translation
       SymmetryOperation.new fst snd] in *.
  split; [|now symmetry].
  rewrite Hcode. apply encode_proper.
  - unfold mat_eq, vec_eq. repeat split; reflexivity.
  - rewrite decode_unfold in Hdec. cbv zeta in Hdec.
    injection Hdec as _ <-. unfold vec_eq. cbn [amap at0 at1 at2].
    rewrite !mod1_twelfth_small; [repeat split; reflexivity|..];
      eapply digit_bound; try reflexivity; lia.
Qed.

(** X2. Whatever integer is decoded, the rotation has entries in
    -1, 0, 1 and the translation components are twelfths of the unit
    interval. *)
Theorem decode_always_valid (code : Z) :
  valid_rotation (fst (decode_symm_int code)) = true
  ∧ valid_translation duodecimal_numerators (snd (decode_symm_int code))
    = true.
Proof.
  rewrite decode_unfold. cbv zeta. cbn [fst snd].
  unfold valid_rotation, valid_translation. cbn [at0 at1 at2].
  rewrite !is_rotation_entry_digit
    by (eapply digit_bound; try reflexivity; lia).
  split; [reflexivity|].
  set (t := code / 19683).
  rewrite (is_twelfth_intro _ (t mod 1728 / 144)),
    (is_twelfth_intro _ (t mod 144 / 12)), (is_twelfth_intro _ (t mod 12 / 1));
    try reflexivity; eapply digit_bound; try reflexivity; lia.
Qed.

(** ** Equality, inversion and translation of operations *)



Lemma in_unit_interval_mod1 (v : vec) : in_unit_interval (amap np.mod1 v).
Proof.
  unfold in_unit_interval. cbn [amap at0 at1 at2].
  repeat split; apply mod1_range.
Qed.

(** X4. The translation of an operation is reduced modulo 1: that of
    an operation made from any packed integer, that of the
    constructor given a vector of twelfths, and those of [+] and [-]
    of a vector of twelfths and of [inverted] on a valid operation. *)
Theorem translation_always_reduced (s : SymmetryOperation.t) (rotation : mat)
    (value : vec) (code : Z) :
  valid_operation s = true →
  valid_translation duodecimal_numerators value = true →
  in_unit_interval
    (SymmetryOperation.translation (SymmetryOperation.new rotation value))
  ∧ in_unit_interval
      (SymmetryOperation.translation (SymmetryOperation.add s value))
  ∧ in_unit_interval
      (SymmetryOperation.translation (SymmetryOperation.sub s value))
  ∧ in_unit_interval
      (SymmetryOperation.translation (SymmetryOperation.inverted s))
  ∧ in_unit_interval
      (SymmetryOperation.translation
         (SymmetryOperation.from_integer_code code)).
Proof.
  intros _ _. repeat split; try apply in_unit_interval_mod1.
  all: unfold SymmetryOperation.from_integer_code;
    destruct (decode_symm_int code); apply in_unit_interval_mod1.
Qed.

Lemma translation_always_reduced_witness :
  let s := SymmetryOperation.from_integer_code 18544584 in
  let value := (Arr3 (2 # 3) (1 # 3) (1 # 3))%Q in
  valid_operation s = true
  ∧ valid_translation duodecimal_numerators value = true
  ∧ in_unit_interval
      (SymmetryOperation.translation (SymmetryOperation.add s value))
  ∧ in_unit_interval
      (SymmetryOperation.translation (SymmetryOperation.inverted s)).
Proof.
  intros s value. split; [reflexivity|]. split; [reflexivity|].
  destruct (translation_always_reduced s identity_rotation value 16484)
    as (_ & Hadd & _ & Hinv & _); [reflexivity | reflexivity|].
  split; [exact Hadd | exact Hinv].
Defined.



Lemma mod1_add_integer (tx : Q) (n : Z) :
  (0 <= tx)%Q → (tx < 1)%Q → (np.mod1 (tx + inject_Z n) == tx)%Q.
Proof.
  intros H0 H1. apply mod1_congruent_small; [|exact H0|exact H1].
  exists n. reflexivity.
Qed.

(** equality of codes from equality of floats, for operations that
    come out of the constructor *)
Lemma same_operation_eq (x y : SymmetryOperation.t) :
  SymmetryOperation._integer_code x = None →
  valid_operation y = true → same_operation x y →
  SymmetryOperation.eq x y = true.
Proof.
  intros Hx Hy [Hr Ht]. unfold SymmetryOperation.eq. apply Z.eqb_eq.
  apply valid_operation_parts in Hy as (_ & _ & ->).
  unfold SymmetryOperation.integer_code. rewrite Hx.
  now apply encode_proper.
Qed.

(** X5. Inverting twice gives an operation equal to the one started
    from. *)
Theorem inverted_involutive (x : SymmetryOperation.t) :
  valid_operation x = true →
  SymmetryOperation.eq
    (SymmetryOperation.inverted (SymmetryOperation.inverted x)) x = true.
Proof.
  intros Hx. apply same_operation_eq; [reflexivity | exact Hx|].
  now apply inverted_inverted.
Qed.

Lemma inverted_involutive_witness :
  let x := SymmetryOperation.new
             (Arr3 (Arr3 0 (-1) 0) (Arr3 1 (-1) 0) (Arr3 0 0 1))%Q
             (Arr3 (2 # 3) (1 # 3) (5 # 6))%Q in
  valid_operation x = true
  ∧ SymmetryOperation.eq
      (SymmetryOperation.inverted (SymmetryOperation.inverted x)) x = true.
Proof.
  intros x. split; [reflexivity|].
  apply (inverted_involutive x). reflexivity.
Defined.



(** ** Size, errors and fixed points of expansion and reduction *)

Lemma length_centred (ts : list vec) (reduced : list SymmetryOperation.t) :
  length (flat_map (fun symop =>
                      symop :: List.map (SymmetryOperation.add symop) ts)
            reduced)
  = (length reduced * (1 + length ts))%nat.
Proof.
  induction reduced as [|r reduced IH]; [reflexivity|].
  cbn [flat_map length]. rewrite length_app, IH.
  cbn [length]. rewrite List.length_map. lia.
Qed.

(** X7. A call of [expanded_symmetry_list] that returns gives one
    operation per operation of the caller's list (as it stands after
    the call) and per centring translation, the zero translation
    counted, and twice that number when the lattice type is
    positive. *)
Theorem expanded_symmetry_list_length
    (reduced_symops : list SymmetryOperation.t) (lattice_type : Z)
    (translations : list vec) :
  LATTICE_TYPE_TRANSLATIONS (Z.abs lattice_type) = Some translations →
  ∃ full_symops,
    snd (expanded_symmetry_list reduced_symops lattice_type) = Ok full_symops
    ∧ length full_symops
      = (length (fst (expanded_symmetry_list reduced_symops lattice_type))
         * (1 + length translations)
         * (if (0 <? lattice_type)%Z then 2 else 1))%nat.
Proof.
  intros Hts. unfold expanded_symmetry_list. rewrite Hts. cbn [fst snd].
  eexists. split; [reflexivity|].
  destruct (0 <? lattice_type).
  - rewrite length_app, List.length_map, length_centred. lia.
  - rewrite length_centred. lia.
Qed.

Lemma expanded_symmetry_list_length_witness :
  let reduced_symops := [SymmetryOperation.from_integer_code 3360] in
  LATTICE_TYPE_TRANSLATIONS (Z.abs 4)
  = Some [Arr3 0 (1 # 2) (1 # 2); Arr3 (1 # 2) 0 (1 # 2);
          Arr3 (1 # 2) (1 # 2) 0]%Q
  ∧ ∃ full_symops,
      snd (expanded_symmetry_list reduced_symops 4) = Ok full_symops
      ∧ length full_symops = 16%nat.
Proof.
  intros reduced_symops. split; [reflexivity|].
  destruct (expanded_symmetry_list_length reduced_symops 4 _ eq_refl)
    as (full_symops & Hfull & Hlen).
  exists full_symops. split; [exact Hfull | exact Hlen].
Defined.

(** X8. With a lattice type whose absolute value is not one of 1..7,
    zero included, both functions raise the [KeyError] of the
    translation table, and [expanded_symmetry_list] leaves the
    caller's list as it was. *)
Theorem lattice_type_key_error
    (symops : list SymmetryOperation.t) (lattice_type : Z) :
  ¬ 1 <= Z.abs lattice_type <= 7 →
  expanded_symmetry_list symops lattice_type
  = (symops, Raise (KeyError_int (Z.abs lattice_type)))
  ∧ reduced_symmetry_list symops lattice_type
    = Raise (KeyError_int (Z.abs lattice_type)).
Proof.
  intros Hk. unfold expanded_symmetry_list, reduced_symmetry_list.
  now rewrite (lattice_translations_undefined _ Hk).
Qed.

Lemma lattice_type_key_error_witness :
  ¬ 1 <= Z.abs 0 <= 7
  ∧ expanded_symmetry_list [] 0 = ([], Raise (KeyError_int 0))
  ∧ reduced_symmetry_list [] 0 = Raise (KeyError_int 0).
Proof.
  split; [cbn; lia|].
  apply (lattice_type_key_error [] 0). cbn. lia.
Defined.

Lemma contains_false_iff (x : SymmetryOperation.t)
    (l : list SymmetryOperation.t) :
  SymmetryOperation.contains x l = false
  ↔ SymmetryOperation.integer_code x
    ∉ List.map SymmetryOperation.integer_code l.
Proof.
  rewrite <- not_true_iff_false, contains_iff, list_elem_of_In, in_map_iff.
  split; intros H (y & H1 & H2); apply H; exists y.
  - split; [now apply list_elem_of_In | now symmetry].
  - split; [now symmetry | now apply list_elem_of_In].
Qed.

Lemma reduce_loop_NoDup (ts : list vec) (inversion : bool)
    (todo reduced : list SymmetryOperation.t) :
  NoDup (List.map SymmetryOperation.integer_code reduced) →
  NoDup (List.map SymmetryOperation.integer_code
           (reduce_loop ts inversion todo reduced)).
Proof.
  revert reduced. induction todo as [|x todo IH]; intros reduced Hnd;
    [exact Hnd|].
  cbn [reduce_loop].
  destruct (SymmetryOperation.contains x reduced) eqn:Hc; [now apply IH|].
  destruct (inversion && _); [now apply IH|].
  destruct (centering_break _ _ _ _); [now apply IH|].
  apply IH. rewrite List.map_app. cbn [List.map].
  apply NoDup_app. split; [exact Hnd|]. split.
  - intros c Hin Hc'. apply list_elem_of_singleton in Hc'. subst c.
    now apply contains_false_iff in Hc.
  - apply NoDup_singleton.
Qed.

(** X9. The list [reduced_symmetry_list] returns begins with the
    identity and holds no two operations with the same encoding,
    whatever repetitions the input has. *)
Theorem reduced_symmetry_list_distinct
    (full_symops : list SymmetryOperation.t) (lattice_type : Z) :
  1 <= Z.abs lattice_type <= 7 →
  ∃ kept,
    reduced_symmetry_list full_symops lattice_type
    = Ok (SymmetryOperation.identity :: kept)
    ∧ NoDup (List.map SymmetryOperation.integer_code
               (SymmetryOperation.identity :: kept)).
Proof.
  intros Hk. destruct (lattice_translations_defined _ Hk) as [ts Hts].
  unfold reduced_symmetry_list. rewrite Hts.
  destruct (reduce_loop_sublist ts (0 <? lattice_type) full_symops
              [SymmetryOperation.identity]) as (kept & Hloop & _).
  exists kept. split; [now rewrite Hloop|].
  change (SymmetryOperation.identity :: kept)
    with ([SymmetryOperation.identity] ++ kept).
  rewrite <- Hloop. apply reduce_loop_NoDup. apply NoDup_singleton.
Qed.

Lemma reduced_symmetry_list_distinct_witness :
  let x := SymmetryOperation.from_integer_code 3360 in
  1 <= Z.abs (-1) <= 7
  ∧ ∃ kept,
      reduced_symmetry_list [x; x; SymmetryOperation.identity; x] (-1)
      = Ok (SymmetryOperation.identity :: kept)
      ∧ NoDup (List.map SymmetryOperation.integer_code
                 (SymmetryOperation.identity :: kept)).
Proof.
  intros x. split; [cbn; lia|].
  apply (reduced_symmetry_list_distinct
           [x; x; SymmetryOperation.identity; x] (-1)).
  cbn. lia.
Defined.

(** a list the loop has kept is kept again, whole and in order, when
    it is offered to the loop in the same state *)
Lemma reduce_loop_kept_again (ts : list vec) (inversion : bool)
    (todo reduced kept : list SymmetryOperation.t) :
  reduce_loop ts inversion todo reduced = reduced ++ kept →
  reduce_loop ts inversion kept reduced = reduced ++ kept.
Proof.
  revert reduced kept. induction todo as [|x todo IH]; intros reduced kept.
  { cbn [reduce_loop]. intros H.
    rewrite <- (app_nil_r reduced) in H at 1. apply app_inv_head in H.
    subst kept. cbn. now rewrite app_nil_r. }
  cbn [reduce_loop].
  destruct (SymmetryOperation.contains x reduced) eqn:H1; [apply IH|].
  destruct (inversion
            && SymmetryOperation.contains (SymmetryOperation.inverted x)
                 reduced) eqn:H2; [apply IH|].
  destruct (centering_break inversion reduced x ts) eqn:H3; [apply IH|].
  intros Hloop.
  destruct (reduce_loop_sublist ts inversion todo (reduced ++ [x]))
    as (kept' & Hk' & _).
  rewrite Hk', <- app_assoc in Hloop. apply app_inv_head in Hloop.
  subst kept. cbn [app reduce_loop]. rewrite H1, H2, H3.
  rewrite (IH (reduced ++ [x]) kept' Hk'), <- app_assoc. reflexivity.
Qed.

(** X10. Reduction is idempotent: reducing the list that
    [reduced_symmetry_list] returned, with the same lattice type,
    returns that list again. *)
Theorem reduced_symmetry_list_idempotent
    (full_symops reduced_symops : list SymmetryOperation.t)
    (lattice_type : Z) :
  reduced_symmetry_list full_symops lattice_type = Ok reduced_symops →
  reduced_symmetry_list reduced_symops lattice_type = Ok reduced_symops.
Proof.
  unfold reduced_symmetry_list.
  destruct (LATTICE_TYPE_TRANSLATIONS (Z.abs lattice_type)) as [ts|];
    [|discriminate].
  intros H. injection H as H.
  destruct (reduce_loop_sublist ts (0 <? lattice_type) full_symops
              [SymmetryOperation.identity]) as (kept & Hloop & _).
  rewrite Hloop in H. subst reduced_symops. f_equal.
  cbn [app reduce_loop].
  change (SymmetryOperation.contains SymmetryOperation.identity
            [SymmetryOperation.identity]) with true.
  cbv iota.
  apply (reduce_loop_kept_again ts (0 <? lattice_type) full_symops
           [SymmetryOperation.identity] kept Hloop).
Qed.

Lemma reduced_symmetry_list_idempotent_witness :
  let full_symops :=
    List.map SymmetryOperation.from_integer_code
      [3360; 16484; 18544746; 18557870] in
  let reduced_symops :=
    List.map SymmetryOperation.from_integer_code [16484; 3360] in
  reduced_symmetry_list full_symops (-2) = Ok reduced_symops
  ∧ reduced_symmetry_list reduced_symops (-2) = Ok reduced_symops.
Proof.
  intros full_symops reduced_symops.
  assert (H : reduced_symmetry_list full_symops (-2) = Ok reduced_symops)
    by (vm_compute; reflexivity).
  split; [exact H|].
  exact (reduced_symmetry_list_idempotent full_symops reduced_symops (-2) H).
Defined.

(** ** What expansion produces is a full operation list *)

(** the component sums of two vectors equal those of a third up to
    integers, each 0 or 1 *)
Ltac sum_offsets :=
  solve [ exists 0, 0, 0; repeat split; reflexivity
        | exists 0, 0, 1; repeat split; reflexivity
        | exists 0, 1, 0; repeat split; reflexivity
        | exists 0, 1, 1; repeat split; reflexivity
        | exists 1, 0, 0; repeat split; reflexivity
        | exists 1, 0, 1; repeat split; reflexivity
        | exists 1, 1, 0; repeat split; reflexivity
        | exists 1, 1, 1; repeat split; reflexivity ].

(** the centring translations of a lattice type, with the zero
    translation, are closed under addition modulo the lattice *)
Lemma lattice_translation_sum (k : Z) (ts : list vec) (t t' : vec) :
  LATTICE_TYPE_TRANSLATIONS k = Some ts → t ∈ ts → t' ∈ ts →
  ∃ t'', t'' ∈ zero_translation :: ts
         ∧ congruent_mod1 (at0 t + at0 t') (at0 t'')
         ∧ congruent_mod1 (at1 t + at1 t') (at1 t'')
         ∧ congruent_mod1 (at2 t + at2 t') (at2 t'').
Proof.
  intros H Ht Ht'.
  assert (Hcheck : ∀ u u' u'' : vec,
            (∃ n0 n1 n2 : Z,
               (at0 u + at0 u' == at0 u'' + inject_Z n0)%Q
               ∧ (at1 u + at1 u' == at1 u'' + inject_Z n1)%Q
               ∧ (at2 u + at2 u' == at2 u'' + inject_Z n2)%Q) →
            congruent_mod1 (at0 u + at0 u') (at0 u'')
            ∧ congruent_mod1 (at1 u + at1 u') (at1 u'')
            ∧ congruent_mod1 (at2 u + at2 u') (at2 u'')).
  { intros u u' u'' (n0 & n1 & n2 & H0 & H1 & H2).
    repeat split; [exists n0 | exists n1 | exists n2]; assumption. }
  lattice_cases k H;
    repeat (apply elem_of_cons in Ht as [-> | Ht];
            [repeat (apply elem_of_cons in Ht' as [-> | Ht'];
                     [first
                        [ eexists; split; [left|]; apply Hcheck; sum_offsets
                        | eexists; split; [right; left|]; apply Hcheck;
                          sum_offsets
                        | eexists; split; [right; right; left|]; apply Hcheck;
                          sum_offsets
                        | eexists; split; [right; right; right; left|];
                          apply Hcheck; sum_offsets ]|]);
             inversion Ht'|]);
    inversion Ht.
Qed.

Lemma mod1_add_add (tx t t' t'' : Q) :
  congruent_mod1 (t + t') t'' →
  (np.mod1 (np.mod1 (tx + t) + t') == np.mod1 (tx + t''))%Q.
Proof.
  intros [n Hn]. apply mod1_congruent.
  destruct (congruent_mod1_mod1 (tx + t)) as [m Hm]. exists (m + n).
  rewrite Hm.
  qreplace (tx + t + inject_Z m + t')%Q with (tx + (t + t') + inject_Z m)%Q
    by ring.
  rewrite Hn, inject_Z_plus. ring.
Qed.

Lemma add_add_sum (x : SymmetryOperation.t) (t t' t'' : vec) :
  congruent_mod1 (at0 t + at0 t') (at0 t'') →
  congruent_mod1 (at1 t + at1 t') (at1 t'') →
  congruent_mod1 (at2 t + at2 t') (at2 t'') →
  same_operation (SymmetryOperation.add (SymmetryOperation.add x t) t')
    (SymmetryOperation.add x t'').
Proof.
  open_operation x. destruct t, t', t''. cbn [at0 at1 at2]. intros H0 H1 H2.
  unfold same_operation, mat_eq, vec_eq, SymmetryOperation.add,
    SymmetryOperation.new.
  cbn [SymmetryOperation.rotation SymmetryOperation.translation
       at0 at1 at2 amap azip].
  repeat split; try reflexivity; now apply mod1_add_add.
Qed.

Lemma add_zero (x : SymmetryOperation.t) :
  valid_operation x = true →
  same_operation (SymmetryOperation.add x zero_translation) x.
Proof.
  open_operation x. intros Hx. open_translation_ranges Hx.
  unfold same_operation, mat_eq, vec_eq, SymmetryOperation.add,
    SymmetryOperation.new, zero_translation.
  cbn [SymmetryOperation.rotation SymmetryOperation.translation
       at0 at1 at2 amap azip].
  repeat split; try reflexivity;
    apply (mod1_add_integer _ 0); tauto.
Qed.

Lemma mod1_opp_add (tc t t' : Q) :
  congruent_mod1 (t + t') 0 →
  (np.mod1 (np.mod1 (- tc) + t) == np.mod1 (- np.mod1 (tc + t')))%Q.
Proof.
  intros [n Hn]. apply mod1_congruent.
  destruct (congruent_mod1_mod1 (- tc)) as [m Hm].
  destruct (congruent_mod1_mod1 (tc + t')) as [m' Hm'].
  exists (m + n + m'). rewrite Hm, Hm'.
  qreplace (- tc + inject_Z m + t)%Q
    with (- tc - t' + (t + t') + inject_Z m)%Q by ring.
  rewrite Hn, !inject_Z_plus. ring.
Qed.

(** moving an inverse is inverting the operation moved the other way *)
Lemma add_inverted (c : SymmetryOperation.t) (t t' : vec) :
  congruent_mod1 (at0 t + at0 t') 0 → congruent_mod1 (at1 t + at1 t') 0 →
  congruent_mod1 (at2 t + at2 t') 0 →
  same_operation (SymmetryOperation.add (SymmetryOperation.inverted c) t)
    (SymmetryOperation.inverted (SymmetryOperation.add c t')).
Proof.
  open_operation c. destruct t, t'. cbn [at0 at1 at2]. intros H0 H1 H2.
  unfold same_operation, mat_eq, vec_eq, SymmetryOperation.add,
    SymmetryOperation.inverted, SymmetryOperation.new.
  cbn [SymmetryOperation.rotation SymmetryOperation.translation
       at0 at1 at2 amap azip].
  repeat split; try reflexivity; now apply mod1_opp_add.
Qed.

Lemma contains_same_operation (z w : SymmetryOperation.t)
    (l : list SymmetryOperation.t) :
  valid_operation z = true → valid_operation w = true →
  same_operation z w → w ∈ l → SymmetryOperation.contains z l = true.
Proof.
  intros Hz Hw Hsame Hin. apply contains_iff. exists w.
  split; [exact Hin | now apply same_operation_code].
Qed.

Section Expansion.

Variable translations : list vec.
Variable inversion : bool.
Variable lattice_type_value : Z.
Variable reduced : list SymmetryOperation.t.

Hypothesis translations_of_lattice :
  LATTICE_TYPE_TRANSLATIONS lattice_type_value = Some translations.
Hypothesis reduced_valid : ∀ r, r ∈ reduced → valid_operation r = true.

Lemma expansion_valid (y : SymmetryOperation.t) :
  y ∈ expansion translations inversion reduced → valid_operation y = true.
Proof.
  intros Hy. apply elem_of_expansion in Hy as (r & c & Hr & Hc & Hy).
  assert (Hvc : valid_operation c = true).
  { destruct Hc as [-> | (t & Ht & ->)]; [auto|].
    apply valid_add; [auto|].
    exact (lattice_translation_valid _ _ _ translations_of_lattice Ht). }
  destruct Hy as [-> | [_ ->]]; [exact Hvc | now apply valid_inverted].
Qed.

(** a centred copy moved by a centring translation is a centred copy *)
Lemma centred_add (r : SymmetryOperation.t) (c : SymmetryOperation.t)
    (t' : vec) :
  r ∈ reduced →
  c = r ∨ (∃ t, t ∈ translations ∧ c = SymmetryOperation.add r t) →
  t' ∈ translations →
  ∃ c', (c' = r ∨ ∃ t, t ∈ translations ∧ c' = SymmetryOperation.add r t)
        ∧ same_operation (SymmetryOperation.add c t') c'.
Proof.
  intros Hr Hc Ht'. destruct Hc as [-> | (t & Ht & ->)].
  - exists (SymmetryOperation.add r t'). split; [right; eauto|].
    apply same_operation_refl.
  - destruct (lattice_translation_sum _ _ _ _ translations_of_lattice Ht Ht')
      as (t'' & Ht'' & H0 & H1 & H2).
    apply elem_of_cons in Ht'' as [-> | Ht''].
    + exists r. split; [now left|].
      eapply same_operation_trans;
        [apply (add_add_sum r t t' zero_translation); assumption|].
      apply add_zero. auto.
    + exists (SymmetryOperation.add r t''). split; [right; eauto|].
      now apply add_add_sum.
Qed.

Lemma expansion_add_closed (y : SymmetryOperation.t) (t' : vec) :
  y ∈ expansion translations inversion reduced → t' ∈ translations →
  SymmetryOperation.contains (SymmetryOperation.add y t')
    (expansion translations inversion reduced) = true.
Proof.
  intros Hy Ht'.
  pose proof (lattice_translation_valid _ _ _ translations_of_lattice Ht')
    as Hvt'.
  pose proof (expansion_valid y Hy) as Hvy.
  apply elem_of_expansion in Hy as (r & c & Hr & Hc & Hy).
  destruct Hy as [-> | [Hi ->]].
  - destruct (centred_add r c t' Hr Hc Ht') as (c' & Hc' & Hsame).
    assert (Hin : c' ∈ expansion translations inversion reduced)
      by (apply elem_of_expansion; exists r, c'; auto).
    eapply contains_same_operation; [| |exact Hsame|exact Hin].
    + now apply valid_add.
    + now apply expansion_valid.
  - destruct (lattice_translation_complement _ _ _ translations_of_lattice Ht')
      as (t'' & Ht'' & H0 & H1 & H2).
    destruct (centred_add r c t'' Hr Hc Ht'') as (c' & Hc' & Hsame).
    assert (Hin : SymmetryOperation.inverted c'
                  ∈ expansion translations inversion reduced)
      by (apply elem_of_expansion; exists r, c'; auto).
    eapply contains_same_operation; [| | |exact Hin].
    + now apply valid_add.
    + now apply expansion_valid.
    + eapply same_operation_trans; [now apply (add_inverted c t' t'')|].
      now apply same_operation_inverted.
Qed.

Lemma expansion_inverted_closed (y : SymmetryOperation.t) :
  inversion = true →
  y ∈ expansion translations inversion reduced →
  SymmetryOperation.contains (SymmetryOperation.inverted y)
    (expansion translations inversion reduced) = true.
Proof.
  intros Hi Hy. pose proof (expansion_valid y Hy) as Hvy.
  apply elem_of_expansion in Hy as (r & c & Hr & Hc & Hy).
  assert (Hin : c ∈ expansion translations inversion reduced)
    by (apply elem_of_expansion; exists r, c; auto).
  pose proof (expansion_valid c Hin) as Hvc.
  destruct Hy as [-> | [_ ->]].
  - apply contains_iff. exists (SymmetryOperation.inverted c).
    split; [|reflexivity]. apply elem_of_expansion. exists r, c. auto.
  - eapply contains_same_operation; [| | |exact Hin].
    + now apply valid_inverted.
    + exact Hvc.
    + now apply inverted_inverted.
Qed.

End Expansion.

Lemma closed_under_lattice_intro (full_symops : list SymmetryOperation.t)
    (latt : Z) (ts : list vec) :
  LATTICE_TYPE_TRANSLATIONS (Z.abs latt) = Some ts →
  (∀ x t, x ∈ full_symops → t ∈ ts →
          SymmetryOperation.contains (SymmetryOperation.add x t) full_symops
          = true) →
  ((0 <? latt) = true →
   ∀ x, x ∈ full_symops →
        SymmetryOperation.contains (SymmetryOperation.inverted x) full_symops
        = true) →
  closed_under_lattice full_symops latt = true.
Proof.
  intros Hts Hcen Hinv. unfold closed_under_lattice. rewrite Hts.
  apply forallb_forall. intros x Hx. apply list_elem_of_In in Hx.
  apply andb_true_iff. split.
  - apply forallb_forall. intros t Ht. apply list_elem_of_In in Ht. auto.
  - destruct (0 <? latt); [auto | reflexivity].
Qed.

(** what a call that returns leaves in the caller's list and gives
    back *)
Lemma expanded_symmetry_list_expansion
    (reduced : list SymmetryOperation.t) (latt : Z) (ts : list vec) :
  LATTICE_TYPE_TRANSLATIONS (Z.abs latt) = Some ts →
  ∃ reduced',
    expanded_symmetry_list reduced latt
    = (reduced', Ok (expansion ts (0 <? latt) reduced'))
    ∧ SymmetryOperation.contains SymmetryOperation.identity reduced' = true
    ∧ ∀ r, r ∈ reduced' → r ∈ reduced ∨ r = SymmetryOperation.identity.
Proof.
  intros Hts. unfold expanded_symmetry_list, expansion. rewrite Hts.
  destruct (SymmetryOperation.contains SymmetryOperation.identity reduced)
    eqn:Hc; cbn [negb].
  - exists reduced. split; [reflexivity|]. split; [exact Hc | now left].
  - exists (reduced ++ [SymmetryOperation.identity]).
    split; [reflexivity|]. split.
    + apply contains_iff. exists SymmetryOperation.identity.
      split; [apply elem_of_app; right; left | reflexivity].
    + intros r Hr. apply elem_of_app in Hr as [Hr | Hr]; [now left | right].
      now apply list_elem_of_singleton in Hr.
Qed.

(** an expansion of valid operations that hold the identity is a list
    of valid operations that holds the identity and is closed under the
    centring translations and, with inversion, under [inverted] *)
Lemma expansion_is_full (reduced : list SymmetryOperation.t) (latt : Z)
    (ts : list vec) :
  LATTICE_TYPE_TRANSLATIONS (Z.abs latt) = Some ts →
  (∀ r, r ∈ reduced → valid_operation r = true) →
  SymmetryOperation.contains SymmetryOperation.identity reduced = true →
  forallb valid_operation (expansion ts (0 <? latt) reduced) = true
  ∧ SymmetryOperation.contains SymmetryOperation.identity
      (expansion ts (0 <? latt) reduced) = true
  ∧ closed_under_lattice (expansion ts (0 <? latt) reduced) latt = true.
Proof.
  intros Hts Hvalid Hid. split; [|split].
  - apply forallb_forall. intros y Hy. apply list_elem_of_In in Hy.
    now apply (expansion_valid ts (0 <? latt) (Z.abs latt) reduced).
  - apply contains_iff in Hid as (r & Hr & Hc). apply contains_iff.
    exists r. split; [|exact Hc].
    apply elem_of_expansion. exists r, r. auto.
  - apply (closed_under_lattice_intro _ _ ts Hts).
    + intros x t Hx Ht.
      now apply (expansion_add_closed ts (0 <? latt) (Z.abs latt) reduced).
    + intros Hi x Hx.
      now apply (expansion_inverted_closed ts (0 <? latt) (Z.abs latt) reduced).
Qed.

Lemma centering_to_latt_range (centering : string) (l : Z) :
  SpaceGroup.centering_to_latt !! centering = Some l → 1 <= l <= 7.
Proof.
  unfold SpaceGroup.centering_to_latt. intros H.
  repeat (apply lookup_insert_Some in H as [[_ <-] | [_ H]]; [lia|]).
  apply lookup_singleton_Some in H as [_ <-]. lia.
Qed.

Lemma valid_code_range (s : SymmetryOperation.t) :
  valid_operation s = true →
  0 <= SymmetryOperation.integer_code s < 34012224.
Proof.
  intros Hs. destruct (valid_operation_parts s Hs) as (Hm & Hv & ->).
  rewrite (encode_valid _ _ Hm Hv).
  destruct (SymmetryOperation.rotation s)
    as [[m00 m01 m02] [m10 m11 m12] [m20 m21 m22]].
  destruct (SymmetryOperation.translation s) as [v0 v1 v2].
  unfold valid_rotation, valid_translation in Hm, Hv.
  cbn [at0 at1 at2] in Hm, Hv.
  repeat rewrite andb_true_iff in Hm. repeat rewrite andb_true_iff in Hv.
  destruct Hm as [[[[H00 H01] H02] [[H10 H11] H12]] [[H20 H21] H22]].
  destruct Hv as [[H0 H1] H2].
  apply rotation_entry_round in H00 as [H00 _], H01 as [H01 _], H02 as [H02 _],
    H10 as [H10 _], H11 as [H11 _], H12 as [H12 _],
    H20 as [H20 _], H21 as [H21 _], H22 as [H22 _].
  apply twelfth_round in H0 as [H0 _], H1 as [H1 _], H2 as [H2 _].
  apply elem_of_duodecimal in H0, H1, H2.
  cbn [get2 aget at0 at1 at2]. lia.
Qed.

(** closure under the lattice is a property of the set of encodings *)
Lemma closed_under_lattice_encodings (l1 l2 : list SymmetryOperation.t)
    (latt : Z) :
  forallb valid_operation l1 = true → forallb valid_operation l2 = true →
  encodings l1 = encodings l2 →
  closed_under_lattice l1 latt = true → closed_under_lattice l2 latt = true.
Proof.
  intros Hv1 Hv2 Heq Hc.
  apply closed_under_lattice_elim in Hc as (ts & Hts & Hcen & Hinv).
  rewrite forallb_forall in Hv1, Hv2.
  assert (Hto : ∀ x, x ∈ l2 →
            valid_operation x = true
            ∧ ∃ y, y ∈ l1 ∧ valid_operation y = true ∧ same_operation x y).
  { intros x Hx.
    assert (Hvx : valid_operation x = true)
      by now apply Hv2, list_elem_of_In.
    split; [exact Hvx|].
    assert (Hc : SymmetryOperation.integer_code x ∈ encodings l1)
      by (rewrite Heq; apply elem_of_encodings; eauto).
    apply elem_of_encodings in Hc as (y & Hy & Hc).
    assert (Hvy : valid_operation y = true)
      by now apply Hv1, list_elem_of_In.
    exists y. split; [exact Hy|]. split; [exact Hvy|].
    now apply code_same_operation. }
  assert (Hback : ∀ z w, w ∈ l1 →
            SymmetryOperation.integer_code z = SymmetryOperation.integer_code w →
            SymmetryOperation.contains z l2 = true).
  { intros z w Hw Hzw.
    assert (Hc : SymmetryOperation.integer_code w ∈ encodings l2)
      by (rewrite <- Heq; apply elem_of_encodings; eauto).
    apply elem_of_encodings in Hc as (u & Hu & Hc).
    apply contains_iff. exists u. split; [exact Hu | congruence]. }
  apply (closed_under_lattice_intro _ _ ts Hts).
  - intros x t Hx Ht. destruct (Hto x Hx) as (Hvx & y & Hy & Hvy & Hsame).
    pose proof (lattice_translation_valid _ _ _ Hts Ht) as Hvt.
    pose proof (Hcen y t Hy Ht) as Hin.
    apply contains_iff in Hin as (w & Hw & Hcode).
    apply (Hback _ w Hw). rewrite <- Hcode.
    apply same_operation_code;
      [now apply valid_add | now apply valid_add
      |now apply same_operation_add].
  - intros Hi x Hx. destruct (Hto x Hx) as (Hvx & y & Hy & Hvy & Hsame).
    pose proof (Hinv Hi y Hy) as Hin.
    apply contains_iff in Hin as (w & Hw & Hcode).
    apply (Hback _ w Hw). rewrite <- Hcode.
    apply same_operation_code;
      [now apply valid_inverted | now apply valid_inverted
      |now apply same_operation_inverted].
Qed.

(** reduction followed by expansion on a list of valid operations:
    nothing of the list is lost, and nothing is added exactly when the
    list holds the identity and is closed under the lattice *)
Lemma reduce_then_expand (full : list SymmetryOperation.t) (latt : Z)
    (ts : list vec) :
  LATTICE_TYPE_TRANSLATIONS (Z.abs latt) = Some ts →
  forallb valid_operation full = true →
  ∃ kept,
    reduced_symmetry_list full latt = Ok (SymmetryOperation.identity :: kept)
    ∧ expanded_symmetry_list (SymmetryOperation.identity :: kept) latt
      = (SymmetryOperation.identity :: kept,
         Ok (expansion ts (0 <? latt) (SymmetryOperation.identity :: kept)))
    ∧ encodings full
      ⊆ encodings (expansion ts (0 <? latt) (SymmetryOperation.identity :: kept))
    ∧ (encodings (expansion ts (0 <? latt) (SymmetryOperation.identity :: kept))
       = encodings full
       ↔ SymmetryOperation.contains SymmetryOperation.identity full = true
         ∧ closed_under_lattice full latt = true).
Proof.
  intros Hts Hvalid.
  assert (Hv : ∀ x, x ∈ full → valid_operation x = true).
  { intros x Hx. rewrite forallb_forall in Hvalid.
    now apply Hvalid, list_elem_of_In. }
  destruct (reduce_loop_reaches ts (0 <? latt) full [SymmetryOperation.identity])
    as (kept & Hloop & Hsub & Hreach).
  cbn [app] in Hloop, Hreach.
  set (reduced := SymmetryOperation.identity :: kept) in *.
  assert (Hidr : SymmetryOperation.contains SymmetryOperation.identity reduced
                 = true).
  { apply contains_iff. exists SymmetryOperation.identity.
    split; [left | reflexivity]. }
  assert (Hkept : ∀ r, r ∈ reduced →
                       r = SymmetryOperation.identity ∨ r ∈ full).
  { intros r Hr. apply elem_of_cons in Hr as [-> | Hr]; [now left | right].
    eapply sublist_subseteq; eassumption. }
  assert (Hvr : ∀ r, r ∈ reduced → valid_operation r = true).
  { intros r Hr. destruct (Hkept r Hr) as [-> | Hin];
      [apply valid_identity | now apply Hv]. }
  assert (Hsubset : encodings full
                    ⊆ encodings (expansion ts (0 <? latt) reduced)).
  { intros c Hc. apply elem_of_encodings in Hc as (x & Hx & <-).
    apply (reachable_in_expansion ts (0 <? latt) (Z.abs latt) Hts);
      [exact Hvr | now apply Hv | now apply (Hreach x)]. }
  exists kept. split; [unfold reduced_symmetry_list; now rewrite Hts, Hloop|].
  split; [now apply expanded_symmetry_list_with_identity|].
  split; [exact Hsubset|]. split.
  - intros Heq.
    destruct (expansion_is_full reduced latt ts Hts Hvr Hidr)
      as (HvE & HiE & HcE).
    split.
    + apply contains_iff in HiE as (y & Hy & Hcode).
      assert (Hc : SymmetryOperation.integer_code y ∈ encodings full)
        by (rewrite <- Heq; apply elem_of_encodings; eauto).
      apply elem_of_encodings in Hc as (x & Hx & Hc).
      apply contains_iff. exists x. split; [exact Hx | congruence].
    + now apply (closed_under_lattice_encodings
                   (expansion ts (0 <? latt) reduced) full).
  - intros [Hid Hclosed].
    apply closed_under_lattice_elim in Hclosed as (ts' & Hts' & Hcen & Hinv).
    assert (ts' = ts) as -> by congruence.
    apply set_eq. intros c. split; [|apply Hsubset].
    intros Hc. apply elem_of_encodings in Hc as (y & Hy & <-).
    apply represented_code; [exact Hv|].
    eapply (expansion_represented full ts (0 <? latt) (Z.abs latt));
      try eassumption.
    intros r Hr. destruct (Hkept r Hr) as [-> | Hin].
    + now apply represented_identity.
    + now apply represented_elem.
Qed.

Lemma latt_translations (sg : SpaceGroup.t) (latt : Z) :
  SpaceGroup.latt sg = Ok latt →
  ∃ ts, LATTICE_TYPE_TRANSLATIONS (Z.abs latt) = Some ts.
Proof.
  unfold SpaceGroup.latt.
  destruct (SpaceGroup.centering_to_latt !! SpaceGroup.centering sg)
    as [l|] eqn:Hl; [|discriminate].
  apply centering_to_latt_range in Hl.
  destruct (negb (SpaceGroup.centrosymmetric sg)); intros [= <-];
    apply lattice_translations_defined; lia.
Qed.

(** C2, amended. For the operation list of a space group, of valid
    operations, and its lattice-type code, reducing the list and
    expanding the result gives a list that holds every operation of
    the group; its set of canonical encodings equals that of the
    group's list if and only if the group's list holds the identity
    and is closed, by encoding, under the centring translations of the
    lattice type and, for a centrosymmetric group, under [inverted],
    the inversion through the origin. *)
Theorem expand_reduce_restores_encodings (sg : SpaceGroup.t) (latt : Z) :
  SpaceGroup.latt sg = Ok latt →
  forallb valid_operation (SpaceGroup.symmetry_operations sg) = true →
  ∃ reduced expanded,
    SpaceGroup.reduced_symmetry_operations sg = Ok reduced
    ∧ reduced_symmetry_list (SpaceGroup.symmetry_operations sg) latt
      = Ok reduced
    ∧ expanded_symmetry_list reduced latt = (reduced, Ok expanded)
    ∧ encodings (SpaceGroup.symmetry_operations sg) ⊆ encodings expanded
    ∧ (encodings expanded = encodings (SpaceGroup.symmetry_operations sg)
       ↔ SymmetryOperation.contains SymmetryOperation.identity
           (SpaceGroup.symmetry_operations sg) = true
         ∧ closed_under_lattice (SpaceGroup.symmetry_operations sg) latt
           = true).
Proof.
  intros Hlatt Hvalid. destruct (latt_translations sg latt Hlatt) as [ts Hts].
  destruct (reduce_then_expand _ latt ts Hts Hvalid)
    as (kept & Hred & Hexp & Hsub & Hiff).
  exists (SymmetryOperation.identity :: kept),
         (expansion ts (0 <? latt) (SymmetryOperation.identity :: kept)).
  split; [unfold SpaceGroup.reduced_symmetry_operations; now rewrite Hlatt|].
  auto.
Qed.

Lemma expand_reduce_restores_encodings_witness :
  SpaceGroup.latt I1bar = Ok 2
  ∧ forallb valid_operation (SpaceGroup.symmetry_operations I1bar) = true
  ∧ closed_under_lattice (SpaceGroup.symmetry_operations I1bar) 2 = true
  ∧ ∃ reduced expanded,
      SpaceGroup.reduced_symmetry_operations I1bar = Ok reduced
      ∧ expanded_symmetry_list reduced 2 = (reduced, Ok expanded)
      ∧ encodings expanded = encodings (SpaceGroup.symmetry_operations I1bar).
Proof.
  split; [reflexivity|]. split; [reflexivity|]. split; [reflexivity|].
  destruct (expand_reduce_restores_encodings I1bar 2)
    as (reduced & expanded & Hred & _ & Hexp & _ & Hiff);
    [reflexivity | reflexivity|].
  exists reduced, expanded. split; [exact Hred|]. split; [exact Hexp|].
  apply Hiff. split; reflexivity.
Defined.

(** The statement does not hold of every space group.  P4/n in origin
    choice 1 is centrosymmetric, so its lattice-type code is 1, and its
    inversion centre is not at the origin: reduction keeps all eight
    operations, and the expansion of the reduced list holds sixteen,
    the inversion through the origin (code 3198) among them, which is
    not an operation of the group. *)
Lemma expand_reduce_adds_operations :
  let sg := P4n_origin_choice_1 in
  let reduced :=
    List.map SymmetryOperation.from_integer_code
      [16484; 3200; 7896; 11784; 18426486; 18431186; 18435074; 18439770] in
  SpaceGroup.latt sg = Ok 1
  ∧ forallb valid_operation (SpaceGroup.symmetry_operations sg) = true
  ∧ SymmetryOperation.contains SymmetryOperation.identity
      (SpaceGroup.symmetry_operations sg) = true
  ∧ SpaceGroup.reduced_symmetry_operations sg = Ok reduced
  ∧ expanded_symmetry_list reduced 1
    = (reduced, Ok (expansion [] true reduced))
  ∧ (3198 ∈ encodings (expansion [] true reduced))
  ∧ (3198 ∉ encodings (SpaceGroup.symmetry_operations sg))
  ∧ (encodings (expansion [] true reduced)
     ≠ encodings (SpaceGroup.symmetry_operations sg)).
Proof.
  cbn zeta.
  assert (Hin : 3198 ∈ encodings
                  (expansion [] true
                     (List.map SymmetryOperation.from_integer_code
                        [16484; 3200; 7896; 11784; 18426486; 18431186;
                         18435074; 18439770]))).
  { apply elem_of_encodings.
    exists (SymmetryOperation.inverted SymmetryOperation.identity).
    split; [|vm_compute; reflexivity].
    apply elem_of_expansion.
    exists SymmetryOperation.identity, SymmetryOperation.identity.
    split; [left|]. split; [now left|]. right. split; reflexivity. }
  assert (Hout : 3198 ∉ encodings
                   (SpaceGroup.symmetry_operations P4n_origin_choice_1)).
  { unfold encodings.
    replace (List.map SymmetryOperation.integer_code
               (SpaceGroup.symmetry_operations P4n_origin_choice_1))
      with [3200; 7896; 11784; 16484; 18426486; 18431186; 18435074; 18439770]
      by (vm_compute; reflexivity).
    rewrite elem_of_list_to_set, !elem_of_cons, elem_of_nil. lia. }
  split; [reflexivity|]. split; [vm_compute; reflexivity|].
  split; [vm_compute; reflexivity|]. split; [vm_compute; reflexivity|].
  split; [vm_compute; reflexivity|]. split; [exact Hin|].
  split; [exact Hout|]. intros Heq. apply Hout. now rewrite <- Heq.
Qed.

(** reduction followed by expansion on a full list, without the
    space-group record around it *)
Lemma reduce_then_expand_encodings (full : list SymmetryOperation.t)
    (latt : Z) :
  forallb valid_operation full = true →
  SymmetryOperation.contains SymmetryOperation.identity full = true →
  closed_under_lattice full latt = true →
  ∃ reduced expanded,
    reduced_symmetry_list full latt = Ok reduced
    ∧ expanded_symmetry_list reduced latt = (reduced, Ok expanded)
    ∧ encodings expanded = encodings full.
Proof.
  intros Hvalid Hid Hclosed.
  destruct (closed_under_lattice_elim _ _ Hclosed) as (ts & Hts & _).
  destruct (reduce_then_expand full latt ts Hts Hvalid)
    as (kept & Hred & Hexp & _ & Hiff).
  eexists _, _. split; [exact Hred|]. split; [exact Hexp|].
  apply Hiff. auto.
Qed.

(** X11. What [expanded_symmetry_list] returns for valid operations
    and a lattice type other than the R centring is a full operation
    list: the codes of its operations are packed integers in range,
    the identity is among them, and with every operation it holds, by
    code, the operation moved by each centring translation of the
    lattice type and, for a positive lattice type, its inverse. *)
Theorem expanded_symmetry_list_is_full
    (reduced_symops : list SymmetryOperation.t) (lattice_type : Z) :
  1 <= Z.abs lattice_type <= 7 → Z.abs lattice_type ≠ 3 →
  forallb valid_operation reduced_symops = true →
  ∃ full_symops,
    snd (expanded_symmetry_list reduced_symops lattice_type) = Ok full_symops
    ∧ Forall (fun s => 0 <= SymmetryOperation.integer_code s < 34012224)
        full_symops
    ∧ SymmetryOperation.contains SymmetryOperation.identity full_symops = true
    ∧ closed_under_lattice full_symops lattice_type = true.
Proof.
  intros Hk _ Hvalid. destruct (lattice_translations_defined _ Hk) as [ts Hts].
  destruct (expanded_symmetry_list_expansion reduced_symops lattice_type ts Hts)
    as (reduced' & Hexp & Hid & Hfrom).
  rewrite Hexp. cbn [snd]. eexists. split; [reflexivity|].
  destruct (expansion_is_full reduced' lattice_type ts Hts)
    as (Hv & Hi & Hc); [|exact Hid|].
  { intros r Hr. destruct (Hfrom r Hr) as [Hin | ->]; [|apply valid_identity].
    rewrite forallb_forall in Hvalid. now apply Hvalid, list_elem_of_In. }
  split; [|auto].
  apply Forall_forall. intros s Hs. apply valid_code_range.
  rewrite forallb_forall in Hv. now apply Hv, list_elem_of_In.
Qed.

Lemma expanded_symmetry_list_is_full_witness :
  let reduced_symops := [SymmetryOperation.from_integer_code 3360] in
  1 <= Z.abs 4 <= 7 ∧ Z.abs 4 ≠ 3
  ∧ forallb valid_operation reduced_symops = true
  ∧ ∃ full_symops,
      snd (expanded_symmetry_list reduced_symops 4) = Ok full_symops
      ∧ closed_under_lattice full_symops 4 = true.
Proof.
  intros reduced_symops. split; [cbn; lia|]. split; [cbn; lia|].
  split; [reflexivity|].
  destruct (expanded_symmetry_list_is_full reduced_symops 4)
    as (full_symops & Hfull & _ & _ & Hclosed);
    [cbn; lia | cbn; lia | reflexivity|].
  exists full_symops. split; [exact Hfull | exact Hclosed].
Defined.

(** X12. Expansion is stable under reduction: for a lattice type other
    than the R centring, reducing what [expanded_symmetry_list]
    returned for valid operations and expanding again gives a list
    with the same set of encodings. *)
Theorem expand_reduce_expand
    (reduced_symops : list SymmetryOperation.t) (lattice_type : Z) :
  1 <= Z.abs lattice_type <= 7 → Z.abs lattice_type ≠ 3 →
  forallb valid_operation reduced_symops = true →
  ∃ full_symops reduced_again expanded_again,
    snd (expanded_symmetry_list reduced_symops lattice_type) = Ok full_symops
    ∧ reduced_symmetry_list full_symops lattice_type = Ok reduced_again
    ∧ expanded_symmetry_list reduced_again lattice_type
      = (reduced_again, Ok expanded_again)
    ∧ encodings expanded_again = encodings full_symops.
Proof.
  intros Hk _ Hvalid. destruct (lattice_translations_defined _ Hk) as [ts Hts].
  destruct (expanded_symmetry_list_expansion reduced_symops lattice_type ts Hts)
    as (reduced' & Hexp & Hid & Hfrom).
  destruct (expansion_is_full reduced' lattice_type ts Hts)
    as (Hv & Hi & Hc); [|exact Hid|].
  { intros r Hr. destruct (Hfrom r Hr) as [Hin | ->]; [|apply valid_identity].
    rewrite forallb_forall in Hvalid. now apply Hvalid, list_elem_of_In. }
  destruct (reduce_then_expand_encodings _ lattice_type Hv Hi Hc)
    as (reduced_again & expanded_again & H1 & H2 & H3).
  exists (expansion ts (0 <? lattice_type) reduced'), reduced_again,
         expanded_again.
  rewrite Hexp. cbn [snd]. auto.
Qed.

Lemma expand_reduce_expand_witness :
  let reduced_symops := [SymmetryOperation.from_integer_code 3360] in
  1 <= Z.abs 2 <= 7 ∧ Z.abs 2 ≠ 3
  ∧ forallb valid_operation reduced_symops = true
  ∧ ∃ full_symops reduced_again expanded_again,
      snd (expanded_symmetry_list reduced_symops 2) = Ok full_symops
      ∧ reduced_symmetry_list full_symops 2 = Ok reduced_again
      ∧ expanded_symmetry_list reduced_again 2
        = (reduced_again, Ok expanded_again)
      ∧ encodings expanded_again = encodings full_symops.
Proof.
  intros reduced_symops. split; [cbn; lia|]. split; [cbn; lia|].
  split; [reflexivity|].
  apply (expand_reduce_expand reduced_symops 2);
    [cbn; lia | cbn; lia | reflexivity].
Defined.

(** * Further properties of the space-group class *)

(** X13. The lattice-type code [latt] gives is always a key of the
    table of centring translations, positive exactly for a
    centrosymmetric group, so [reduced_symmetry_operations] returns
    whenever the centring name is known; an unknown centring name is
    the [KeyError] of both. *)
Theorem reduced_symmetry_operations_returns (self : SpaceGroup.t) :
  (∃ l reduced,
     SpaceGroup.latt self = Ok l
     ∧ 1 <= Z.abs l <= 7
     ∧ (0 <? l) = SpaceGroup.centrosymmetric self
     ∧ SpaceGroup.reduced_symmetry_operations self = Ok reduced)
  ∨ (SpaceGroup.centering_to_latt !! SpaceGroup.centering self = None
     ∧ SpaceGroup.latt self
       = Raise (KeyError_str (SpaceGroup.centering self))
     ∧ SpaceGroup.reduced_symmetry_operations self
       = Raise (KeyError_str (SpaceGroup.centering self))).
Proof.
  unfold SpaceGroup.reduced_symmetry_operations, SpaceGroup.latt.
  destruct (SpaceGroup.centering_to_latt !! SpaceGroup.centering self)
    as [l|] eqn:Hl; [left | right; auto].
  apply centering_to_latt_range in Hl.
  set (l' := if negb (SpaceGroup.centrosymmetric self) then - l else l).
  assert (Hl' : 1 <= Z.abs l' <= 7
                ∧ (0 <? l') = SpaceGroup.centrosymmetric self).
  { subst l'. destruct (SpaceGroup.centrosymmetric self); cbn [negb];
      (split; [lia|]); [apply Z.ltb_lt | apply Z.ltb_ge]; lia. }
  destruct Hl' as [Habs Hsign].
  destruct (lattice_translations_defined _ Habs) as [ts Hts].
  exists l', (reduce_loop ts (0 <? l') (SpaceGroup.symmetry_operations self)
                [SymmetryOperation.identity]).
  split; [subst l'; now destruct (SpaceGroup.centrosymmetric self)|].
  split; [exact Habs|]. split; [exact Hsign|].
  replace (if negb (SpaceGroup.centrosymmetric self) then Ok (- l) else Ok l)
    with (Ok l' : result Z)
    by (subst l'; now destruct (SpaceGroup.centrosymmetric self)).
  cbn [mbind result_bind]. unfold reduced_symmetry_list. now rewrite Hts.
Qed.

(** X14. For a group whose number is in 1..230 and whose centring name
    is known, [lattice_type] returns; it never gives the name
    trigonal that [crystal_system] has for the groups 143..167, but
    hexagonal or, exactly for the seven R groups with choice R,
    rhombohedral; for an R group with any other choice than H and R it
    returns nothing; outside 143..194 it is the crystal system. *)
Theorem lattice_type_names (self : SpaceGroup.t) (l : Z) :
  let inum := SpaceGroup.international_tables_number self in
  let R_groups := [146; 148; 155; 160; 161; 166; 167] in
  SpaceGroup.latt self = Ok l →
  1 <= inum <= 230 →
  ∃ name,
    SpaceGroup.lattice_type self = Ok name
    ∧ name ≠ Some "trigonal"%string
    ∧ (name = Some "rhombohedral"%string
       ↔ inum ∈ R_groups ∧ SpaceGroup.choice self = "R"%string)
    ∧ (name = None
       ↔ inum ∈ R_groups ∧ SpaceGroup.choice self ≠ "H"%string
         ∧ SpaceGroup.choice self ≠ "R"%string)
    ∧ (inum < 143 ∨ 194 < inum →
       Some <$> SpaceGroup.crystal_system self = Ok name)
    ∧ (143 <= inum <= 167 →
       SpaceGroup.crystal_system self = Ok "trigonal"%string).
Proof.
  intros inum R_groups Hlatt Hrange.
  assert (Hsys : 143 <= inum <= 167 →
            SpaceGroup.crystal_system self = Ok "trigonal"%string).
  { intros Ht. unfold SpaceGroup.crystal_system. fold inum.
    destruct (Z.leb_spec inum 0); [lia|].
    destruct (Z.leb_spec 231 inum); [lia|]. cbn [orb].
    destruct (Z.leb_spec inum 2); [lia|].
    destruct (Z.leb_spec inum 16); [lia|].
    destruct (Z.leb_spec inum 74); [lia|].
    destruct (Z.leb_spec inum 142); [lia|].
    destruct (Z.leb_spec inum 167); [reflexivity | lia]. }
  unfold SpaceGroup.lattice_type.
  rewrite Hlatt. cbn [fmap result_fmap mbind result_bind]. fold inum.
  assert (HR : inum ∈ R_groups → 143 <= inum <= 167).
  { subst R_groups. rewrite !elem_of_cons, elem_of_nil. lia. }
  destruct (Z.ltb_spec inum 143) as [H143 | H143];
    [|destruct (Z.ltb_spec 194 inum) as [H194 | H194]]; cbn [orb].
  - unfold SpaceGroup.crystal_system. fold inum.
    destruct (Z.leb_spec inum 0); [lia|].
    destruct (Z.leb_spec 231 inum); [lia|]. cbn [orb].
    destruct (Z.leb_spec inum 2); [|destruct (Z.leb_spec inum 16);
      [|destruct (Z.leb_spec inum 74); [|destruct (Z.leb_spec inum 142);
        [|lia]]]];
    (eexists; split; [reflexivity|]);
    (split; [discriminate|]); (split; [split; [discriminate | intros [HA _];
      apply HR in HA; lia]|]);
    (split; [split; [discriminate | intros [HA _]; apply HR in HA; lia]|]);
    (split; [reflexivity | lia]).
  - unfold SpaceGroup.crystal_system. fold inum.
    destruct (Z.leb_spec inum 0); [lia|].
    destruct (Z.leb_spec 231 inum); [lia|]. cbn [orb].
    destruct (Z.leb_spec inum 2); [lia|]. destruct (Z.leb_spec inum 16); [lia|].
    destruct (Z.leb_spec inum 74); [lia|]. destruct (Z.leb_spec inum 142); [lia|].
    destruct (Z.leb_spec inum 167); [lia|]. destruct (Z.leb_spec inum 194); [lia|].
    eexists; split; [reflexivity|]. split; [discriminate|].
    split; [split; [discriminate | intros [HA _]; apply HR in HA; lia]|].
    split; [split; [discriminate | intros [HA _]; apply HR in HA; lia]|].
    split; [reflexivity | lia].
  - case_bool_decide as Hin.
    + destruct (String.eqb_spec (SpaceGroup.choice self) "H") as [HH | HH];
        [|destruct (String.eqb_spec (SpaceGroup.choice self) "R") as [HRc | HRc]];
        (eexists; split; [reflexivity|]); (split; [discriminate|]).
      * split; [split; [discriminate | intros [_ Hc]; rewrite HH in Hc;
                        discriminate Hc]|].
        split; [split; [discriminate | intros (_ & Hc & _); contradiction]|].
        split; [lia | exact Hsys].
      * split; [split; [auto | reflexivity]|].
        split; [split; [discriminate | intros (_ & _ & Hc); contradiction]|].
        split; [lia | exact Hsys].
      * split; [split; [discriminate | intros [_ Hc]; contradiction]|].
        split; [split; [auto | reflexivity]|].
        split; [lia | exact Hsys].
    + eexists; split; [reflexivity|]. split; [discriminate|].
      split; [split; [discriminate | intros [HA _]; contradiction]|].
      split; [split; [discriminate | intros [HA _]; contradiction]|].
      split; [lia | exact Hsys].
Qed.

Lemma lattice_type_names_witness :
  let self := SpaceGroup.Make 148 "R" "rcenter" true [] in
  SpaceGroup.latt self = Ok 3
  ∧ SpaceGroup.lattice_type self = Ok (Some "rhombohedral"%string)
  ∧ SpaceGroup.crystal_system self = Ok "trigonal"%string.
Proof.
  intros self.
  destruct (lattice_type_names self 3) as (name & Hname & _ & Hrh & _ & _ & Hsys);
    [reflexivity | cbn; lia|].
  split; [reflexivity|]. split; [|apply Hsys; cbn; lia].
  rewrite Hname. f_equal. apply Hrh. split; [|reflexivity].
  cbn. rewrite !elem_of_cons. auto.
Defined.

(** what the scan for the identity finds: nothing when no operation is
    the identity, and otherwise the position of the first one *)
Lemma find_identity_spec (ops : list SymmetryOperation.t) (i : nat) :
  (SpaceGroup.find_identity ops i = None
   ∧ forallb (fun s => negb (SymmetryOperation.is_identity s)) ops = true)
  ∨ ∃ before s after,
      ops = before ++ s :: after
      ∧ forallb (fun s => negb (SymmetryOperation.is_identity s)) before = true
      ∧ SymmetryOperation.is_identity s = true
      ∧ SpaceGroup.find_identity ops i = Some (i + length before)%nat.
Proof.
  revert i. induction ops as [|s ops IH]; intros i; [left; auto|].
  cbn [SpaceGroup.find_identity forallb].
  destruct (SymmetryOperation.is_identity s) eqn:Hs.
  - right. exists [], s, ops. cbn. rewrite Nat.add_0_r. auto.
  - destruct (IH (S i)) as [[Hn Hall] | (before & s' & after & -> & Hb & Hs' & Hf)].
    + left. auto.
    + right. exists (s :: before), s', after. cbn [forallb app length].
      rewrite Hs, Hb, Hf. repeat split; auto; f_equal; lia.
Qed.

(** the scan of [apply_all_symops] reads the same test *)
Lemma find_unity_find_identity (ops : list SymmetryOperation.t) (i : nat) :
  SpaceGroup.find_unity ops i = default 0%nat (SpaceGroup.find_identity ops i).
Proof.
  revert i. induction ops as [|s ops IH]; intros i; [reflexivity|].
  cbn [SpaceGroup.find_unity SpaceGroup.find_identity].
  unfold SymmetryOperation.is_identity.
  destruct (SymmetryOperation.integer_code s =? 16484); [reflexivity | apply IH].
Qed.

Lemma take_drop_middle_app {A} (before after : list A) (s : A) :
  (before ++ s :: after) !! length before = Some s
  ∧ take (length before) (before ++ s :: after)
    ++ drop (S (length before)) (before ++ s :: after)
    = before ++ after.
Proof.
  split; [apply list_lookup_middle; reflexivity|].
  rewrite take_app_length.
  rewrite (cons_middle s before after), app_assoc.
  rewrite drop_app_length'; [reflexivity|].
  rewrite length_app. cbn. lia.
Qed.

(** X15. [ordered_symmetry_operations] never fails.  When no operation
    is the identity it returns the list as it is; otherwise it returns
    the first identity operation followed by all the other operations
    in their order, a rearrangement of the list. *)
Theorem ordered_symmetry_operations_identity_first (self : SpaceGroup.t) :
  let ops := SpaceGroup.symmetry_operations self in
  ∃ ordered,
    SpaceGroup.ordered_symmetry_operations self = Ok ordered
    ∧ ordered ≡ₚ ops
    ∧ ((forallb (fun s => negb (SymmetryOperation.is_identity s)) ops = true
        ∧ ordered = ops)
       ∨ ∃ before s after,
           ops = before ++ s :: after
           ∧ forallb (fun s => negb (SymmetryOperation.is_identity s)) before
             = true
           ∧ SymmetryOperation.is_identity s = true
           ∧ ordered = s :: before ++ after).
Proof.
  intros ops. unfold SpaceGroup.ordered_symmetry_operations. fold ops.
  destruct (find_identity_spec ops 0)
    as [[Hn Hall] | (before & s & after & Hops & Hb & Hs & Hf)].
  - rewrite Hn. exists ops. split; [reflexivity|]. split; [reflexivity|].
    left. auto.
  - rewrite Hf, Hops. cbn [Nat.add].
    destruct (take_drop_middle_app before after s) as [-> ->].
    exists (s :: before ++ after). split; [reflexivity|].
    split; [apply Permutation_middle|].
    right. exists before, s, after. auto.
Qed.

Lemma wrap32_small (z : Z) : - 2 ^ 31 <= z < 2 ^ 31 → SpaceGroup.wrap32 z = z.
Proof.
  intros Hz. unfold SpaceGroup.wrap32.
  rewrite Z.mod_small; lia.
Qed.

(** an operation with the code of the identity leaves a point where it
    is *)
Lemma apply_identity (s : SymmetryOperation.t) (p : vec) :
  valid_operation s = true → SymmetryOperation.is_identity s = true →
  vec_eq (SpaceGroup.apply s p) p.
Proof.
  intros Hs Hid. apply Z.eqb_eq in Hid.
  destruct (code_same_operation s SymmetryOperation.identity Hs valid_identity)
    as [Hrot Htr]; [rewrite Hid; reflexivity|].
  unfold SymmetryOperation.identity, SymmetryOperation.from_integer_code in Hrot, Htr.
  rewrite decode_identity in Hrot, Htr. cbn in Hrot, Htr.
  destruct Hrot as ((H00 & H01 & H02) & (H10 & H11 & H12) & (H20 & H21 & H22)).
  destruct Htr as (H0 & H1 & H2).
  unfold SpaceGroup.apply, vec_eq, get2. cbn [aget at0 at1 at2].
  rewrite H00, H01, H02, H10, H11, H12, H20, H21, H22, H0, H1, H2.
  unfold identity_rotation. cbn [at0 at1 at2 amap].
  assert (Hz : (np.mod1 (0 # 12) == 0)%Q) by (vm_compute; reflexivity).
  rewrite Hz. repeat split; ring.
Qed.

(** X16. In a group of valid operations that holds the identity,
    [apply_all_symops] goes through the operations in the order of
    [ordered_symmetry_operations]: the block of rows of each operation
    carries its integer code, unchanged by the 32-bit store, and the
    images of the coordinates under it. *)
Theorem apply_all_symops_in_order (self : SpaceGroup.t)
    (coordinates : list vec) :
  let ops := SpaceGroup.symmetry_operations self in
  forallb valid_operation ops = true →
  existsb SymmetryOperation.is_identity ops = true →
  ∃ ordered generator_symop transformed,
    SpaceGroup.ordered_symmetry_operations self = Ok ordered
    ∧ SpaceGroup.apply_all_symops self coordinates
      = Ok (generator_symop, transformed)
    ∧ generator_symop
      = concat (List.map (fun s => replicate (length coordinates)
                                     (SymmetryOperation.integer_code s))
                  ordered)
    ∧ Forall2 vec_eq transformed
        (concat (List.map (fun s => List.map (SpaceGroup.apply s) coordinates)
                   ordered)).
Proof.
  intros ops Hvalid Hex.
  unfold SpaceGroup.ordered_symmetry_operations, SpaceGroup.apply_all_symops.
  fold ops. rewrite find_unity_find_identity.
  destruct (find_identity_spec ops 0)
    as [[Hn Hall] | (before & s & after & Hops & Hb & Hs & Hf)].
  { exfalso. apply existsb_exists in Hex as (x & Hx & Hid).
    rewrite forallb_forall in Hall. specialize (Hall x Hx).
    rewrite Hid in Hall. discriminate Hall. }
  rewrite Hf, Hops. cbn [Nat.add].
  change (default 0%nat (Some (length before))) with (length before).
  destruct (take_drop_middle_app before after s) as [-> ->].
  assert (Hlen : (length (before ++ s :: after) =? 0)%nat = false).
  { apply Nat.eqb_neq. rewrite length_app. cbn. lia. }
  rewrite Hlen. cbn [andb].
  assert (Hv : ∀ x, x ∈ before ++ s :: after → valid_operation x = true).
  { intros x Hx. rewrite forallb_forall in Hvalid. apply Hvalid.
    apply list_elem_of_In. rewrite Hops. exact Hx. }
  exists (s :: before ++ after). eexists _, _.
  split; [reflexivity|]. split; [reflexivity|]. split.
  - cbn [List.map concat]. f_equal.
    + apply Z.eqb_eq in Hs. now rewrite Hs.
    + f_equal. apply map_ext_in. intros x Hx. f_equal.
      apply wrap32_small.
      assert (Hvx : valid_operation x = true).
      { apply Hv. apply list_elem_of_In in Hx.
        apply elem_of_app in Hx as [Hx | Hx]; apply elem_of_app;
          [now left | right; now right]. }
      pose proof (valid_code_range x Hvx). lia.
  - cbn [List.map concat]. apply Forall2_app.
    + assert (Hvs : valid_operation s = true).
      { apply Hv. apply elem_of_app. right. left. }
      clear -Hvs Hs. induction coordinates as [|p ps IH]; [constructor|].
      cbn [List.map]. constructor; [|exact IH].
      apply vec_eq_sym. now apply apply_identity.
    + apply Forall_Forall2_diag. apply Forall_forall. intros v _.
      repeat split; reflexivity.
Qed.

Lemma apply_all_symops_in_order_witness :
  forallb valid_operation (SpaceGroup.symmetry_operations P1bar) = true
  ∧ existsb SymmetryOperation.is_identity (SpaceGroup.symmetry_operations P1bar)
    = true
  ∧ ∃ generator_symop transformed,
      SpaceGroup.apply_all_symops P1bar [Arr3 (1 # 4) (1 # 4) (1 # 4)]%Q
      = Ok (generator_symop, transformed)
      ∧ generator_symop = [16484; 3198].
Proof.
  split; [reflexivity|]. split; [reflexivity|].
  destruct (apply_all_symops_in_order P1bar [Arr3 (1 # 4) (1 # 4) (1 # 4)]%Q)
    as (ordered & generator_symop & transformed & Hord & Happly & Hgen & _);
    [reflexivity | reflexivity|].
  exists generator_symop, transformed. split; [exact Happly|].
  rewrite Hgen. injection Hord as <-. reflexivity.
Defined.

(** X17. In a group none of whose operations is the identity,
    [apply_all_symops] never applies the first operation: the result
    is what it is for the group with the identity in the place of the
    first operation. *)
Theorem apply_all_symops_without_identity
    (international_tables_number : Z) (choice centering : string)
    (centrosymmetric : bool) (first : SymmetryOperation.t)
    (others : list SymmetryOperation.t) (coordinates : list vec) :
  forallb (fun s => negb (SymmetryOperation.is_identity s)) (first :: others)
  = true →
  SpaceGroup.apply_all_symops
    (SpaceGroup.Make international_tables_number choice centering
       centrosymmetric (first :: others)) coordinates
  = SpaceGroup.apply_all_symops
      (SpaceGroup.Make international_tables_number choice centering
         centrosymmetric (SymmetryOperation.identity :: others)) coordinates
  ∧ ∃ generator_symop transformed,
      SpaceGroup.apply_all_symops
        (SpaceGroup.Make international_tables_number choice centering
           centrosymmetric (first :: others)) coordinates
      = Ok (generator_symop, transformed)
      ∧ take (length coordinates) transformed = coordinates
      ∧ take (length coordinates) generator_symop
        = replicate (length coordinates) 16484.
Proof.
  intros Hnone. unfold SpaceGroup.apply_all_symops.
  cbn [SpaceGroup.symmetry_operations].
  rewrite !find_unity_find_identity.
  destruct (find_identity_spec (first :: others) 0)
    as [[Hn _] | (before & s & after & Hops & _ & Hs & _)].
  - rewrite Hn. cbn [default SpaceGroup.find_identity length Nat.eqb andb take drop app].
    change (SymmetryOperation.is_identity SymmetryOperation.identity) with true.
    cbn [default take drop app]. split; [reflexivity|].
    eexists _, _. split; [reflexivity|].
    split; [apply take_app_length|].
    rewrite <- (length_replicate (length coordinates) 16484) at 1.
    apply take_app_length.
  - exfalso. rewrite forallb_forall in Hnone.
    assert (Hin : In s (first :: others))
      by (rewrite Hops; apply in_elt).
    specialize (Hnone s Hin). rewrite Hs in Hnone. discriminate Hnone.
Qed.

Lemma apply_all_symops_without_identity_witness :
  let inversion := SymmetryOperation.from_integer_code 3198 in
  let coordinates := [Arr3 (1 # 4) (1 # 4) (1 # 4)]%Q in
  forallb (fun s => negb (SymmetryOperation.is_identity s)) [inversion] = true
  ∧ SpaceGroup.apply_all_symops
      (SpaceGroup.Make 2 "" "primitive" true [inversion]) coordinates
    = Ok ([16484], coordinates).
Proof.
  intros inversion coordinates. split; [reflexivity|].
  destruct (apply_all_symops_without_identity 2 "" "primitive" true inversion []
              coordinates) as [-> _]; reflexivity.
Defined.

Lemma integer_code_from_integer_code (codes : list Z) :
  List.map SymmetryOperation.integer_code
    (List.map SymmetryOperation.from_integer_code codes) = codes.
Proof.
  induction codes as [|code codes IH]; [reflexivity|].
  cbn [List.map]. rewrite IH.
  f_equal; unfold SymmetryOperation.from_integer_code,
             SymmetryOperation.integer_code;
    now destruct (decode_symm_int code).
Qed.

(** X18. A space group that [__init__] returns has a number in 1..230,
    so its [crystal_system] is defined; it is built from an entry the
    table holds under the decimal string of the number, the first one
    when no choice is asked for and otherwise the first with the
    choice asked for; and the integer codes of its operations are the
    codes of that entry, whatever integers the table holds. *)
Theorem space_group_of_table (SG_FROM_NUMBER : gmap string (list _sgdata.t))
    (international_tables_number : Z) (choice : string) (sg : SpaceGroup.t) :
  SpaceGroup.new SG_FROM_NUMBER international_tables_number choice = Ok sg →
  1 <= international_tables_number <= 230
  ∧ SpaceGroup.international_tables_number sg = international_tables_number
  ∧ (choice ≠ ""%string → SpaceGroup.choice sg = choice)
  ∧ (∃ name, SpaceGroup.crystal_system sg = Ok name)
  ∧ ∃ candidates before sgdata after,
      SG_FROM_NUMBER !! (pretty international_tables_number : string)
      = Some candidates
      ∧ candidates = before ++ sgdata :: after
      ∧ (choice = ""%string → before = [])
      ∧ (∀ candidate, candidate ∈ before → _sgdata.choice candidate ≠ choice)
      ∧ SpaceGroup.choice sg = _sgdata.choice sgdata
      ∧ SpaceGroup.centering sg = _sgdata.centering sgdata
      ∧ SpaceGroup.centrosymmetric sg = _sgdata.centrosymmetric sgdata
      ∧ List.map SymmetryOperation.integer_code
          (SpaceGroup.symmetry_operations sg)
        = _sgdata.symops sgdata.
Proof.
  unfold SpaceGroup.new.
  destruct (Z.ltb_spec international_tables_number 1) as [|Hlo];
    [discriminate|].
  destruct (Z.ltb_spec 230 international_tables_number) as [|Hhi];
    [discriminate|]. cbn [orb].
  destruct (SG_FROM_NUMBER !! pretty international_tables_number)
    as [candidates|] eqn:Hkey; [|discriminate].
  assert (Hsys : ∀ s, SpaceGroup.international_tables_number s
                      = international_tables_number →
                      ∃ name, SpaceGroup.crystal_system s = Ok name).
  { intros s Hs. unfold SpaceGroup.crystal_system. rewrite Hs.
    destruct (Z.leb_spec international_tables_number 0); [lia|].
    destruct (Z.leb_spec 231 international_tables_number); [lia|]. cbn [orb].
    repeat (match goal with
            | |- context [if ?b then _ else _] => destruct b
            end; [eexists; reflexivity|]).
    eexists; reflexivity. }
  destruct (String.eqb_spec choice "") as [Hempty | Hchoice].
  - destruct candidates as [|sgdata after]; [discriminate|].
    cbn [mbind result_bind]. intros [= <-].
    cbn [SpaceGroup.international_tables_number SpaceGroup.choice
         SpaceGroup.centering SpaceGroup.centrosymmetric
         SpaceGroup.symmetry_operations].
    split; [lia|]. split; [reflexivity|]. split; [contradiction|].
    split; [now apply Hsys|].
    exists (sgdata :: after), [], sgdata, after.
    split; [reflexivity|]. split; [reflexivity|]. split; [reflexivity|].
    split; [intros c Hc; inversion Hc|].
    repeat (split; [reflexivity|]). apply integer_code_from_integer_code.
  - destruct (List.find _ candidates) as [sgdata|] eqn:Hfind; [|discriminate].
    cbn [mbind result_bind]. intros [= <-].
    cbn [SpaceGroup.international_tables_number SpaceGroup.choice
         SpaceGroup.centering SpaceGroup.centrosymmetric
         SpaceGroup.symmetry_operations].
    assert (Hsplit : ∃ before after,
              candidates = before ++ sgdata :: after
              ∧ _sgdata.choice sgdata = choice
              ∧ ∀ c, c ∈ before → _sgdata.choice c ≠ choice).
    { clear -Hfind. induction candidates as [|c cs IH]; [discriminate|].
      cbn [List.find] in Hfind.
      destruct (String.eqb_spec choice (_sgdata.choice c)) as [Hc | Hc].
      - injection Hfind as <-. exists [], cs. split; [reflexivity|].
        split; [auto|]. intros c' Hc'. inversion Hc'.
      - destruct (IH Hfind) as (before & after & -> & Hs & Hb).
        exists (c :: before), after. split; [reflexivity|]. split; [exact Hs|].
        intros c' Hc'. apply elem_of_cons in Hc' as [-> | Hc']; auto. }
    destruct Hsplit as (before & after & Hcs & Hs & Hb).
    split; [lia|]. split; [reflexivity|]. split; [auto|].
    split; [now apply Hsys|].
    exists candidates, before, sgdata, after.
    split; [reflexivity|]. split; [exact Hcs|]. split; [contradiction|].
    split; [exact Hb|].
    repeat (split; [reflexivity|]). apply integer_code_from_integer_code.
Qed.

Lemma space_group_of_table_witness :
  let entry (choice : string) :=
    _sgdata.Make 2 "P-1" "Ci^1" "P -1" "P -1" "-1" choice "primitive"
      [3198; 16484] true in
  let SG_FROM_NUMBER : gmap string (list _sgdata.t) :=
    {[ "2"%string := [entry ""%string; entry "b"%string] ]} in
  ∃ sg,
    SpaceGroup.new SG_FROM_NUMBER 2 "b" = Ok sg
    ∧ SpaceGroup.choice sg = "b"%string
    ∧ ∃ name, SpaceGroup.crystal_system sg = Ok name.
Proof.
  intros entry SG_FROM_NUMBER.
  assert (Hnew : SpaceGroup.new SG_FROM_NUMBER 2 "b"
                 = Ok (SpaceGroup.Make 2 "b" "primitive" true
                         (List.map SymmetryOperation.from_integer_code
                            [3198; 16484])))
    by (vm_compute; reflexivity).
  eexists. split; [exact Hnew|].
  destruct (space_group_of_table SG_FROM_NUMBER 2 "b" _ Hnew)
    as (_ & _ & Hchoice & Hsys & _).
  split; [apply Hchoice; discriminate | exact Hsys].
Defined.

(** the sorted codes of a list are those of any rearrangement of it *)
Lemma sorted_codes_Permutation (l1 l2 : list Z) :
  l1 ≡ₚ l2 → sorted_codes l1 = sorted_codes l2.
Proof.
  intros Hp. unfold sorted_codes.
  apply (StronglySorted_unique Z.le);
    [apply StronglySorted_merge_sort; apply _
    |apply StronglySorted_merge_sort; apply _|].
  now rewrite !merge_sort_Permutation.
Qed.

Lemma contains_Permutation (x : SymmetryOperation.t)
    (l1 l2 : list SymmetryOperation.t) :
  l1 ≡ₚ l2 → SymmetryOperation.contains x l1 = SymmetryOperation.contains x l2.
Proof.
  intros Hp. unfold SymmetryOperation.contains.
  induction Hp as [|y l1 l2 _ IH|y z l|l1 l2 l3 _ IH1 _ IH2]; cbn [existsb].
  - reflexivity.
  - now rewrite IH.
  - destruct (SymmetryOperation.eq x y), (SymmetryOperation.eq x z); reflexivity.
  - now rewrite IH1.
Qed.

(** expansion of a rearranged list gives a rearranged list *)
Lemma expanded_symmetry_list_Permutation
    (l1 l2 : list SymmetryOperation.t) (latt : Z) :
  l1 ≡ₚ l2 →
  match snd (expanded_symmetry_list l1 latt),
        snd (expanded_symmetry_list l2 latt) with
  | Ok full1, Ok full2 => full1 ≡ₚ full2
  | Raise e1, Raise e2 => e1 = e2
  | _, _ => False
  end.
Proof.
  intros Hp. unfold expanded_symmetry_list.
  destruct (LATTICE_TYPE_TRANSLATIONS (Z.abs latt)) as [ts|]; [|reflexivity].
  cbn [snd]. rewrite <- (contains_Permutation _ _ _ Hp).
  set (f := fun symop : SymmetryOperation.t =>
              symop :: List.map (SymmetryOperation.add symop) ts).
  assert (Hflat : ∀ a b : list SymmetryOperation.t,
                    a ≡ₚ b → flat_map f a ≡ₚ flat_map f b)
    by (intros a b Hab; now apply Permutation_flat_map).
  assert (Hinv : ∀ a b : list SymmetryOperation.t,
                   a ≡ₚ b →
                   a ++ List.map SymmetryOperation.inverted a
                   ≡ₚ b ++ List.map SymmetryOperation.inverted b).
  { intros a b Hab. apply Permutation_app; [exact Hab|].
    now apply Permutation_map. }
  destruct (negb (SymmetryOperation.contains SymmetryOperation.identity l1));
    destruct (0 <? latt); auto using Permutation_app_tail.
Qed.

(** X19. [from_symmetry_operations] does not depend on the order in
    which the operations are supplied, with or without expansion. *)
Theorem from_symmetry_operations_any_order
    (SG_FROM_NUMBER : gmap string (list _sgdata.t))
    (SG_FROM_SYMOPS : gmap (list Z) _sgdata.t)
    (symops symops' : list SymmetryOperation.t) (expand_latt : option Z) :
  symops ≡ₚ symops' →
  snd (SpaceGroup.from_symmetry_operations SG_FROM_NUMBER SG_FROM_SYMOPS
         symops expand_latt)
  = snd (SpaceGroup.from_symmetry_operations SG_FROM_NUMBER SG_FROM_SYMOPS
           symops' expand_latt).
Proof.
  intros Hp.
  assert (Hmatch : ∀ a b : list SymmetryOperation.t,
            a ≡ₚ b →
            SpaceGroup.matching_spacegroup SG_FROM_NUMBER SG_FROM_SYMOPS a
            = SpaceGroup.matching_spacegroup SG_FROM_NUMBER SG_FROM_SYMOPS b).
  { intros a b Hab. unfold SpaceGroup.matching_spacegroup.
    rewrite (sorted_codes_Permutation
               (List.map SymmetryOperation.integer_code a)
               (List.map SymmetryOperation.integer_code b));
      [reflexivity | now apply Permutation_map]. }
  unfold SpaceGroup.from_symmetry_operations.
  destruct expand_latt as [l|]; [|now apply Hmatch].
  destruct (negb ((-8 <? l) && (l <? 8))); [reflexivity|].
  pose proof (expanded_symmetry_list_Permutation symops symops' l Hp) as Hexp.
  destruct (expanded_symmetry_list symops l) as [r1 [full1 | e1]];
    destruct (expanded_symmetry_list symops' l) as [r2 [full2 | e2]];
    cbn [snd] in *; try contradiction.
  - now apply Hmatch.
  - now rewrite Hexp.
Qed.

Lemma from_symmetry_operations_any_order_witness :
  let entry :=
    _sgdata.Make 2 "P-1" "Ci^1" "P -1" "P -1" "-1" "" "primitive"
      [3198; 16484] true in
  let SG_FROM_NUMBER : gmap string (list _sgdata.t) :=
    {[ "2"%string := [entry] ]} in
  let SG_FROM_SYMOPS : gmap (list Z) _sgdata.t := {[ [3198; 16484] := entry ]} in
  let inversion := SymmetryOperation.from_integer_code 3198 in
  [SymmetryOperation.identity; inversion]
  ≡ₚ [inversion; SymmetryOperation.identity]
  ∧ snd (SpaceGroup.from_symmetry_operations SG_FROM_NUMBER SG_FROM_SYMOPS
           [SymmetryOperation.identity; inversion] None)
    = snd (SpaceGroup.from_symmetry_operations SG_FROM_NUMBER SG_FROM_SYMOPS
             [inversion; SymmetryOperation.identity] None).
Proof.
  intros entry SG_FROM_NUMBER SG_FROM_SYMOPS inversion.
  split; [apply Permutation_swap|].
  apply from_symmetry_operations_any_order, Permutation_swap.
Defined.

(** X20. [from_symmetry_operations] with a lattice type to expand by:
    outside -7..7 it raises [ValueError] and leaves the caller's list
    alone; zero passes that check and is the [KeyError] of the
    translation table; for every other value the caller's list holds
    the identity after the call, appended when it was not there, and
    the group is looked up by the codes of the expanded list. *)
Theorem from_symmetry_operations_expanding
    (SG_FROM_NUMBER : gmap string (list _sgdata.t))
    (SG_FROM_SYMOPS : gmap (list Z) _sgdata.t)
    (symops : list SymmetryOperation.t) (expand_latt : Z) :
  let from_symmetry_operations :=
    SpaceGroup.from_symmetry_operations SG_FROM_NUMBER SG_FROM_SYMOPS in
  (¬ -7 <= expand_latt <= 7 →
   from_symmetry_operations symops (Some expand_latt)
   = (symops, Raise ValueError))
  ∧ (expand_latt = 0 →
     from_symmetry_operations symops (Some expand_latt)
     = (symops, Raise (KeyError_int 0)))
  ∧ (-7 <= expand_latt <= 7 → expand_latt ≠ 0 →
     ∃ reduced_symops full_symops,
       expanded_symmetry_list symops expand_latt
       = (reduced_symops, Ok full_symops)
       ∧ from_symmetry_operations symops (Some expand_latt)
         = (reduced_symops,
            SpaceGroup.matching_spacegroup SG_FROM_NUMBER SG_FROM_SYMOPS
              full_symops)
       ∧ SymmetryOperation.contains SymmetryOperation.identity reduced_symops
         = true
       ∧ (SymmetryOperation.contains SymmetryOperation.identity symops = false
          → reduced_symops = symops ++ [SymmetryOperation.identity])).
Proof.
  intros from_symmetry_operations. subst from_symmetry_operations.
  unfold SpaceGroup.from_symmetry_operations. split; [|split].
  - intros Hout.
    destruct (Z.ltb_spec (-8) expand_latt); [|reflexivity].
    destruct (Z.ltb_spec expand_latt 8); [lia | reflexivity].
  - intros ->. reflexivity.
  - intros Hin Hnz.
    destruct (Z.ltb_spec (-8) expand_latt); [|lia].
    destruct (Z.ltb_spec expand_latt 8); [|lia]. cbn [andb negb].
    destruct (lattice_translations_defined (Z.abs expand_latt)) as [ts Hts];
      [lia|].
    unfold expanded_symmetry_list. rewrite Hts.
    destruct (SymmetryOperation.contains SymmetryOperation.identity symops)
      eqn:Hid; cbn [negb].
    + eexists _, _. split; [reflexivity|]. split; [reflexivity|].
      split; [exact Hid | discriminate].
    + eexists _, _. split; [reflexivity|]. split; [reflexivity|].
      split; [|reflexivity].
      apply contains_iff. exists SymmetryOperation.identity.
      split; [apply elem_of_app; right; left | reflexivity].
Qed.

Lemma from_symmetry_operations_expanding_witness :
  SpaceGroup.from_symmetry_operations ∅ ∅ [] (Some 9) = ([], Raise ValueError)
  ∧ SpaceGroup.from_symmetry_operations ∅ ∅ [] (Some 0)
    = ([], Raise (KeyError_int 0))
  ∧ fst (SpaceGroup.from_symmetry_operations ∅ ∅ [] (Some (-1)))
    = [SymmetryOperation.identity].
Proof.
  destruct (from_symmetry_operations_expanding ∅ ∅ [] 9) as (H9 & _ & _).
  destruct (from_symmetry_operations_expanding ∅ ∅ [] 0) as (_ & H0 & _).
  destruct (from_symmetry_operations_expanding ∅ ∅ [] (-1)) as (_ & _ & H1).
  split; [apply H9; lia|]. split; [apply H0; reflexivity|].
  destruct H1 as (reduced_symops & full_symops & _ & -> & _ & Happend);
    [lia | lia|].
  cbn [fst]. now rewrite Happend.
Defined.

(** * Further properties of the unit-cell classification *)

Lemma Qabs_spec (x : Q) :
  (0 <= x ∧ Qabs x == x)%Q ∨ (x < 0 ∧ Qabs x == - x)%Q.
Proof.
  destruct (Qlt_le_dec x 0) as [H | H].
  - right. split; [exact H|]. apply Qabs_neg. lra.
  - left. split; [exact H|]. now apply Qabs_pos.
Qed.

(** replaces every absolute value by a variable with its two cases *)
Ltac qabs :=
  repeat match goal with
         | |- context [Qabs ?t] =>
             let H := fresh in
             let E := fresh in
             destruct (Qabs_spec t) as [[H E] | [H E]];
             generalize dependent (Qabs t); intros
         | H : context [Qabs ?t] |- _ =>
             let H := fresh in
             let E := fresh in
             destruct (Qabs_spec t) as [[H E] | [H E]];
             generalize dependent (Qabs t); intros
         end.

(** writes the constants out for linear arithmetic *)
Ltac constants :=
  unfold np.pi, np.atol, np.rtol, Qdiv in *;
  change (/ 2)%Q with (1 # 2)%Q in *;
  change (/ 3)%Q with (1 # 3)%Q in *.

Lemma close_true (a b : Q) :
  np.close a b = true
  ↔ (Qabs (a - b) <= (1 # 100000000) + (1 # 100000) * Qabs b)%Q.
Proof. unfold np.close. apply Qle_bool_iff. Qed.

Lemma close_false (a b : Q) :
  np.close a b = false
  ↔ ((1 # 100000000) + (1 # 100000) * Qabs b < Qabs (a - b))%Q.
Proof.
  rewrite <- not_true_iff_false, close_true. split.
  - apply Qnot_le_lt.
  - apply Qlt_not_le.
Qed.

Ltac close_to_prop :=
  repeat match goal with
         | H : np.close _ _ = true |- _ => apply close_true in H
         | H : np.close _ _ = false |- _ => apply close_false in H
         | |- np.close _ _ = true => apply close_true
         | |- np.close _ _ = false => apply close_false
         end.

(** a value is close to itself, and a difference is close to zero
    exactly when it is within the absolute tolerance *)
Lemma close_refl (a : Q) : np.close a a = true.
Proof. close_to_prop. qabs; lra. Qed.

Lemma close_difference_zero (x y : Q) :
  np.close (x - y) 0 = Qle_bool (Qabs (x - y)) np.atol.
Proof.
  apply eq_true_iff_eq. rewrite close_true, Qle_bool_iff. unfold np.atol.
  split; intros H; qabs; lra.
Qed.

(** lengths within the absolute tolerance of each other are close *)
Lemma close_of_small_difference (x y : Q) :
  Qle_bool (Qabs (y - x)) np.atol = true → np.close x y = true.
Proof.
  rewrite Qle_bool_iff. unfold np.atol. intros H. close_to_prop. qabs; lra.
Qed.

Lemma abc_equal_close (self : UnitCell.t) :
  UnitCell.abc_equal self = true →
  np.close (UnitCell.a self) (UnitCell.b self) = true
  ∧ np.close (UnitCell.a self) (UnitCell.c self) = true.
Proof.
  unfold UnitCell.abc_equal, UnitCell.close_zeros, UnitCell.a, UnitCell.b,
    UnitCell.c. cbn [amap at0 at1 at2].
  rewrite !close_difference_zero, !andb_true_iff. intros [[_ Hb] Hc].
  split; now apply close_of_small_difference.
Qed.

(** X21. A cell that passes the cubic or the rhombohedral test passes
    none of the hexagonal, tetragonal, orthorhombic and monoclinic
    tests, so the order in which [set_cell_type] tries those against
    the first two does not matter. *)
Theorem equal_lengths_exclude_other_classes (self : UnitCell.t) :
  UnitCell.is_cubic self = true ∨ UnitCell.is_rhombohedral self = true →
  UnitCell.is_hexagonal self = false
  ∧ UnitCell.is_tetragonal self = false
  ∧ UnitCell.is_orthorhombic self = false
  ∧ UnitCell.is_monoclinic self = false.
Proof.
  intros H.
  assert (Heq : UnitCell.abc_equal self = true).
  { destruct H as [H | H];
      [unfold UnitCell.is_cubic in H | unfold UnitCell.is_rhombohedral in H];
      repeat rewrite andb_true_iff in H; tauto. }
  destruct (abc_equal_close self Heq) as [Hab Hac].
  unfold UnitCell.is_hexagonal, UnitCell.is_tetragonal,
    UnitCell.is_orthorhombic, UnitCell.is_monoclinic, UnitCell.abc_different.
  rewrite Hab, Hac. cbn [negb andb orb].
  repeat split; apply andb_false_r.
Qed.

Lemma equal_lengths_exclude_other_classes_witness :
  UnitCell.is_cubic cubic_cell = true
  ∧ UnitCell.is_tetragonal cubic_cell = false
  ∧ UnitCell.is_orthorhombic cubic_cell = false.
Proof.
  split; [vm_compute; reflexivity|].
  destruct (equal_lengths_exclude_other_classes cubic_cell)
    as (_ & Ht & Ho & _); [left; vm_compute; reflexivity|].
  split; [exact Ht | exact Ho].
Defined.

(** two angles that are both right angles up to the absolute tolerance
    and have the same sign are close to each other *)
Lemma right_angles_close (x y : Q) :
  np.close (Qabs x - np.pi / 2) 0 = true →
  np.close (Qabs y - np.pi / 2) 0 = true →
  ((0 <= x ∧ 0 <= y) ∨ (x < 0 ∧ y < 0))%Q →
  np.close x y = true.
Proof.
  intros Hx Hy Hsign. close_to_prop. constants.
  destruct Hsign as [[Hsx Hsy] | [Hsx Hsy]]; qabs; lra.
Qed.

(** X22. A cell that passes the triclinic test, all lengths and all
    angles pairwise different, is classified triclinic by
    [set_cell_type], which never consults that test. *)
Theorem is_triclinic_classified_triclinic (self : UnitCell.t) :
  UnitCell.is_triclinic self = true →
  UnitCell.cell_type_index (UnitCell.set_cell_type self) = 0
  ∧ UnitCell.cell_type (UnitCell.set_cell_type self) = "triclinic"%string.
Proof.
  unfold UnitCell.is_triclinic. rewrite andb_true_iff. intros [Habc Hang].
  assert (Heq : UnitCell.abc_equal self = false).
  { destruct (UnitCell.abc_equal self) eqn:Heq; [|reflexivity].
    destruct (abc_equal_close self Heq) as [Hab _].
    unfold UnitCell.abc_different in Habc. rewrite Hab in Habc.
    discriminate Habc. }
  assert (Hab : np.close (UnitCell.a self) (UnitCell.b self) = false).
  { unfold UnitCell.abc_different in Habc.
    destruct (np.close (UnitCell.a self) (UnitCell.b self));
      [discriminate Habc | reflexivity]. }
  assert (Hag : np.close (UnitCell.alpha self) (UnitCell.gamma self) = false
                ∧ np.close (UnitCell.alpha self) (UnitCell.beta self) = false
                ∧ np.close (UnitCell.beta self) (UnitCell.gamma self) = false).
  { unfold UnitCell.angles_different in Hang.
    destruct (np.close (UnitCell.alpha self) (UnitCell.beta self)),
      (np.close (UnitCell.alpha self) (UnitCell.gamma self)),
      (np.close (UnitCell.beta self) (UnitCell.gamma self));
      try discriminate Hang; auto. }
  destruct Hag as (Hag & Hab' & Hbg).
  assert (Hort : UnitCell.orthogonal self = false).
  { destruct (UnitCell.orthogonal self) eqn:Hort; [|reflexivity]. exfalso.
    unfold UnitCell.orthogonal, UnitCell.close_zeros in Hort.
    cbn [amap at0 at1 at2] in Hort. repeat rewrite andb_true_iff in Hort.
    destruct Hort as [[Ha Hb] Hg].
    fold (UnitCell.alpha self) in Ha. fold (UnitCell.beta self) in Hb.
    fold (UnitCell.gamma self) in Hg.
    destruct (Qlt_le_dec (UnitCell.alpha self) 0),
      (Qlt_le_dec (UnitCell.beta self) 0),
      (Qlt_le_dec (UnitCell.gamma self) 0);
      first
        [ rewrite (right_angles_close _ _ Ha Hb) in Hab' by auto;
          discriminate Hab'
        | rewrite (right_angles_close _ _ Ha Hg) in Hag by auto;
          discriminate Hag
        | rewrite (right_angles_close _ _ Hb Hg) in Hbg by auto;
          discriminate Hbg ]. }
  unfold UnitCell.set_cell_type, UnitCell.is_cubic, UnitCell.is_rhombohedral,
    UnitCell.is_hexagonal, UnitCell.is_tetragonal, UnitCell.is_orthorhombic,
    UnitCell.is_monoclinic.
  rewrite Heq, Hab, Hort, Hag. cbn [andb]. auto.
Qed.

Lemma is_triclinic_classified_triclinic_witness :
  let self :=
    UnitCell.Make identity_rotation (Arr3 5 6 7)%Q
      (Arr3 (11 # 10) (12 # 10) (13 # 10))%Q in
  UnitCell.is_triclinic self = true
  ∧ UnitCell.cell_type (UnitCell.set_cell_type self) = "triclinic"%string.
Proof.
  intros self. split; [vm_compute; reflexivity|].
  apply (is_triclinic_classified_triclinic self). vm_compute. reflexivity.
Defined.

Lemma right_angle_orthogonal :
  np.close (Qabs (np.pi / 2) - np.pi / 2) 0 = true.
Proof. vm_compute. reflexivity. Qed.

Lemma hexagonal_angle_not_right :
  np.close (Qabs (2 * np.pi / 3) - np.pi / 2) 0 = false
  ∧ np.close (2 * np.pi / 3 - np.pi / 2) 0 = false
  ∧ np.close (np.pi / 2) (2 * np.pi / 3) = false.
Proof. repeat split; vm_compute; reflexivity. Qed.

(** X23. A cell with the lengths (a, a, c) and three angles pi/2, the
    parameters the class method [tetragonal] sets, is classified cubic
    when c is within the absolute tolerance of a, tetragonal when a is
    not close to c, and triclinic in the band between the two
    tolerances. *)
Theorem tetragonal_parameters_cell_type (direct : mat) (a c : Q) :
  let self :=
    UnitCell.Make direct (Arr3 a a c)
      (Arr3 (np.pi / 2) (np.pi / 2) (np.pi / 2))%Q in
  UnitCell.set_cell_type self
  = if Qle_bool (Qabs (c - a)) np.atol
    then UnitCell.Classification 6 "cubic" [a]
    else if np.close a c
    then UnitCell.Classification 0 "triclinic"
           [a; a; c; np.pi / 2; np.pi / 2; np.pi / 2]%Q
    else UnitCell.Classification 3 "tetragonal" [a; c].
Proof.
  intros self. subst self.
  unfold UnitCell.set_cell_type, UnitCell.is_cubic, UnitCell.is_rhombohedral,
    UnitCell.is_hexagonal, UnitCell.is_tetragonal, UnitCell.is_orthorhombic,
    UnitCell.is_monoclinic, UnitCell.abc_equal, UnitCell.abc_different,
    UnitCell.orthogonal, UnitCell.close_zeros, UnitCell.a, UnitCell.b,
    UnitCell.c, UnitCell.alpha, UnitCell.beta, UnitCell.gamma.
  cbn [UnitCell.lengths UnitCell.angles amap at0 at1 at2].
  destruct hexagonal_angle_not_right as (_ & _ & Hhex).
  rewrite right_angle_orthogonal, !close_difference_zero, !close_refl, Hhex.
  assert (Haa : Qle_bool (Qabs (a - a)) np.atol = true).
  { apply Qle_bool_iff. constants. qabs; lra. }
  rewrite Haa. cbn [andb orb negb].
  destruct (Qle_bool (Qabs (c - a)) np.atol) eqn:Hca; [reflexivity|].
  cbn [andb]. rewrite !andb_false_r.
  destruct (np.close a c); reflexivity.
Qed.

(** X24. A cell with the lengths (a, a, c) and the angles pi/2, pi/2,
    2 pi/3, the parameters the class method [hexagonal] sets, is
    classified hexagonal when a is not close to c and triclinic when
    it is. *)
Theorem hexagonal_parameters_cell_type (direct : mat) (a c : Q) :
  let self :=
    UnitCell.Make direct (Arr3 a a c)
      (Arr3 (np.pi / 2) (np.pi / 2) (2 * np.pi / 3))%Q in
  UnitCell.set_cell_type self
  = if np.close a c
    then UnitCell.Classification 0 "triclinic"
           [a; a; c; np.pi / 2; np.pi / 2; 2 * np.pi / 3]%Q
    else UnitCell.Classification 5 "hexagonal" [a; c].
Proof.
  intros self. subst self.
  unfold UnitCell.set_cell_type, UnitCell.is_cubic, UnitCell.is_rhombohedral,
    UnitCell.is_hexagonal, UnitCell.is_tetragonal, UnitCell.is_orthorhombic,
    UnitCell.is_monoclinic, UnitCell.abc_equal, UnitCell.abc_different,
    UnitCell.orthogonal, UnitCell.close_zeros, UnitCell.a, UnitCell.b,
    UnitCell.c, UnitCell.alpha, UnitCell.beta, UnitCell.gamma.
  cbn [UnitCell.lengths UnitCell.angles amap at0 at1 at2].
  destruct hexagonal_angle_not_right as (Hort & Hdiff & Hhex).
  rewrite Hort, Hdiff, Hhex, !close_refl.
  rewrite !andb_false_r. cbn [andb orb negb].
  destruct (np.close a c); reflexivity.
Qed.

(** X25. A cell with three lengths a and three angles alpha, the
    parameters the class method [rhombohedral] sets, is classified
    cubic when the absolute value of alpha is within the absolute
    tolerance of pi/2, rhombohedral when alpha is not close to pi/2,
    and triclinic otherwise. *)
Theorem rhombohedral_parameters_cell_type (direct : mat) (a alpha : Q) :
  let self :=
    UnitCell.Make direct (Arr3 a a a) (Arr3 alpha alpha alpha) in
  UnitCell.set_cell_type self
  = if Qle_bool (Qabs (Qabs alpha - np.pi / 2)) np.atol
    then UnitCell.Classification 6 "cubic" [a]
    else if np.close alpha (np.pi / 2)
    then UnitCell.Classification 0 "triclinic" [a; a; a; alpha; alpha; alpha]
    else UnitCell.Classification 4 "rhombohedral" [a; alpha].
Proof.
  intros self. subst self.
  unfold UnitCell.set_cell_type, UnitCell.is_cubic, UnitCell.is_rhombohedral,
    UnitCell.is_hexagonal, UnitCell.is_tetragonal, UnitCell.is_orthorhombic,
    UnitCell.is_monoclinic, UnitCell.abc_equal, UnitCell.abc_different,
    UnitCell.orthogonal, UnitCell.close_zeros, UnitCell.a, UnitCell.b,
    UnitCell.c, UnitCell.alpha, UnitCell.beta, UnitCell.gamma.
  cbn [UnitCell.lengths UnitCell.angles amap at0 at1 at2].
  rewrite !close_difference_zero, !close_refl.
  assert (Hzero : ∀ x : Q, Qle_bool (Qabs (x - x)) np.atol = true).
  { intros x. apply Qle_bool_iff. constants. qabs; lra. }
  rewrite !Hzero. cbn [andb orb negb].
  destruct (Qle_bool (Qabs (Qabs alpha - np.pi / 2)) np.atol);
    [reflexivity|]. cbn [andb].
  destruct (np.close alpha (np.pi / 2)); reflexivity.
Qed.

(** * Further properties of the crystal class *)

(** [np.fmod(x, 1)] is strictly inside (-1, 1) *)
Lemma fmod1_range (q : Q) : (-1 < np.fmod1 q)%Q ∧ (np.fmod1 q < 1)%Q.
Proof.
  unfold np.fmod1. destruct q as [n d]. cbn [Qnum Qden].
  pose proof (Z.quot_rem' n (Z.pos d)) as Hqr.
  pose proof (Z.rem_bound_abs n (Z.pos d) ltac:(lia)) as Hr.
  set (k := Z.quot n (Z.pos d)) in *. set (r := Z.rem n (Z.pos d)) in *.
  unfold Qlt, Qminus, Qplus, Qopp, inject_Z. cbn [Qnum Qden].
  rewrite !Z.mul_1_r, Pos.mul_1_r. split; nia.
Qed.

(** boolean-mask indexing keeps some of the rows *)
Lemma elem_of_mask_index {A} (l : list A) (mask : list bool) (r : list A)
    (x : A) :
  mask_index l mask = Ok r → x ∈ r → x ∈ l.
Proof.
  unfold mask_index. destruct (length l =? length mask)%nat; [|discriminate].
  intros H Hx. injection H as <-. apply list_elem_of_In in Hx.
  apply in_map_iff in Hx as ([y b] & <- & Hy).
  apply filter_In in Hy as [Hy _]. apply in_combine_l in Hy.
  now apply list_elem_of_In.
Qed.

(** every row of [frac_pos] is an image of a site, moved by the offset
    and taken through [np.fmod] *)
Lemma unit_cell_atoms_frac_pos
    (sparse_distance_matrix : list vec → Q → list (nat * nat * Q))
    (self : Crystal.t) (tolerance : Q) (atoms : Crystal.unit_cell_atom_dict) :
  Crystal.unit_cell_atoms sparse_distance_matrix self tolerance = Ok atoms →
  ∃ sym uc_pos,
    SpaceGroup.apply_all_symops (Crystal.space_group self)
      (Crystal.site_positions self) = Ok (sym, uc_pos)
    ∧ ∀ v, v ∈ Crystal.frac_pos atoms →
           ∃ p, p ∈ uc_pos ∧ v = amap (fun x => np.fmod1 (x + 7))%Q p.
Proof.
  unfold Crystal.unit_cell_atoms. intros H.
  apply bind_Ok in H as ([sym uc_pos] & Happly & H). cbv beta iota in H.
  apply bind_Ok in H as ([occupation mask] & _ & H). cbv beta iota in H.
  apply bind_Ok in H as (occupation' & _ & H).
  apply bind_Ok in H as (asym_atom & _ & H).
  apply bind_Ok in H as (frac & Hfrac & H).
  apply bind_Ok in H as (element & _ & H).
  apply bind_Ok in H as (symop & _ & H).
  apply bind_Ok in H as (label & _ & H).
  injection H as <-. cbn [Crystal.frac_pos].
  exists sym, uc_pos. split; [exact Happly|]. intros v Hv.
  apply (elem_of_mask_index _ _ _ _ Hfrac) in Hv.
  apply list_elem_of_In, in_map_iff in Hv as (p & <- & Hp).
  exists p. split; [now apply list_elem_of_In | reflexivity].
Qed.

(** X26. The fractional coordinates [unit_cell_atoms] returns lie
    strictly between -1 and 1 whatever the sites are, and in [0, 1)
    when no image of a site has a coordinate below -7, the reach of
    the offset added before [np.fmod]. *)
Theorem unit_cell_atoms_wrapped_within_reach
    (sparse_distance_matrix : list vec → Q → list (nat * nat * Q))
    (self : Crystal.t) (tolerance : Q) (atoms : Crystal.unit_cell_atom_dict)
    (v : vec) :
  Crystal.unit_cell_atoms sparse_distance_matrix self tolerance = Ok atoms →
  v ∈ Crystal.frac_pos atoms →
  (((-1 < at0 v)%Q ∧ (at0 v < 1)%Q) ∧ ((-1 < at1 v)%Q ∧ (at1 v < 1)%Q)
   ∧ ((-1 < at2 v)%Q ∧ (at2 v < 1)%Q))
  ∧ ((∀ sym uc_pos p,
        SpaceGroup.apply_all_symops (Crystal.space_group self)
          (Crystal.site_positions self) = Ok (sym, uc_pos) →
        p ∈ uc_pos → (-7 <= at0 p)%Q ∧ (-7 <= at1 p)%Q ∧ (-7 <= at2 p)%Q) →
     in_unit_interval v).
Proof.
  intros Hatoms Hv.
  destruct (unit_cell_atoms_frac_pos _ _ _ _ Hatoms)
    as (sym & uc_pos & Happly & Hrows).
  destruct (Hrows v Hv) as (p & Hp & ->). cbn [amap at0 at1 at2]. split.
  - repeat split; apply fmod1_range.
  - intros Hreach. destruct (Hreach sym uc_pos p Happly Hp) as (H0 & H1 & H2).
    unfold in_unit_interval. cbn [at0 at1 at2].
    repeat split; now apply fmod1_offset_wraps.
Qed.

Lemma unit_cell_atoms_wrapped_within_reach_witness :
  ∃ atoms,
    Crystal.unit_cell_atoms scipy.sparse_distance_matrix
      crystal_general_position (1 # 1000) = Ok atoms
    ∧ ∀ v, v ∈ Crystal.frac_pos atoms → in_unit_interval v.
Proof.
  eexists. split; [vm_compute; reflexivity|]. intros v Hv.
  eapply (unit_cell_atoms_wrapped_within_reach scipy.sparse_distance_matrix
            crystal_general_position (1 # 1000));
    [vm_compute; reflexivity | exact Hv|].
  intros sym uc_pos p H Hp. vm_compute in H. injection H as <- <-.
  apply elem_of_cons in Hp as [-> | Hp];
    [|apply list_elem_of_singleton in Hp; subst p];
    repeat split; unfold Qle; cbn; lia.
Defined.

(** X27. When every index the unit-cell molecules carry is a site
    index and no molecule is without atoms,
    [symmetry_unique_molecules] returns molecules that hold, between
    them, exactly the sites that the unit-cell molecules hold between
    them; when some molecule is without atoms the call raises
    [ZeroDivisionError], from the key by which the molecules are
    sorted. *)
Theorem symmetry_unique_molecules_same_sites
    (unit_cell_molecules : Crystal.t → list Molecule.t) (self : Crystal.t) :
  let nsites := AsymmetricUnit.len (Crystal.asymmetric_unit self) in
  (∀ mol i, mol ∈ unit_cell_molecules self →
            i ∈ Molecule.asymmetric_unit_atoms mol → (i < nsites)%nat) →
  ((∀ mol, mol ∈ unit_cell_molecules self → Molecule.len mol ≠ 0%nat) →
   ∃ sorted molecules,
     Crystal.sorted_reverse (unit_cell_molecules self) = Ok sorted
     ∧ Crystal.symmetry_unique_molecules unit_cell_molecules self
       = Ok molecules
     ∧ molecules `sublist_of` sorted
     ∧ (list_to_set
          (concat (List.map Molecule.asymmetric_unit_atoms molecules))
        : gset nat)
       = list_to_set
           (concat (List.map Molecule.asymmetric_unit_atoms
                      (unit_cell_molecules self))))
  ∧ ((∃ mol, mol ∈ unit_cell_molecules self ∧ Molecule.len mol = 0%nat) →
     Crystal.symmetry_unique_molecules unit_cell_molecules self
     = Raise ZeroDivisionError).
Proof.
  intros nsites Hrange. split.
  - intros Hatoms.
    destruct (sorted_reverse_returns _ Hatoms) as [sorted Hsorted].
    pose proof (sorted_reverse_Permutation _ _ Hsorted) as Hperm.
    unfold Crystal.symmetry_unique_molecules. fold nsites.
    rewrite Hsorted. cbn [mbind result_bind].
    destruct (select_molecules_spec sorted (replicate nsites false) [])
      as (kept & covered & Hsel & Hsub & Hlen & Hcov & Hend).
    { intros mol i Hmol Hi. rewrite length_replicate.
      rewrite Hperm in Hmol. eauto. }
    rewrite length_replicate in Hlen, Hend.
    exists sorted, kept. split; [reflexivity|]. split; [exact Hsel|].
    split; [exact Hsub|].
    apply set_eq. intros i.
    rewrite !elem_of_list_to_set, !elem_of_concat_map. split.
    + intros (mol & Hmol & Hi). exists mol. split; [|exact Hi].
      rewrite <- Hperm. eapply sublist_subseteq; eassumption.
    + intros (mol & Hmol & Hi).
      assert (Hi' : covered !! i = Some true).
      { destruct Hend as [Hend | Hend].
        - apply Hend. eapply Hrange; eassumption.
        - apply (Hend mol i); [|exact Hi]. now rewrite Hperm. }
      apply Hcov in Hi' as [Hi' | Hi']; [|exact Hi'].
      rewrite lookup_replicate in Hi'. destruct Hi' as [Hi' _].
      discriminate Hi'.
  - intros (mol & Hmol & Hlen).
    unfold Crystal.symmetry_unique_molecules, Crystal.sorted_reverse.
    now rewrite (keyed_raises _ mol Hmol Hlen).
Qed.

Lemma symmetry_unique_molecules_same_sites_witness :
  let unit_cell_molecules := fun _ : Crystal.t => [dimer_on_inversion_centre] in
  ∃ molecules,
    Crystal.symmetry_unique_molecules unit_cell_molecules
      crystal_on_inversion_centre = Ok molecules
    ∧ (list_to_set
         (concat (List.map Molecule.asymmetric_unit_atoms molecules)) : gset nat)
      = list_to_set
          (concat (List.map Molecule.asymmetric_unit_atoms
                     [dimer_on_inversion_centre])).
Proof.
  intros unit_cell_molecules.
  destruct (symmetry_unique_molecules_same_sites unit_cell_molecules
              crystal_on_inversion_centre) as [Hreturns _].
  - intros mol i Hmol Hi. apply list_elem_of_singleton in Hmol. subst mol.
    cbn in Hi. apply elem_of_cons in Hi as [-> | Hi]; [cbn; lia|].
    apply list_elem_of_singleton in Hi. subst i. cbn. lia.
  - destruct Hreturns as (sorted & molecules & _ & Hm & _ & Hset).
    + intros mol Hmol. apply list_elem_of_singleton in Hmol. subst mol.
      discriminate.
    + exists molecules. split; [exact Hm | exact Hset].
Defined.

(** X28. Every molecule [symmetry_unique_molecules] returns holds a
    site that none of the molecules returned before it holds: no
    molecule of the result is redundant for the sites covered. *)
Theorem symmetry_unique_molecules_each_adds_a_site
    (unit_cell_molecules : Crystal.t → list Molecule.t) (self : Crystal.t)
    (molecules before after : list Molecule.t) (mol : Molecule.t) :
  Crystal.symmetry_unique_molecules unit_cell_molecules self = Ok molecules →
  molecules = before ++ mol :: after →
  ∃ i, i ∈ Molecule.asymmetric_unit_atoms mol
       ∧ (i < AsymmetricUnit.len (Crystal.asymmetric_unit self))%nat
       ∧ ∀ m, m ∈ before → i ∉ Molecule.asymmetric_unit_atoms m.
Proof.
  unfold Crystal.symmetry_unique_molecules. intros H Hsplit.
  apply bind_Ok in H as (sorted & _ & H).
  apply select_molecules_fresh in H as (kept & -> & Hkept).
  destruct (Hkept before mol after Hsplit) as (i & Hi & Hf & Hpre).
  exists i. split; [exact Hi|]. split; [|exact Hpre].
  apply lookup_lt_Some in Hf. now rewrite length_replicate in Hf.
Qed.

Lemma symmetry_unique_molecules_each_adds_a_site_witness :
  let unit_cell_molecules := fun _ : Crystal.t => [dimer_on_inversion_centre] in
  Crystal.symmetry_unique_molecules unit_cell_molecules
    crystal_on_inversion_centre = Ok [dimer_on_inversion_centre]
  ∧ ∃ i, i ∈ Molecule.asymmetric_unit_atoms dimer_on_inversion_centre
         ∧ (i < 1)%nat.
Proof.
  intros unit_cell_molecules.
  assert (H : Crystal.symmetry_unique_molecules unit_cell_molecules
                crystal_on_inversion_centre = Ok [dimer_on_inversion_centre])
    by (vm_compute; reflexivity).
  split; [exact H|].
  destruct (symmetry_unique_molecules_each_adds_a_site unit_cell_molecules
              crystal_on_inversion_centre [dimer_on_inversion_centre] [] []
              dimer_on_inversion_centre H eq_refl) as (i & Hi & Hlt & _).
  exists i. split; [exact Hi | exact Hlt].
Defined.

(** * Properties of the element class *)

(** X29. [Element.__lt__] is a strict total order on atomic numbers:
    irreflexive, asymmetric, transitive, and any two elements are
    ordered or equal under [__eq__]; carbon is below every other
    element, and the others are in the order of their atomic
    numbers. *)
Theorem element_order (x y z : Element.t) :
  Element.lt x x = false
  ∧ (Element.lt x y = true → Element.lt y x = false)
  ∧ (Element.lt x y = true → Element.lt y z = true → Element.lt x z = true)
  ∧ (Element.lt x y = true ∨ Element.eq x y = true ∨ Element.lt y x = true)
  ∧ (Element.atomic_number x = 6 → Element.atomic_number y ≠ 6 →
     Element.lt x y = true)
  ∧ (Element.atomic_number x ≠ 6 → Element.atomic_number y ≠ 6 →
     Element.lt x y
     = (Element.atomic_number x <? Element.atomic_number y))
  ∧ Element.le x y = negb (Element.lt y x)
  ∧ Element.gt x y = Element.lt y x
  ∧ Element.ge x y = Element.le y x.
Proof.
  unfold Element.le, Element.gt, Element.ge, Element.lt, Element.eq.
  destruct x as [n1 ? ? ? ? ?], y as [n2 ? ? ? ? ?], z as [n3 ? ? ? ? ?].
  cbn [Element.atomic_number].
  repeat split; intros;
    repeat match goal with
           | H : context [(?a =? ?b)] |- _ => destruct (Z.eqb_spec a b)
           | |- context [(?a =? ?b)] => destruct (Z.eqb_spec a b)
           | H : context [(?a <? ?b)] |- _ => destruct (Z.ltb_spec a b)
           | |- context [(?a <? ?b)] => destruct (Z.ltb_spec a b)
           end;
    cbn [negb andb orb] in *; try reflexivity; try discriminate; try lia;
    auto.
Qed.

Lemma element_order_witness :
  ∃ carbon hydrogen oxygen,
    Element.from_string "C" = Ok carbon
    ∧ Element.from_string "H" = Ok hydrogen
    ∧ Element.from_string "O" = Ok oxygen
    ∧ Element.lt carbon hydrogen = true
    ∧ Element.lt hydrogen oxygen = true
    ∧ Element.lt carbon oxygen = true.
Proof.
  eexists _, _, _. split; [vm_compute; reflexivity|].
  split; [vm_compute; reflexivity|]. split; [vm_compute; reflexivity|].
  match goal with
  | |- Element.lt ?c ?h = true ∧ Element.lt ?h ?o = true ∧ _ =>
      destruct (element_order c h o) as (_ & _ & Htrans & _);
      assert (Hch : Element.lt c h = true) by reflexivity;
      assert (Hho : Element.lt h o = true) by reflexivity;
      split; [exact Hch|]; split; [exact Hho|]; exact (Htrans Hch Hho)
  end.
Defined.

Lemma table_found_by_string :
  Forall (fun ir => found_by_string (fst ir) (snd ir))
    (imap pair _ELEMENT_DATA).
Proof. apply (bool_decide_unpack _). vm_compute. exact I. Qed.

(** X30. Every row of the element table is found by [from_string]
    from its symbol, in the table's spelling or in lower case, and from
    the decimal string of its atomic number, and it is the element
    [from_atomic_number] gives; it is found from its name as well,
    except for the row of index 69, ytterbium, whose name the table
    spells with a capital letter: for it the name raises
    [ValueError]. *)
Theorem from_string_finds_table_rows (i : nat)
    (row : string * string * Q * Q * Q) :
  _ELEMENT_DATA !! i = Some row →
  let element := element_of_row i row in
  Element.from_atomic_number (Z.of_nat i + 1) = Ok element
  ∧ Element.from_string (Element.symbol element) = Ok element
  ∧ Element.from_string (os_path.lower (Element.symbol element)) = Ok element
  ∧ Element.from_string (pretty (Z.of_nat i + 1)) = Ok element
  ∧ Element.from_string (os_path.lower (Element.name element))
    = (if bool_decide (i = 69%nat) then Raise ValueError else Ok element)
  ∧ Element.from_string (Element.name element)
    = (if bool_decide (i = 69%nat) then Raise ValueError else Ok element).
Proof.
  intros Hrow.
  pose proof table_found_by_string as Hall.
  rewrite Forall_lookup in Hall.
  apply (Hall i (i, row)). rewrite list_lookup_imap, Hrow. reflexivity.
Qed.

Lemma from_string_finds_table_rows_witness :
  _ELEMENT_DATA !! 69%nat
  = Some ("Ytterbium", "Yb", 187 # 100, 200 # 100, 17304 # 100)%Q
  ∧ Element.from_string "ytterbium" = Raise ValueError
  ∧ Element.from_string "Ytterbium" = Raise ValueError
  ∧ ∃ element, Element.from_string "yb" = Ok element
               ∧ Element.atomic_number element = 70.
Proof.
  assert (Hrow : _ELEMENT_DATA !! 69%nat
                 = Some ("Ytterbium", "Yb", 187 # 100, 200 # 100,
                         17304 # 100)%Q) by reflexivity.
  split; [exact Hrow|].
  destruct (from_string_finds_table_rows 69 _ Hrow)
    as (_ & _ & Hlower & _ & Hname & Hname').
  split; [exact Hname|]. split; [exact Hname'|].
  eexists. split; [exact Hlower | reflexivity].
Defined.
